(** * batch-query: aggregate contract reads

    A shallow embedding of the two utilities of the package [batchquery]:

    - [MultiCaller] (multicaller source): a queue of call descriptors that
      [FlexibleCall] packs into one [tryAggregate] call, sends through the
      execution client, and unpacks descriptor by descriptor;
    - [BalanceBatcher] (balance-batcher.go): [GetEthBalances] cuts an address
      list into chunks, runs one [balances] query per chunk in an errgroup
      and stores each chunk's answers at the chunk's offset.

    The execution client ([IContractCaller], types.go) and the ABI codec of
    go-ethereum are capabilities of the environment: they appear as records
    of functions.  Go's [(value, error)] results are kept as pairs of
    options where the source returns both, a run-time panic is an outcome of
    its own, and what [FlexibleCall] does to the world is logged as a trace
    of events.  [GetEthBalances] is given twice: as a function of the order
    in which the chunk units finish ([BalanceBatcher]), and move by move,
    with the waiting in [wg.Go] and [wg.Wait] and the panic of a unit
    ending the program on the spot ([BalanceSteps]). *)

From Stdlib Require Import ZArith String List Lia Permutation.
From stdpp Require Import base tactics option list.

Local Open Scope string_scope.
Local Open Scope list_scope.

(** ** Go values shared by both files *)

(** [common.Address]: 20 bytes, read as a 160-bit number.  The zero value
    [common.Address{}] is [0]. *)
Definition Address : Type := N.

Definition bytes : Type := list Byte.byte.

(** An argument of a [fmt.Errorf] verb.  [ArgAddr a] is the text go-ethereum
    prints for [a] ([a.Hex()] and [a.String()] are the same rendering). *)
Inductive fmtarg : Type :=
  | ArgInt (z : Z)
  | ArgStr (s : string)
  | ArgAddr (a : Address).

(** Go [error] values.  [CapabilityError] is an error made by the codec, the
    client or a caller's closure; [Errorf format args] is
    [fmt.Errorf(format, args...)] for a format without [%w], and
    [Wrapf format args wrapped] is [fmt.Errorf(format, args..., wrapped)]
    for a format that ends in [%w]. *)
Inductive error : Type :=
  | CapabilityError (msg : string)
  | Errorf (format : string) (args : list fmtarg)
  | Wrapf (format : string) (args : list fmtarg) (wrapped : error).

(** A Go result [(T, error)] of a capability: exactly one side is set. *)
Inductive result (A : Type) : Type :=
  | Ok (v : A)
  | Err (e : error).
Arguments Ok {A} v.
Arguments Err {A} e.

(** How a Go function call ends: it returns, or a run-time panic unwinds it. *)
Inductive outcome (A : Type) : Type :=
  | Returned (v : A)
  | Panicked.
Arguments Returned {A} v.
Arguments Panicked {A}.

(** [ethereum.CallMsg], the two fields the package sets. *)
Record CallMsg : Type := { To : option Address; Data : bytes }.

(** [bind.CallOpts], the one field the package reads. *)
Record CallOpts : Type := { BlockNumber : option Z }.

(** types.go: the execution client binding.  [context.Background()] is the
    only context ever passed and is left out. *)
Record IContractCaller : Type :=
  { CallContract : CallMsg -> option Z -> result bytes }.

(** [var blockNumber *big.Int; if opts != nil { blockNumber = opts.BlockNumber }] *)
Definition blockNumber_of (opts : option CallOpts) : option Z :=
  match opts with
  | Some o => BlockNumber o
  | None => None
  end.

(** Go's [int] on a 64-bit platform: arithmetic wraps around. *)
Definition int_min : Z := (- 2 ^ 63)%Z.
Definition int_max : Z := (2 ^ 63 - 1)%Z.
Definition int_wrap (z : Z) : Z := ((z + 2 ^ 63) mod 2 ^ 64 - 2 ^ 63)%Z.

(** ** The multicaller *)

Module MultiCaller.

(** [type Call struct]: the closures are fields of the descriptor. *)
Record Call : Type :=
  { Target : Address;
    CallData : bytes;
    Method : string;
    PackFunc : unit -> result bytes;
    UnpackFunc : bytes -> option error }.

Record CallResponse : Type := { Status : bool; ReturnData : bytes }.

(** The parsed Multicall v2 ABI ([multicallAbi]), at the one method used:
    [tryAggregate(bool, (address,bytes)[]) -> (bool,bytes)[]].  Unpacking
    into a slice replaces the destination by the decoded list, whatever
    length the destination had. *)
Record ABI : Type :=
  { Pack_tryAggregate : bool -> list (Address * bytes) -> result bytes;
    Unpack_tryAggregate : bytes -> result (list CallResponse) }.

Record MultiCaller : Type :=
  { client : IContractCaller;
    contractAddress : Address;
    calls : list Call }.

(** What an execution does to the world, in program order. *)
Inductive event : Type :=
  | EvPack (i : nat)
  | EvCallContract (msg : CallMsg) (blockNumber : option Z)
  | EvUnpack (i : nat) (rawData : bytes).

(** The state a call of [FlexibleCall] leaves behind, with what it returned. *)
Record run : Type :=
  { ret : outcome (option (list bool) * option error);
    after : MultiCaller;
    trace : list event }.

Definition set_CallData (c : Call) (callData : bytes) : Call :=
  {| Target := Target c; CallData := callData; Method := Method c;
     PackFunc := PackFunc c; UnpackFunc := UnpackFunc c |}.

Definition set_calls (mc : MultiCaller) (cs : list Call) : MultiCaller :=
  {| client := client mc; contractAddress := contractAddress mc; calls := cs |}.

(** [NewMultiCaller]: the ABI is parsed once, outside the model. *)
Definition NewMultiCaller (cl : IContractCaller) (multicallerAddress : Address)
  : MultiCaller :=
  {| client := cl; contractAddress := multicallerAddress; calls := [] |}.

(** [AddCall]: [pack] stands for [abi.Pack(method, args...)] and [unpack] for
    [abi.UnpackIntoInterface(output, method, rawData)]; the closure wraps a
    packing error with the method and the contract. *)
Definition AddCall (contractAddr : Address) (pack : unit -> result bytes)
    (unpack : bytes -> option error) (method : string) (mc : MultiCaller)
  : MultiCaller :=
  let call :=
    {| Target := contractAddr;
       CallData := [];
       Method := method;
       PackFunc := fun _ =>
         match pack tt with
         | Err err =>
             Err (Wrapf "error packing data for call [%s] on contract %s: %w" [ArgStr method; ArgAddr contractAddr] err)
         | Ok callData => Ok callData
         end;
       UnpackFunc := unpack |} in
  set_calls mc (calls mc ++ [call]).

(** Lines 263-269: [for i, call := range mc.calls].  Returns the call list as
    the loop leaves it ([mc.calls[i].CallData] is assigned in place), the
    events, and the error that stopped the loop, if any. *)
Fixpoint pack_loop (i : nat) (cs : list Call)
  : list Call * list event * option error :=
  match cs with
  | [] => ([], [], None)
  | call :: rest =>
      match PackFunc call tt with
      | Err err => (call :: rest, [EvPack i], Some err)
      | Ok callData =>
          let '(rest', tr, e) := pack_loop (S i) rest in
          (set_CallData call callData :: rest', EvPack i :: tr, e)
      end
  end.

(** How the loop of lines 295-305 ends. *)
Inductive unpack_end : Type :=
  | UnpackDone (res : list bool)
  | UnpackFailed (err : error)
  | UnpackOutOfRange.

Definition unpack_cons (flag : bool) (r : unpack_end) : unpack_end :=
  match r with
  | UnpackDone res => UnpackDone (flag :: res)
  | other => other
  end.

(** Lines 295-305: [for i, c := range mc.calls], from position [i] on.
    [results[i]] is a plain index expression: out of range it panics. *)
Fixpoint unpack_loop (i : nat) (cs : list Call) (results : list CallResponse)
  : unpack_end * list event :=
  match cs with
  | [] => (UnpackDone [], [])
  | c :: rest =>
      match results !! i with
      | None => (UnpackOutOfRange, [])
      | Some r =>
          let callSuccess := Status r in
          if callSuccess then
            match UnpackFunc c (ReturnData r) with
            | Some err =>
                (UnpackFailed
                   (Wrapf "error unpacking response for contract %s, method %s: %w" [ArgAddr (Target c); ArgStr (Method c)] err),
                 [EvUnpack i (ReturnData r)])
            | None =>
                let '(r', tr) := unpack_loop (S i) rest results in
                (unpack_cons callSuccess r', EvUnpack i (ReturnData r) :: tr)
            end
          else
            let '(r', tr) := unpack_loop (S i) rest results in
            (unpack_cons callSuccess r', tr)
      end
  end.

Section Flexible.

Variable multicallAbi : ABI.

(** Lines 256-310. *)
Definition FlexibleCall (requireSuccess : bool) (opts : option CallOpts)
    (mc : MultiCaller) : run :=
  if Nat.eqb (length (calls mc)) 0 then
    {| ret := Returned (Some [], None); after := mc; trace := [] |}
  else
    let '(calls1, tr1, packErr) := pack_loop 0 (calls mc) in
    let mc1 := set_calls mc calls1 in
    match packErr with
    | Some err =>
        {| ret := Returned (None, Some err); after := mc1; trace := tr1 |}
    | None =>
        match Pack_tryAggregate multicallAbi requireSuccess
                (map (fun c => (Target c, CallData c)) calls1) with
        | Err err =>
            {| ret := Returned (None, Some (Wrapf "error packing aggregated call data: %w" [] err));
               after := mc1; trace := tr1 |}
        | Ok callData =>
            let blockNumber := blockNumber_of opts in
            let msg := {| To := Some (contractAddress mc1); Data := callData |} in
            let tr2 := tr1 ++ [EvCallContract msg blockNumber] in
            match CallContract (client mc1) msg blockNumber with
            | Err err =>
                {| ret := Returned (None, Some (Wrapf "error calling multicall contract: %w" [] err));
                   after := mc1; trace := tr2 |}
            | Ok resp =>
                match Unpack_tryAggregate multicallAbi resp with
                | Err err =>
                    {| ret := Returned (None, Some (Wrapf "error unpacking aggregated response data: %w" [] err));
                       after := mc1; trace := tr2 |}
                | Ok results =>
                    match unpack_loop 0 calls1 results with
                    | (UnpackOutOfRange, tr3) =>
                        {| ret := Panicked; after := mc1; trace := tr2 ++ tr3 |}
                    | (UnpackFailed err, tr3) =>
                        {| ret := Returned (None, Some err);
                           after := set_calls mc1 []; trace := tr2 ++ tr3 |}
                    | (UnpackDone res, tr3) =>
                        {| ret := Returned (Some res, None);
                           after := set_calls mc1 []; trace := tr2 ++ tr3 |}
                    end
                end
            end
        end
    end.

End Flexible.

(** Events of one kind in a trace. *)
Definition is_transport (e : event) : bool :=
  match e with
  | EvCallContract _ _ => true
  | _ => false
  end.

Definition transport_calls (tr : list event) : list event :=
  List.filter is_transport tr.

Definition unpacked (tr : list event) : list nat :=
  omap (fun e => match e with EvUnpack i _ => Some i | _ => None end) tr.

End MultiCaller.

(** ** The balance batcher *)

Module BalanceBatcher.

Local Open Scope Z_scope.

(** The parsed balance-checker ABI ([balanceBatcherAbi]), at the one method
    used: [balances(address[] users, address[] tokens) -> uint256[]].  A
    decoded [*big.Int] may be nil, hence [option Z]. *)
Record ABI : Type :=
  { Pack_balances : list Address -> list Address -> result bytes;
    Unpack_balances : bytes -> result (list (option Z)) }.

Record BalanceBatcher : Type :=
  { BalanceBatchSize : Z;
    ThreadLimit : Z;
    client : IContractCaller;
    contractAddress : Address;
    abi : ABI }.

Definition NewBalanceBatcher (parsedAbi : ABI) (cl : IContractCaller)
    (address : Address) (balanceBatchSize threadLimit : Z) : BalanceBatcher :=
  {| BalanceBatchSize := balanceBatchSize;
     ThreadLimit := threadLimit;
     client := cl;
     contractAddress := address;
     abi := parsedAbi |}.

(** A chunk unit as the loop spawns it: the captured [i] and [max]. *)
Definition unit_bounds : Type := (Z * Z)%type.

(** Lines 70-76 and 115: the index and the bounds of
    [for i := 0; i < count; i += b.BalanceBatchSize], from index [i] on,
    every [wg.Go] of the body (line 77) being taken to return.  The result
    lists the units in spawn order; [None] says the loop has not left after
    [fuel] iterations.  The wait of [wg.Go] for a slot is not here: it is
    in [GetEthBalances] below for limit zero, and move by move in
    [BalanceSteps.step]. *)
Fixpoint chunk_loop (fuel : nat) (count size i : Z) : option (list unit_bounds) :=
  match fuel with
  | O => None
  | S fuel' =>
      if i <? count then
        let max := int_wrap (i + size) in
        let max := if max >? count then count else max in
        match chunk_loop fuel' count size (int_wrap (i + size)) with
        | Some units => Some ((i, max) :: units)
        | None => None
        end
      else Some []
  end.

(** The slice expression [s[lo:hi]] on a slice whose capacity is its length:
    it panics unless [0 <= lo <= hi <= len(s)]. *)
Definition slice {A : Type} (s : list A) (lo hi : Z) : option (list A) :=
  if (0 <=? lo) && (lo <=? hi) && (hi <=? Z.of_nat (length s))
  then Some (take (Z.to_nat (hi - lo)) (drop (Z.to_nat lo) s))
  else None.

(** Lines 106-111: [for j, balance := range subBalances], from position [j]
    on, [todo] being what is left of [subBalances].  The shared [balances]
    array is threaded through; both index expressions are checked. *)
Fixpoint store_loop (subAddresses : list Address) (i : Z) (j : nat)
    (todo : list (option Z)) (balances : list (option Z))
  : outcome (option error) * list (option Z) :=
  match todo with
  | [] => (Returned None, balances)
  | balance :: rest =>
      match balance with
      | None =>
          match subAddresses !! j with
          | Some a =>
              (Returned (Some (Errorf "received nil balance for address %s" [ArgAddr a])),
               balances)
          | None => (Panicked, balances)
          end
      | Some _ =>
          let k := int_wrap (i + Z.of_nat j) in
          if (0 <=? k) && (k <? Z.of_nat (length balances))
          then store_loop subAddresses i (S j) rest (<[Z.to_nat k := balance]> balances)
          else (Panicked, balances)
      end
  end.

(** Lines 77-114: the closure handed to [wg.Go], for the captured [i] and
    [max].  It returns the closure's error ([None] for [nil]) and the shared
    array as the closure leaves it. *)
Definition chunk_unit (b : BalanceBatcher) (addresses : list Address)
    (opts : option CallOpts) (u : unit_bounds) (balances : list (option Z))
  : outcome (option error) * list (option Z) :=
  let '(i, max) := u in
  match slice addresses i max with
  | None => (Panicked, balances)
  | Some subAddresses =>
      let tokens := [0%N] in
      match Pack_balances (abi b) subAddresses tokens with
      | Err err =>
          (Returned (Some (Wrapf "error creating calldata for balances: %w" [] err)),
           balances)
      | Ok callData =>
          let blockNumber := blockNumber_of opts in
          match CallContract (client b)
                  {| To := Some (contractAddress b); Data := callData |}
                  blockNumber with
          | Err err =>
              (Returned (Some (Wrapf "error calling balances: %w" [] err)), balances)
          | Ok response =>
              match Unpack_balances (abi b) response with
              | Err err =>
                  (Returned (Some (Wrapf "error unpacking balances response: %w" [] err)),
                   balances)
              | Ok subBalances =>
                  if negb (Nat.eqb (length subBalances) (length subAddresses))
                  then
                    (Returned (Some (Errorf "received %d balances which mismatches query batch size %d"
                                       [ArgInt (Z.of_nat (length subBalances));
                                        ArgInt (Z.of_nat (length subAddresses))])),
                     balances)
                  else store_loop subAddresses i 0 subBalances balances
              end
          end
      end
  end.

(** [errgroup.Group]: every unit handed to [Go] runs to its end, and the
    group keeps the first non-nil error a unit returns.  [order] lists the
    units in the order in which they finish; units write disjoint cells of
    [balances], so running them one after the other in that order leaves the
    array as any interleaving of their stores does.  A panic in a unit ends
    the program. *)
Fixpoint run_units (b : BalanceBatcher) (addresses : list Address)
    (opts : option CallOpts) (order : list unit_bounds)
    (balances : list (option Z)) (firstErr : option error)
  : outcome (option error) * list (option Z) :=
  match order with
  | [] => (Returned firstErr, balances)
  | u :: rest =>
      match chunk_unit b addresses opts u balances with
      | (Panicked, balances') => (Panicked, balances')
      | (Returned e, balances') =>
          run_units b addresses opts rest balances'
            (match firstErr with
             | Some _ => firstErr
             | None => e
             end)
      end
  end.

(** Lines 63-123.  [sched] is the scheduler: it turns the units in spawn
    order into the order in which they finish.  With [SetLimit(0)] the first
    [wg.Go] never gets a slot, so the call does not return; [None] covers
    that and a loop that has not left after [fuel] iterations.  The loop is
    run to its end before any unit: this is the call as it goes when no
    unit panics, which is so for every chunk size above zero.  Where a unit
    panics while the loop is still going (a negative chunk size), the
    program dies there; [BalanceSteps] has the moves in the order in which
    they happen. *)
Definition GetEthBalances (fuel : nat)
    (sched : list unit_bounds -> list unit_bounds)
    (b : BalanceBatcher) (addresses : list Address) (opts : option CallOpts)
  : option (outcome (option (list (option Z)) * option error)) :=
  let count := Z.of_nat (length addresses) in
  let balances := replicate (length addresses) (@None Z) in
  match chunk_loop fuel count (BalanceBatchSize b) 0 with
  | None => None
  | Some units =>
      if (ThreadLimit b =? 0) && negb (Nat.eqb (length units) 0)
      then None
      else
        match run_units b addresses opts (sched units) balances None with
        | (Panicked, _) => Some Panicked
        | (Returned (Some err), _) =>
            Some (Returned (None, Some (Wrapf "error getting balances: %w" [] err)))
        | (Returned None, balances') =>
            Some (Returned (Some balances', None))
        end
  end.

End BalanceBatcher.

(** ** The balance batcher, step by step

    [GetEthBalances] above runs the chunking loop to its end and then the
    units, one after the other in the order in which they finish.  The
    program itself interleaves them: [wg.Go] (line 77) starts a unit inside
    the loop body and waits for a slot when the limit is reached, units
    finish while the loop goes on, a unit that panics ends the program on
    the spot, and [wg.Wait] (line 117) returns once no unit is left.  The
    definitions below have one step per move of the calling goroutine or of
    a unit; the script of a run says who moves next. *)

Module BalanceSteps.
Import BalanceBatcher.

Local Open Scope Z_scope.

(** Where the calling goroutine stands: before the test [i < count] of the
    loop (line 70), or in [wg.Wait()] (line 117). *)
Inductive point : Type :=
  | AtLoop (i : Z)
  | AtWait.

(** The shared state: the units handed to [wg.Go] that have not returned, in
    the order in which they were started, the [balances] array, and the
    error the group holds. *)
Record gstate : Type :=
  { pc : point;
    active : list unit_bounds;
    cells : list (option Z);
    held : option error }.

(** A run is under way, or [GetEthBalances] has returned, or the program
    has died of a panic. *)
Inductive config : Type :=
  | Running (s : gstate)
  | Finished (r : option (list (option Z)) * option error)
  | Crashed.

(** Who moves: the calling goroutine, or the unit at position [k] of the
    active ones, which then runs to its end. *)
Inductive mover : Type :=
  | Caller
  | Unit (k : nat).

(** [wg.SetLimit(n)] followed by [wg.Go]: without a limit ([n < 0]) [Go]
    never waits; otherwise it waits until fewer than [n] units are active,
    so that with [n = 0] it waits for ever. *)
Definition slot_free (limit : Z) (act : list unit_bounds) : bool :=
  (limit <? 0) || (Z.of_nat (length act) <? limit).

(** One move.  [None]: the mover cannot move (the caller waits in [wg.Go]
    or in [wg.Wait]; there is no such unit).
    - The caller at the loop test: with [i < count] it computes [max]
      (lines 72-75), hands the unit to [wg.Go] when a slot is free and adds
      the chunk size to [i]; otherwise it leaves the loop.
    - The caller in [wg.Wait]: when no unit is active it returns (lines
      117-122).
    - A unit: the closure of lines 77-114 on the array as it is now; its
      error is kept if it is the first, a panic ends the program. *)
Definition step (b : BalanceBatcher) (addresses : list Address)
    (opts : option CallOpts) (m : mover) (s : gstate) : option config :=
  let count := Z.of_nat (length addresses) in
  match m with
  | Caller =>
      match pc s with
      | AtLoop i =>
          if i <? count then
            let max := int_wrap (i + BalanceBatchSize b) in
            let max := if max >? count then count else max in
            if slot_free (ThreadLimit b) (active s) then
              Some (Running {| pc := AtLoop (int_wrap (i + BalanceBatchSize b));
                               active := active s ++ [(i, max)];
                               cells := cells s;
                               held := held s |})
            else None
          else
            Some (Running {| pc := AtWait; active := active s;
                             cells := cells s; held := held s |})
      | AtWait =>
          match active s with
          | [] =>
              Some (Finished
                      match held s with
                      | Some err =>
                          (None, Some (Wrapf "error getting balances: %w" [] err))
                      | None => (Some (cells s), None)
                      end)
          | _ :: _ => None
          end
      end
  | Unit k =>
      match active s !! k with
      | None => None
      | Some u =>
          match chunk_unit b addresses opts u (cells s) with
          | (Panicked, _) => Some Crashed
          | (Returned e, cells') =>
              Some (Running {| pc := pc s;
                               active := delete k (active s);
                               cells := cells';
                               held := match held s with
                                       | Some _ => held s
                                       | None => e
                                       end |})
          end
      end
  end.

(** Lines 64-67: the state in which the loop is entered. *)
Definition start (addresses : list Address) : gstate :=
  {| pc := AtLoop 0;
     active := [];
     cells := replicate (length addresses) None;
     held := None |}.

(** The moves of a script, one after the other; [None] when one of them
    cannot be made. *)
Fixpoint run (b : BalanceBatcher) (addresses : list Address)
    (opts : option CallOpts) (script : list mover) (c : config) : option config :=
  match script with
  | [] => Some c
  | m :: rest =>
      match c with
      | Running s =>
          match step b addresses opts m s with
          | Some c' => run b addresses opts rest c'
          | None => None
          end
      | _ => None
      end
  end.

(** The loop has been left: the caller is in [wg.Wait] or has returned. *)
Definition left_loop (c : config) : bool :=
  match c with
  | Running s =>
      match pc s with
      | AtWait => true
      | AtLoop _ => false
      end
  | Finished _ => true
  | Crashed => false
  end.

(** Some move is possible. *)
Definition can_move (b : BalanceBatcher) (addresses : list Address)
    (opts : option CallOpts) (s : gstate) : Prop :=
  exists m c, step b addresses opts m s = Some c.

End BalanceSteps.

(** ** The multicaller, first revision

    The first revision of the multicaller source (lines 1-142) encodes a
    call when it is added, keeps the parsed ABI in the struct and has no
    fast path for the empty queue.  The ABI record, the events and the ends
    of the per-descriptor loop are those of the later revision. *)

Module MultiCallerV1.

(** [type Call struct]: no encode closure, the call data is stored. *)
Record Call : Type :=
  { Target : Address;
    Method : string;
    CallData : bytes;
    UnpackFunc : bytes -> option error }.

Record MultiCaller : Type :=
  { client : IContractCaller;
    contractAddress : Address;
    abi : MultiCaller.ABI;
    calls : list Call }.

Record run : Type :=
  { ret : outcome (option (list bool) * option error);
    after : MultiCaller;
    trace : list MultiCaller.event }.

Definition set_calls (mc : MultiCaller) (cs : list Call) : MultiCaller :=
  {| client := client mc; contractAddress := contractAddress mc;
     abi := abi mc; calls := cs |}.

(** [NewMultiCaller], lines 61-76; [parsedAbi] is the cached [multicallAbi]. *)
Definition NewMultiCaller (parsedAbi : MultiCaller.ABI) (cl : IContractCaller)
    (multicallerAddress : Address) : MultiCaller :=
  {| client := cl; contractAddress := multicallerAddress;
     abi := parsedAbi; calls := [] |}.

(** [AddCall], lines 79-94: [pack] stands for [abi.Pack(method, args...)] and
    [unpack] for [abi.UnpackIntoInterface(output, method, rawData)].  The
    result is the multicaller afterwards and the error returned. *)
Definition AddCall (contractAddr : Address) (pack : unit -> result bytes)
    (unpack : bytes -> option error) (method : string) (mc : MultiCaller)
  : MultiCaller * option error :=
  match pack tt with
  | Err err =>
      (mc, Some (Wrapf "error adding call [%s]: %w" [ArgStr method] err))
  | Ok callData =>
      let call :=
        {| Target := contractAddr; Method := method; CallData := callData;
           UnpackFunc := unpack |} in
      (set_calls mc (calls mc ++ [call]), None)
  end.

(** Lines 127-137: [for i, c := range mc.calls], from position [i] on. *)
Fixpoint unpack_loop (i : nat) (cs : list Call)
    (results : list MultiCaller.CallResponse)
  : MultiCaller.unpack_end * list MultiCaller.event :=
  match cs with
  | [] => (MultiCaller.UnpackDone [], [])
  | c :: rest =>
      match results !! i with
      | None => (MultiCaller.UnpackOutOfRange, [])
      | Some r =>
          let callSuccess := MultiCaller.Status r in
          if callSuccess then
            match UnpackFunc c (MultiCaller.ReturnData r) with
            | Some err =>
                (MultiCaller.UnpackFailed
                   (Wrapf "error unpacking response for contract %s, method %s: %w"
                      [ArgAddr (Target c); ArgStr (Method c)] err),
                 [MultiCaller.EvUnpack i (MultiCaller.ReturnData r)])
            | None =>
                let '(r', tr) := unpack_loop (S i) rest results in
                (MultiCaller.unpack_cons callSuccess r',
                 MultiCaller.EvUnpack i (MultiCaller.ReturnData r) :: tr)
            end
          else
            let '(r', tr) := unpack_loop (S i) rest results in
            (MultiCaller.unpack_cons callSuccess r', tr)
      end
  end.

(** [FlexibleCall], lines 100-142. *)
Definition FlexibleCall (requireSuccess : bool) (opts : option CallOpts)
    (mc : MultiCaller) : run :=
  match MultiCaller.Pack_tryAggregate (abi mc) requireSuccess
          (map (fun c => (Target c, CallData c)) (calls mc)) with
  | Err err =>
      {| ret := Returned (None, Some (Wrapf "error packing aggregated call data: %w" [] err));
         after := mc; trace := [] |}
  | Ok callData =>
      let blockNumber := blockNumber_of opts in
      let msg := {| To := Some (contractAddress mc); Data := callData |} in
      let tr2 := [MultiCaller.EvCallContract msg blockNumber] in
      match CallContract (client mc) msg blockNumber with
      | Err err =>
          {| ret := Returned (None, Some (Wrapf "error calling multicall contract: %w" [] err));
             after := mc; trace := tr2 |}
      | Ok resp =>
          match MultiCaller.Unpack_tryAggregate (abi mc) resp with
          | Err err =>
              {| ret := Returned (None, Some (Wrapf "error unpacking aggregated response data: %w" [] err));
                 after := mc; trace := tr2 |}
          | Ok results =>
              match unpack_loop 0 (calls mc) results with
              | (MultiCaller.UnpackOutOfRange, tr3) =>
                  {| ret := Panicked; after := mc; trace := tr2 ++ tr3 |}
              | (MultiCaller.UnpackFailed err, tr3) =>
                  {| ret := Returned (None, Some err);
                     after := set_calls mc []; trace := tr2 ++ tr3 |}
              | (MultiCaller.UnpackDone res, tr3) =>
                  {| ret := Returned (Some res, None);
                     after := set_calls mc []; trace := tr2 ++ tr3 |}
              end
          end
      end
  end.

End MultiCallerV1.

(** ** Derived notions used to state the properties *)

Module MultiCallerSpec.
Import MultiCaller.

(** The (target, call bytes) pairs of a queue whose encode steps all
    succeed; [None] when one of them fails. *)
Fixpoint encoded (cs : list Call) : option (list (Address * bytes)) :=
  match cs with
  | [] => Some []
  | c :: rest =>
      match PackFunc c tt with
      | Err _ => None
      | Ok callData =>
          match encoded rest with
          | Some l => Some ((Target c, callData) :: l)
          | None => None
          end
      end
  end.

(** Two descriptors that differ at most in their [CallData] field. *)
Definition same_descriptor (c c' : Call) : Prop :=
  Target c' = Target c /\ Method c' = Method c /\
  PackFunc c' = PackFunc c /\ UnpackFunc c' = UnpackFunc c.

(** The success flag the response holds for position [k]. *)
Definition flag_at (results : list CallResponse) (k : nat) : bool :=
  match results !! k with
  | Some r => Status r
  | None => false
  end.

(** The decode step of every successful entry in range goes through. *)
Definition decodes_ok (cs : list Call) (results : list CallResponse) : Prop :=
  forall k c r, cs !! k = Some c -> results !! k = Some r ->
    Status r = true -> UnpackFunc c (ReturnData r) = None.

End MultiCallerSpec.

Module BalanceBatcherSpec.
Import BalanceBatcher.
Local Open Scope Z_scope.

(** The units of a terminating run in closed form: [n] chunks of [size]
    addresses from offset [i], the last one cut at [count]. *)
Fixpoint chunks (n : nat) (count size i : Z) : list unit_bounds :=
  match n with
  | O => []
  | S n' => (i, Z.min (i + size) count) :: chunks n' count size (i + size)
  end.

(** [ceil((count - i) / size)], the number of chunks left from offset [i]. *)
Definition chunk_count (count size i : Z) : nat :=
  Z.to_nat ((count - i + size - 1) / size).

(** What one chunk decodes to when its query goes through: encode,
    dispatch, decode. *)
Definition decoded (b : BalanceBatcher) (opts : option CallOpts)
    (subAddresses : list Address) : option (list (option Z)) :=
  match Pack_balances (abi b) subAddresses [0%N] with
  | Err _ => None
  | Ok callData =>
      match CallContract (client b)
              {| To := Some (contractAddress b); Data := callData |}
              (blockNumber_of opts) with
      | Err _ => None
      | Ok response =>
          match Unpack_balances (abi b) response with
          | Err _ => None
          | Ok subBalances => Some subBalances
          end
      end
  end.

(** The error a unit returns, [None] for [nil]; it does not depend on what
    the shared array holds. *)
Definition unit_error (b : BalanceBatcher) (addresses : list Address)
    (opts : option CallOpts) (u : unit_bounds) : option error :=
  match fst (chunk_unit b addresses opts u
               (replicate (length addresses) (@None Z))) with
  | Returned e => e
  | Panicked => None
  end.

(** The first error in finishing order. *)
Definition first_error (b : BalanceBatcher) (addresses : list Address)
    (opts : option CallOpts) (order : list unit_bounds) : option error :=
  head (omap (unit_error b addresses opts) order).

(** The error classes of a chunk unit, told apart by the format of the
    message. *)
Definition is_encode_error (e : error) : bool :=
  match e with
  | Wrapf f _ _ => String.eqb f "error creating calldata for balances: %w"
  | _ => false
  end.

Definition is_dispatch_error (e : error) : bool :=
  match e with
  | Wrapf f _ _ => String.eqb f "error calling balances: %w"
  | _ => false
  end.

Definition is_decode_error (e : error) : bool :=
  match e with
  | Wrapf f _ _ => String.eqb f "error unpacking balances response: %w"
  | _ => false
  end.

(** Units whose bounds lie inside the address list. *)
Definition in_bounds (addresses : list Address) (order : list unit_bounds) : Prop :=
  forall lo hi, In (lo, hi) order ->
    0 <= lo <= hi /\ hi <= Z.of_nat (length addresses).

End BalanceBatcherSpec.

(** ** Further notions: enqueueing and traces *)

Module MultiCallerNotions.
Import MultiCaller.

(** The arguments of one [AddCall]. *)
Record request : Type :=
  { req_target : Address;
    req_pack : unit -> result bytes;
    req_unpack : bytes -> option error;
    req_method : string }.

Definition enqueue (mc : MultiCaller) (r : request) : MultiCaller :=
  AddCall (req_target r) (req_pack r) (req_unpack r) (req_method r) mc.

(** [AddCall] once per request, in list order. *)
Definition enqueue_all (reqs : list request) (mc : MultiCaller) : MultiCaller :=
  fold_left enqueue reqs mc.

Definition is_unpack (e : event) : bool :=
  match e with
  | EvUnpack _ _ => true
  | _ => false
  end.

End MultiCallerNotions.

Module BalanceBatcherNotions.
Import BalanceBatcher BalanceBatcherSpec.

(** The two integrity errors of a chunk unit, by the format of the message. *)
Definition is_mismatch_error (e : error) : bool :=
  match e with
  | Errorf f _ =>
      String.eqb f "received %d balances which mismatches query batch size %d"
  | _ => false
  end.

Definition is_nil_balance_error (e : error) : bool :=
  match e with
  | Errorf f _ => String.eqb f "received nil balance for address %s"
  | _ => false
  end.

(** The five errors a chunk unit can return. *)
Definition unit_error_kind (e : error) : bool :=
  is_encode_error e || is_dispatch_error e || is_decode_error e ||
  is_mismatch_error e || is_nil_balance_error e.

(** The chunks that the units of [units] query, when every slice expression
    is in range. *)
Fixpoint slices (addresses : list Address) (units : list unit_bounds)
  : option (list (list Address)) :=
  match units with
  | [] => Some []
  | (lo, hi) :: rest =>
      match slice addresses lo hi, slices addresses rest with
      | Some sub, Some subs => Some (sub :: subs)
      | _, _ => None
      end
  end.

End BalanceBatcherNotions.

Module RevisionNotions.

(** A descriptor of the first revision that stores the bytes the encode
    step of a descriptor of the later revision returns, with the same
    target, method and decode step. *)
Definition encodes_to (c2 : MultiCaller.Call) (c1 : MultiCallerV1.Call) : Prop :=
  MultiCallerV1.Target c1 = MultiCaller.Target c2 /\
  MultiCallerV1.Method c1 = MultiCaller.Method c2 /\
  MultiCallerV1.UnpackFunc c1 = MultiCaller.UnpackFunc c2 /\
  MultiCaller.PackFunc c2 tt = Ok (MultiCallerV1.CallData c1).

(** Two multicallers, one of each revision, with the same client, the same
    multicall address and matching queues. *)
Definition same_queue (mc2 : MultiCaller.MultiCaller)
    (mc1 : MultiCallerV1.MultiCaller) : Prop :=
  MultiCallerV1.client mc1 = MultiCaller.client mc2 /\
  MultiCallerV1.contractAddress mc1 = MultiCaller.contractAddress mc2 /\
  Forall2 encodes_to (MultiCaller.calls mc2) (MultiCallerV1.calls mc1).

(** A trace without its encode events. *)
Definition without_packs (tr : list MultiCaller.event) : list MultiCaller.event :=
  List.filter (fun e => match e with MultiCaller.EvPack _ => false | _ => true end) tr.

End RevisionNotions.

Module BalanceStepsNotions.
Import BalanceBatcher BalanceBatcherSpec BalanceSteps.
Local Open Scope Z_scope.

(** An upper bound on the moves that are left: two per chunk still to be
    started (its start and its end), one per active unit, one for leaving
    the loop and one for returning. *)
Definition moves_left (count size : Z) (c : config) : nat :=
  match c with
  | Running s =>
      match pc s with
      | AtLoop i => 2 * chunk_count count size i + length (active s) + 2
      | AtWait => length (active s) + 1
      end
  | _ => 0
  end.

(** What every state of a run with a positive chunk size satisfies: the
    array has one cell per address, the active units lie inside the list,
    and the loop index is 0 or at least the chunk size. *)
Definition sound (b : BalanceBatcher) (addresses : list Address) (s : gstate) : Prop :=
  length (cells s) = length addresses /\
  in_bounds addresses (active s) /\
  match pc s with
  | AtLoop i => 0 <= i <= int_max /\ (i = 0 \/ BalanceBatchSize b <= i)
  | AtWait => True
  end.

(** A unit that panics whatever the array holds. *)
Definition panics (b : BalanceBatcher) (addresses : list Address)
    (opts : option CallOpts) (u : unit_bounds) : Prop :=
  forall cells0, chunk_unit b addresses opts u cells0 = (Panicked, cells0).

(** What every state of a run with a negative chunk size satisfies: every
    active unit panics, and once the loop has moved some unit is active. *)
Definition doomed (b : BalanceBatcher) (addresses : list Address)
    (opts : option CallOpts) (s : gstate) : Prop :=
  (forall u, In u (active s) -> panics b addresses opts u) /\
  match pc s with
  | AtLoop i => int_min <= i <= int_max /\ (active s = [] -> i = 0)
  | AtWait => active s <> []
  end.

(** The chunks the loop has still to start. *)
Definition remaining (count size : Z) (p : point) : list unit_bounds :=
  match p with
  | AtLoop i => chunks (chunk_count count size i) count size i
  | AtWait => []
  end.

(** A state of a run with a positive chunk size is what [run_units] makes
    of the units that have finished, taken in the order in which they
    finished: they, the active units and the chunks still to be started
    are the chunks of the list, and the array and the error held are those
    [run_units] leaves. *)
Definition traced (b : BalanceBatcher) (addresses : list Address)
    (opts : option CallOpts) (s : gstate) : Prop :=
  let count := Z.of_nat (length addresses) in
  let size := BalanceBatchSize b in
  exists done,
    Permutation (done ++ active s ++ remaining count size (pc s))
      (chunks (chunk_count count size 0) count size 0) /\
    run_units b addresses opts done (replicate (length addresses) None) None =
      (Returned (held s), cells s).

End BalanceStepsNotions.

(** ** Concrete scenarios *)

Module Scenario.
Import MultiCaller.

Definition echoClient : IContractCaller :=
  {| CallContract := fun msg _ => Ok (Data msg) |}.

Definition downClient : IContractCaller :=
  {| CallContract := fun _ _ => Err (CapabilityError "connection refused") |}.

(** A codec stub whose aggregate response decodes to [results]. *)
Definition stubAbi (results : list CallResponse) : ABI :=
  {| Pack_tryAggregate := fun _ cs => Ok (concat (map snd cs));
     Unpack_tryAggregate := fun _ => Ok results |}.

Definition noPackAbi : ABI :=
  {| Pack_tryAggregate := fun _ _ => Err (CapabilityError "abi: cannot pack");
     Unpack_tryAggregate := fun _ => Ok [] |}.

Definition noUnpackAbi : ABI :=
  {| Pack_tryAggregate := fun _ cs => Ok (concat (map snd cs));
     Unpack_tryAggregate := fun _ => Err (CapabilityError "abi: cannot unmarshal") |}.

Definition goodCall (target : Address) (method : string) : Call :=
  {| Target := target; CallData := []; Method := method;
     PackFunc := fun _ => Ok [Byte.x01];
     UnpackFunc := fun _ => None |}.

Definition unencodableCall (target : Address) (method : string) : Call :=
  {| Target := target; CallData := []; Method := method;
     PackFunc := fun _ => Err (CapabilityError "abi: bad argument");
     UnpackFunc := fun _ => None |}.

Definition undecodableCall (target : Address) (method : string) : Call :=
  {| Target := target; CallData := []; Method := method;
     PackFunc := fun _ => Ok [Byte.x02];
     UnpackFunc := fun _ => Some (CapabilityError "abi: bad output") |}.

Definition queue (cl : IContractCaller) (cs : list Call) : MultiCaller :=
  {| client := cl; contractAddress := 9%N; calls := cs |}.

Definition yes : CallResponse := {| Status := true; ReturnData := [Byte.x2a] |}.
Definition no : CallResponse := {| Status := false; ReturnData := [] |}.

(** Three descriptors; the aggregate reports that the second one failed. *)
Definition three : MultiCaller :=
  queue echoClient [goodCall 1%N "a"; goodCall 2%N "b"; goodCall 3%N "c"].

End Scenario.

Module BalanceScenario.
Import BalanceBatcher.
Local Open Scope Z_scope.

Definition byte_of (a : Address) : Byte.byte :=
  match Byte.of_N a with
  | Some x => x
  | None => Byte.x00
  end.

(** A contract that answers the balance [100 + a] for the address [a]. *)
Definition ledgerAbi : ABI :=
  {| Pack_balances := fun users _ => Ok (map byte_of users);
     Unpack_balances := fun data =>
       Ok (map (fun x => Some (100 + Z.of_N (Byte.to_N x))) data) |}.

(** The same, but the balance of address 14 decodes to nil. *)
Definition holeAbi : ABI :=
  {| Pack_balances := fun users _ => Ok (map byte_of users);
     Unpack_balances := fun data =>
       Ok (map (fun x => if Byte.eqb x Byte.x0e then None
                         else Some (100 + Z.of_N (Byte.to_N x))) data) |}.

(** The same, but one balance too many comes back. *)
Definition longAbi : ABI :=
  {| Pack_balances := fun users _ => Ok (map byte_of users);
     Unpack_balances := fun data =>
       Ok (Some 0 :: map (fun x => Some (100 + Z.of_N (Byte.to_N x))) data) |}.

(** A client that times out on every query that mentions address 12. *)
Definition flakyClient : IContractCaller :=
  {| CallContract := fun msg _ =>
       if existsb (Byte.eqb Byte.x0c) (Data msg)
       then Err (CapabilityError "timeout")
       else Ok (Data msg) |}.

Definition five : list Address := [10%N; 11%N; 12%N; 13%N; 14%N].

Definition batcher (parsedAbi : ABI) (cl : IContractCaller) (size limit : Z)
  : BalanceBatcher :=
  NewBalanceBatcher parsedAbi cl 7%N size limit.

(** Two schedulers: units finish in spawn order, or in the reverse order. *)
Definition in_order (units : list unit_bounds) : list unit_bounds := units.
Definition reversed (units : list unit_bounds) : list unit_bounds := rev units.

End BalanceScenario.

Module BalanceScenarioMore.
Import BalanceBatcher.
Local Open Scope Z_scope.

(** The balance the contract of [BalanceScenario.ledgerAbi] answers. *)
Definition ledger_balance (a : Address) : Z :=
  100 + Z.of_N (Byte.to_N (BalanceScenario.byte_of a)).

End BalanceScenarioMore.

Module RevisionScenario.

Definition storedCall (target : Address) (method : string) : MultiCallerV1.Call :=
  {| MultiCallerV1.Target := target;
     MultiCallerV1.Method := method;
     MultiCallerV1.CallData := [Byte.x01];
     MultiCallerV1.UnpackFunc := fun _ => None |}.

(** The queue of [Scenario.three] as the first revision holds it. *)
Definition three (parsedAbi : MultiCaller.ABI) : MultiCallerV1.MultiCaller :=
  {| MultiCallerV1.client := Scenario.echoClient;
     MultiCallerV1.contractAddress := 9%N;
     MultiCallerV1.abi := parsedAbi;
     MultiCallerV1.calls := [storedCall 1%N "a"; storedCall 2%N "b"; storedCall 3%N "c"] |}.

End RevisionScenario.

(** * Properties of the multicaller *)

Section MultiCallerProperties.
Import MultiCaller MultiCallerSpec.

Lemma pack_loop_encoded cs : forall i l,
  encoded cs = Some l ->
  exists cs',
    pack_loop i cs = (cs', map EvPack (seq i (length cs)), None) /\
    map (fun c => (Target c, CallData c)) cs' = l /\
    Forall2 same_descriptor cs cs'.
Proof.
  induction cs as [|c rest IH]; intros i l H; simpl in *.
  - injection H as <-. exists []. repeat split; constructor.
  - destruct (PackFunc c tt) as [d|e] eqn:Hp; [|discriminate].
    destruct (encoded rest) as [l'|] eqn:He; [|discriminate].
    injection H as <-.
    destruct (IH (S i) l' eq_refl) as (cs' & -> & Hm & HF).
    exists (set_CallData c d :: cs'). simpl. rewrite Hm.
    repeat split. constructor; [|exact HF]. repeat split.
Qed.

Lemma pack_loop_first_error cs : forall i,
  encoded cs = None ->
  exists cs' tr j c err,
    pack_loop i cs = (cs', tr, Some err) /\
    cs !! j = Some c /\ PackFunc c tt = Err err /\
    (forall k c', k < j -> cs !! k = Some c' -> exists d, PackFunc c' tt = Ok d) /\
    transport_calls tr = [] /\ length cs' = length cs.
Proof.
  induction cs as [|c rest IH]; intros i H; simpl in *; [discriminate|].
  destruct (PackFunc c tt) as [d|e] eqn:Hp.
  - destruct (encoded rest) eqn:He; [discriminate|].
    destruct (IH (S i) eq_refl) as (cs' & tr & j & c0 & err & -> & Hj & Hf & Hb & Ht & Hl).
    exists (set_CallData c d :: cs'), (EvPack i :: tr), (S j), c0, err.
    repeat split; simpl; auto.
    intros [|k] c' Hk Hc'; simpl in Hc'.
    + injection Hc' as <-. eauto.
    + apply (Hb k c'); [lia|exact Hc'].
  - exists (c :: rest), [EvPack i], 0, c, e.
    repeat split; simpl; auto. intros k c' Hk. lia.
Qed.

Lemma encoded_None cs i c err :
  cs !! i = Some c -> PackFunc c tt = Err err -> encoded cs = None.
Proof.
  revert i. induction cs as [|c0 rest IH]; intros [|i] H Hp; simpl in *;
    try discriminate.
  - injection H as ->. now rewrite Hp.
  - destruct (PackFunc c0 tt); [|reflexivity]. now rewrite (IH i H Hp).
Qed.

Lemma transport_calls_app tr1 tr2 :
  transport_calls (tr1 ++ tr2) = transport_calls tr1 ++ transport_calls tr2.
Proof. unfold transport_calls. apply List.filter_app. Qed.

Lemma transport_calls_packs i n : transport_calls (map EvPack (seq i n)) = [].
Proof. revert i. induction n; intros i; simpl; auto. Qed.

Lemma unpack_loop_no_transport cs : forall i results,
  transport_calls (unpack_loop i cs results).2 = [].
Proof.
  induction cs as [|c rest IH]; intros i results; simpl; auto.
  destruct (results !! i) as [r|]; simpl; auto.
  destruct (Status r).
  - destruct (UnpackFunc c (ReturnData r)); simpl; auto.
    specialize (IH (S i) results).
    destruct (unpack_loop (S i) rest results); simpl in *. exact IH.
  - specialize (IH (S i) results).
    destruct (unpack_loop (S i) rest results); simpl in *. exact IH.
Qed.

Lemma unpack_loop_same_descriptor cs cs' :
  Forall2 same_descriptor cs cs' ->
  forall i results, unpack_loop i cs' results = unpack_loop i cs results.
Proof.
  induction 1 as [|c c' cs cs' (Ht & Hm & _ & Hu) _ IH]; intros i results;
    simpl; auto.
  rewrite Ht, Hm, Hu, IH. reflexivity.
Qed.

Lemma unpacked_app tr1 tr2 : unpacked (tr1 ++ tr2) = unpacked tr1 ++ unpacked tr2.
Proof. unfold unpacked. apply omap_app. Qed.

Lemma unpacked_packs i n : unpacked (map EvPack (seq i n)) = [].
Proof. revert i. induction n; intros i; simpl; auto. Qed.

Lemma unpacked_cons_unpack i d tr : unpacked (EvUnpack i d :: tr) = i :: unpacked tr.
Proof. reflexivity. Qed.

Lemma unpack_loop_done cs : forall i results,
  i + length cs <= length results ->
  (forall k c r, cs !! k = Some c -> results !! (i + k) = Some r ->
     Status r = true -> UnpackFunc c (ReturnData r) = None) ->
  (unpack_loop i cs results).1 = UnpackDone (map (flag_at results) (seq i (length cs))) /\
  unpacked (unpack_loop i cs results).2 = List.filter (flag_at results) (seq i (length cs)).
Proof.
  induction cs as [|c rest IH]; intros i results Hlen Hok; simpl in *; auto.
  destruct (results !! i) as [r|] eqn:Hr.
  2:{ apply lookup_ge_None in Hr. lia. }
  assert (Hflag : flag_at results i = Status r) by (unfold flag_at; now rewrite Hr).
  destruct (IH (S i) results) as [H1 H2]; [lia| |].
  { intros k c' r' Hc Hr'. apply (Hok (S k) c' r'); [exact Hc|].
    now replace (i + S k) with (S i + k) by lia. }
  rewrite Hflag.
  destruct (Status r) eqn:Hs.
  - rewrite (Hok 0 c r eq_refl); [|now rewrite Nat.add_0_r|exact Hs].
    destruct (unpack_loop (S i) rest results) as [e tr]; cbn [fst snd] in *.
    rewrite H1, unpacked_cons_unpack, H2. auto.
  - destruct (unpack_loop (S i) rest results) as [e tr]; cbn [fst snd] in *.
    rewrite H1, H2. auto.
Qed.

Lemma unpack_loop_failed cs : forall i j results c r e,
  cs !! j = Some c -> results !! (i + j) = Some r ->
  Status r = true -> UnpackFunc c (ReturnData r) = Some e ->
  (forall k c', k < j -> cs !! k = Some c' ->
     exists r', results !! (i + k) = Some r' /\
       (Status r' = true -> UnpackFunc c' (ReturnData r') = None)) ->
  (unpack_loop i cs results).1 =
    UnpackFailed (Wrapf "error unpacking response for contract %s, method %s: %w"
                    [ArgAddr (Target c); ArgStr (Method c)] e) /\
  unpacked (unpack_loop i cs results).2 = List.filter (flag_at results) (seq i (S j)).
Proof.
  induction cs as [|c0 rest IH]; intros i j results c r e Hc Hr Hs He Hb;
    [discriminate|].
  destruct j as [|j]; simpl in Hc.
  - injection Hc as ->. rewrite Nat.add_0_r in Hr. simpl.
    unfold flag_at. rewrite Hr, Hs, He. simpl. auto.
  - destruct (Hb 0 c0) as (r0 & Hr0 & Hok0); [lia|reflexivity|].
    rewrite Nat.add_0_r in Hr0.
    destruct (IH (S i) j results c r e) as [H1 H2]; auto.
    { now replace (S i + j) with (i + S j) by lia. }
    { intros k c' Hk Hc'. replace (S i + k) with (i + S k) by lia.
      apply Hb; [lia|exact Hc']. }
    cbn [unpack_loop]. rewrite Hr0.
    assert (Hflag : flag_at results i = Status r0) by (unfold flag_at; now rewrite Hr0).
    change (seq i (S (S j))) with (i :: seq (S i) (S j)).
    cbn [List.filter]. rewrite Hflag.
    destruct (Status r0) eqn:Hs0.
    + rewrite (Hok0 eq_refl).
      destruct (unpack_loop (S i) rest results) as [x tr]; cbn [fst snd] in *.
      rewrite H1, unpacked_cons_unpack, H2. auto.
    + destruct (unpack_loop (S i) rest results) as [x tr]; cbn [fst snd] in *.
      rewrite H1, H2. auto.
Qed.

Lemma unpack_loop_in_range cs : forall i results,
  i + length cs <= length results ->
  (unpack_loop i cs results).1 <> UnpackOutOfRange.
Proof.
  induction cs as [|c rest IH]; intros i results Hlen; simpl in *; [discriminate|].
  destruct (results !! i) as [r|] eqn:Hr.
  2:{ apply lookup_ge_None in Hr. lia. }
  specialize (IH (S i) results ltac:(lia)).
  destruct (Status r).
  - destruct (UnpackFunc c (ReturnData r)); [discriminate|].
    destruct (unpack_loop (S i) rest results) as [[]]; simpl in *; congruence.
  - destruct (unpack_loop (S i) rest results) as [[]]; simpl in *; congruence.
Qed.

Lemma unpack_loop_short cs : forall i results,
  i <= length results -> length results < i + length cs ->
  (forall k c r, cs !! k = Some c -> results !! (i + k) = Some r ->
     Status r = true -> UnpackFunc c (ReturnData r) = None) ->
  (unpack_loop i cs results).1 = UnpackOutOfRange.
Proof.
  induction cs as [|c rest IH]; intros i results Hi Hlen Hok; simpl in *; [lia|].
  destruct (results !! i) as [r|] eqn:Hr; [|reflexivity].
  apply lookup_lt_Some in Hr as Hlt.
  assert (H1 : (unpack_loop (S i) rest results).1 = UnpackOutOfRange).
  { apply IH; [lia|lia|].
    intros k c' r' Hc Hr'. apply (Hok (S k) c' r'); [exact Hc|].
    now replace (i + S k) with (S i + k) by lia. }
  destruct (Status r) eqn:Hs.
  - rewrite (Hok 0 c r eq_refl); [|now rewrite Nat.add_0_r|exact Hs].
    destruct (unpack_loop (S i) rest results) as [x tr]; simpl in *. now rewrite H1.
  - destruct (unpack_loop (S i) rest results) as [x tr]; simpl in *. now rewrite H1.
Qed.

(** The path through [FlexibleCall] once the encode pass, the aggregate
    encode, the dispatch and the aggregate decode have gone through: what is
    left is the per-descriptor loop. *)
Lemma FlexibleCall_round_trip abi rs opts mc l callData resp results :
  calls mc <> [] ->
  encoded (calls mc) = Some l ->
  Pack_tryAggregate abi rs l = Ok callData ->
  CallContract (client mc) {| To := Some (contractAddress mc); Data := callData |}
    (blockNumber_of opts) = Ok resp ->
  Unpack_tryAggregate abi resp = Ok results ->
  exists calls1 tr2,
    length calls1 = length (calls mc) /\
    length (transport_calls tr2) = 1 /\
    unpacked tr2 = [] /\
    FlexibleCall abi rs opts mc =
      match unpack_loop 0 (calls mc) results with
      | (UnpackOutOfRange, tr3) =>
          {| ret := Panicked; after := set_calls mc calls1; trace := tr2 ++ tr3 |}
      | (UnpackFailed err, tr3) =>
          {| ret := Returned (None, Some err); after := set_calls mc [];
             trace := tr2 ++ tr3 |}
      | (UnpackDone res, tr3) =>
          {| ret := Returned (Some res, None); after := set_calls mc [];
             trace := tr2 ++ tr3 |}
      end.
Proof.
  intros Hne Henc Hpack Hcall Hunpack.
  destruct (pack_loop_encoded (calls mc) 0 l Henc) as (calls1 & Hpl & Hmap & HF).
  exists calls1, (map EvPack (seq 0 (length (calls mc))) ++
                   [EvCallContract {| To := Some (contractAddress mc); Data := callData |}
                      (blockNumber_of opts)]).
  split; [symmetry; eapply Forall2_length; exact HF|].
  split; [rewrite transport_calls_app, transport_calls_packs; reflexivity|].
  split.
  { rewrite unpacked_app, unpacked_packs. reflexivity. }
  unfold FlexibleCall.
  destruct (calls mc) as [|c0 rest] eqn:Hcs; [congruence|].
  cbn [length Nat.eqb]. rewrite Hpl. cbn [set_calls calls client contractAddress].
  rewrite Hmap, Hpack, Hcall, Hunpack.
  rewrite (unpack_loop_same_descriptor _ _ HF).
  destruct (unpack_loop 0 (c0 :: rest) results) as [[res|err|] tr3]; reflexivity.
Qed.

(** C3.  Executing a queue that holds no descriptor returns the empty flag
    list and no error, leaves the queue as it is and does nothing to the
    world: the trace is empty, so the client is never called. *)
Theorem FlexibleCall_empty_queue abi requireSuccess opts mc :
  calls mc = [] ->
  FlexibleCall abi requireSuccess opts mc =
    {| ret := Returned (Some [], None); after := mc; trace := [] |} /\
  transport_calls (trace (FlexibleCall abi requireSuccess opts mc)) = [].
Proof.
  intros H. unfold FlexibleCall. rewrite H. simpl. split; reflexivity.
Qed.

Lemma FlexibleCall_empty_queue_witness :
  FlexibleCall Scenario.noPackAbi true None (NewMultiCaller Scenario.downClient 9%N) =
    {| ret := Returned (Some [], None);
       after := NewMultiCaller Scenario.downClient 9%N; trace := [] |} /\
  transport_calls
    (trace (FlexibleCall Scenario.noPackAbi true None
              (NewMultiCaller Scenario.downClient 9%N))) = [].
Proof.
  apply (FlexibleCall_empty_queue Scenario.noPackAbi true None
           (NewMultiCaller Scenario.downClient 9%N)).
  reflexivity.
Defined.

(** C4.  When the encode pass, the aggregate round trip and the decode of
    every successful entry go through, and the response holds an entry for
    every descriptor, [FlexibleCall] returns the success flags of the
    response, one per descriptor and in queue order, and the decode steps
    that ran are exactly those of the positions whose flag is true, each
    once and in queue order. *)
Theorem FlexibleCall_flags_and_decodes abi requireSuccess opts mc l callData resp results :
  calls mc <> [] ->
  encoded (calls mc) = Some l ->
  Pack_tryAggregate abi requireSuccess l = Ok callData ->
  CallContract (client mc) {| To := Some (contractAddress mc); Data := callData |}
    (blockNumber_of opts) = Ok resp ->
  Unpack_tryAggregate abi resp = Ok results ->
  length (calls mc) <= length results ->
  decodes_ok (calls mc) results ->
  exists res,
    ret (FlexibleCall abi requireSuccess opts mc) = Returned (Some res, None) /\
    length res = length (calls mc) /\
    (forall i, i < length (calls mc) -> res !! i = Some (flag_at results i)) /\
    (forall i, i < length (calls mc) ->
       (In i (unpacked (trace (FlexibleCall abi requireSuccess opts mc))) <->
        res !! i = Some true)) /\
    unpacked (trace (FlexibleCall abi requireSuccess opts mc)) =
      List.filter (flag_at results) (seq 0 (length (calls mc))).
Proof.
  intros Hne Henc Hpack Hcall Hunpack Hlen Hok.
  destruct (FlexibleCall_round_trip _ _ _ _ _ _ _ _ Hne Henc Hpack Hcall Hunpack)
    as (calls1 & tr2 & _ & _ & Htr2 & ->).
  destruct (unpack_loop_done (calls mc) 0 results) as [H1 H2]; [lia|exact Hok|].
  destruct (unpack_loop 0 (calls mc) results) as [x tr3]; cbn [fst snd] in *.
  subst x. cbn [ret trace].
  assert (Hres : forall i, i < length (calls mc) ->
            map (flag_at results) (seq 0 (length (calls mc))) !! i
            = Some (flag_at results i)).
  { intros i Hi. rewrite list_lookup_fmap.
    change (seq 0 (length (calls mc)) !! i) with
      (List.seq 0 (length (calls mc)) !! i).
    rewrite lookup_seq_lt by exact Hi. reflexivity. }
  exists (map (flag_at results) (seq 0 (length (calls mc)))).
  split; [reflexivity|]. split; [now rewrite length_map, length_seq|].
  split; [exact Hres|].
  rewrite unpacked_app, Htr2, H2. split; [|reflexivity].
  intros i Hi. rewrite (Hres i Hi). cbn [app].
  rewrite List.filter_In, in_seq. split.
  - intros [_ ->]. reflexivity.
  - intros [= ->]. split; [lia|reflexivity].
Qed.

Lemma FlexibleCall_flags_and_decodes_witness :
  ret (FlexibleCall (Scenario.stubAbi [Scenario.yes; Scenario.no; Scenario.yes])
         false None Scenario.three) = Returned (Some [true; false; true], None) /\
  unpacked (trace (FlexibleCall (Scenario.stubAbi [Scenario.yes; Scenario.no; Scenario.yes])
                     false None Scenario.three)) = [0; 2].
Proof.
  destruct (FlexibleCall_flags_and_decodes
              (Scenario.stubAbi [Scenario.yes; Scenario.no; Scenario.yes])
              false None Scenario.three
              [(1%N, [Byte.x01]); (2%N, [Byte.x01]); (3%N, [Byte.x01])]
              [Byte.x01; Byte.x01; Byte.x01] [Byte.x01; Byte.x01; Byte.x01]
              [Scenario.yes; Scenario.no; Scenario.yes])
    as (res & Hret & Hlen & Hflags & _ & Htrace).
  - discriminate.
  - reflexivity.
  - reflexivity.
  - reflexivity.
  - reflexivity.
  - simpl. lia.
  - intros [|[|[|k]]] c r Hc Hr Hs; simpl in Hc; try discriminate;
      injection Hc as <-; reflexivity.
  - split; [|exact Htrace].
    rewrite Hret. do 2 f_equal. f_equal.
    destruct res as [|b0 [|b1 [|b2 [|b3 res]]]]; try discriminate Hlen.
    pose proof (Hflags 0 ltac:(simpl; lia)) as H0.
    pose proof (Hflags 1 ltac:(simpl; lia)) as H1.
    pose proof (Hflags 2 ltac:(simpl; lia)) as H2.
    vm_compute in H0, H1, H2. congruence.
Defined.

(** C6.  When the round trip and the aggregate decode go through and the
    decode step of a successful descriptor fails, position [i] being the
    first where that happens, [FlexibleCall] returns no result and an error
    that carries the target and the method of descriptor [i] around the
    decode error; no decode step of a later position has run; and the queue
    is empty afterwards. *)
Theorem FlexibleCall_decode_failure abi requireSuccess opts mc l callData resp results i c r e :
  encoded (calls mc) = Some l ->
  Pack_tryAggregate abi requireSuccess l = Ok callData ->
  CallContract (client mc) {| To := Some (contractAddress mc); Data := callData |}
    (blockNumber_of opts) = Ok resp ->
  Unpack_tryAggregate abi resp = Ok results ->
  calls mc !! i = Some c ->
  results !! i = Some r ->
  Status r = true ->
  UnpackFunc c (ReturnData r) = Some e ->
  (forall k c' r', k < i -> calls mc !! k = Some c' -> results !! k = Some r' ->
     Status r' = true -> UnpackFunc c' (ReturnData r') = None) ->
  ret (FlexibleCall abi requireSuccess opts mc) =
    Returned (None,
      Some (Wrapf "error unpacking response for contract %s, method %s: %w"
              [ArgAddr (Target c); ArgStr (Method c)] e)) /\
  (forall k, In k (unpacked (trace (FlexibleCall abi requireSuccess opts mc))) -> k <= i) /\
  calls (after (FlexibleCall abi requireSuccess opts mc)) = [].
Proof.
  intros Henc Hpack Hcall Hunpack Hc Hr Hs He Hbefore.
  assert (Hne : calls mc <> []) by (intros E; rewrite E in Hc; discriminate).
  destruct (FlexibleCall_round_trip _ _ _ _ _ _ _ _ Hne Henc Hpack Hcall Hunpack)
    as (calls1 & tr2 & _ & _ & Htr2 & ->).
  destruct (unpack_loop_failed (calls mc) 0 i results c r e) as [H1 H2]; auto.
  { intros k c' Hk Hc'.
    destruct (lookup_lt_is_Some_2 results k) as [r' Hr'].
    { apply lookup_lt_Some in Hr. lia. }
    exists r'. split; [exact Hr'|]. intros Hs'. exact (Hbefore k c' r' Hk Hc' Hr' Hs'). }
  destruct (unpack_loop 0 (calls mc) results) as [x tr3]; cbn [fst snd] in *.
  subst x. cbn [ret trace after calls set_calls].
  split; [reflexivity|]. split; [|reflexivity].
  intros k. rewrite unpacked_app, Htr2, H2. cbn [app].
  rewrite List.filter_In, in_seq. lia.
Qed.

Lemma FlexibleCall_decode_failure_witness :
  let mc := Scenario.queue Scenario.echoClient
              [Scenario.goodCall 1%N "a"; Scenario.undecodableCall 2%N "b";
               Scenario.goodCall 3%N "c"] in
  let abi := Scenario.stubAbi [Scenario.yes; Scenario.yes; Scenario.yes] in
  ret (FlexibleCall abi false None mc) =
    Returned (None,
      Some (Wrapf "error unpacking response for contract %s, method %s: %w"
              [ArgAddr 2%N; ArgStr "b"] (CapabilityError "abi: bad output"))) /\
  (forall k, In k (unpacked (trace (FlexibleCall abi false None mc))) -> k <= 1) /\
  calls (after (FlexibleCall abi false None mc)) = [].
Proof.
  intros mc abi.
  apply (FlexibleCall_decode_failure abi false None mc
           [(1%N, [Byte.x01]); (2%N, [Byte.x02]); (3%N, [Byte.x01])]
           [Byte.x01; Byte.x02; Byte.x01] [Byte.x01; Byte.x02; Byte.x01]
           [Scenario.yes; Scenario.yes; Scenario.yes]
           1 (Scenario.undecodableCall 2%N "b") Scenario.yes
           (CapabilityError "abi: bad output")); try reflexivity.
  intros [|k] c' r' Hk Hc' Hr' Hs'; [|lia].
  simpl in Hc'. injection Hc' as <-. reflexivity.
Defined.

(** C7.  When the encode step of some descriptor fails, [FlexibleCall]
    returns no result and the error of the first encode step that fails, as
    that step made it, and the client has not been called. *)
Theorem FlexibleCall_encode_failure abi requireSuccess opts mc i c err :
  calls mc !! i = Some c ->
  PackFunc c tt = Err err ->
  transport_calls (trace (FlexibleCall abi requireSuccess opts mc)) = [] /\
  exists j c' err',
    j <= i /\ calls mc !! j = Some c' /\ PackFunc c' tt = Err err' /\
    (forall k c'', k < j -> calls mc !! k = Some c'' -> exists d, PackFunc c'' tt = Ok d) /\
    ret (FlexibleCall abi requireSuccess opts mc) = Returned (None, Some err').
Proof.
  intros Hc Hp.
  pose proof (encoded_None _ _ _ _ Hc Hp) as Henc.
  destruct (pack_loop_first_error (calls mc) 0 Henc)
    as (cs' & tr & j & c' & err' & Hpl & Hj & Hf & Hb & Ht & _).
  unfold FlexibleCall.
  destruct (calls mc) as [|c0 rest] eqn:Hcs; [discriminate|].
  cbn [length Nat.eqb]. rewrite Hpl. cbn [trace ret].
  split; [exact Ht|].
  exists j, c', err'. repeat split; auto.
  destruct (Nat.le_gt_cases j i) as [Hle|Hgt]; [exact Hle|].
  destruct (Hb i c Hgt Hc) as [d Hd]. congruence.
Qed.

Lemma FlexibleCall_encode_failure_witness :
  let mc := Scenario.queue Scenario.echoClient
              [Scenario.goodCall 1%N "a"; Scenario.unencodableCall 2%N "b"] in
  transport_calls (trace (FlexibleCall (Scenario.stubAbi []) true None mc)) = [] /\
  exists j c' err',
    j <= 1 /\ calls mc !! j = Some c' /\ PackFunc c' tt = Err err' /\
    (forall k c'', k < j -> calls mc !! k = Some c'' -> exists d, PackFunc c'' tt = Ok d) /\
    ret (FlexibleCall (Scenario.stubAbi []) true None mc) = Returned (None, Some err').
Proof.
  intros mc.
  apply (FlexibleCall_encode_failure (Scenario.stubAbi []) true None mc 1
           (Scenario.unencodableCall 2%N "b") (CapabilityError "abi: bad argument"));
    reflexivity.
Defined.

(** C9.  [FlexibleCall] indexes the decoded response at every descriptor
    position and never compares its length with the queue's.  With at
    least one entry per descriptor no index expression leaves the range.
    With fewer entries, and the decode steps of the entries present going
    through, the loop reaches the first missing position and the call ends
    in a run-time panic, not in an error return. *)
Theorem FlexibleCall_response_length_unchecked
    abi requireSuccess opts mc l callData resp results :
  calls mc <> [] ->
  encoded (calls mc) = Some l ->
  Pack_tryAggregate abi requireSuccess l = Ok callData ->
  CallContract (client mc) {| To := Some (contractAddress mc); Data := callData |}
    (blockNumber_of opts) = Ok resp ->
  Unpack_tryAggregate abi resp = Ok results ->
  (length (calls mc) <= length results ->
     ret (FlexibleCall abi requireSuccess opts mc) <> Panicked) /\
  (length results < length (calls mc) -> decodes_ok (calls mc) results ->
     ret (FlexibleCall abi requireSuccess opts mc) = Panicked).
Proof.
  intros Hne Henc Hpack Hcall Hunpack.
  destruct (FlexibleCall_round_trip _ _ _ _ _ _ _ _ Hne Henc Hpack Hcall Hunpack)
    as (calls1 & tr2 & _ & _ & _ & ->).
  split.
  - intros Hlen.
    pose proof (unpack_loop_in_range (calls mc) 0 results ltac:(lia)) as H.
    destruct (unpack_loop 0 (calls mc) results) as [[res|err|] tr3];
      cbn [fst] in H; cbn [ret]; congruence.
  - intros Hlen Hok.
    pose proof (unpack_loop_short (calls mc) 0 results ltac:(lia) ltac:(lia) Hok) as H.
    destruct (unpack_loop 0 (calls mc) results) as [x tr3]; cbn [fst] in H.
    subst x. reflexivity.
Qed.

Lemma FlexibleCall_response_length_unchecked_witness :
  (3 <= 3 ->
   ret (FlexibleCall (Scenario.stubAbi [Scenario.yes; Scenario.no; Scenario.yes])
          false None Scenario.three) <> Panicked) /\
  ret (FlexibleCall (Scenario.stubAbi [Scenario.yes; Scenario.no])
         false None Scenario.three) = Panicked.
Proof.
  split.
  - apply (FlexibleCall_response_length_unchecked
             (Scenario.stubAbi [Scenario.yes; Scenario.no; Scenario.yes])
             false None Scenario.three
             [(1%N, [Byte.x01]); (2%N, [Byte.x01]); (3%N, [Byte.x01])]
             [Byte.x01; Byte.x01; Byte.x01] [Byte.x01; Byte.x01; Byte.x01]
             [Scenario.yes; Scenario.no; Scenario.yes]);
      (discriminate || reflexivity).
  - apply (FlexibleCall_response_length_unchecked
             (Scenario.stubAbi [Scenario.yes; Scenario.no])
             false None Scenario.three
             [(1%N, [Byte.x01]); (2%N, [Byte.x01]); (3%N, [Byte.x01])]
             [Byte.x01; Byte.x01; Byte.x01] [Byte.x01; Byte.x01; Byte.x01]
             [Scenario.yes; Scenario.no]); try (discriminate || reflexivity).
    + simpl. lia.
    + intros [|[|[|k]]] c r Hc Hr Hs; simpl in Hc, Hr; try discriminate;
        injection Hc as <-; reflexivity.
Defined.

(** With fewer entries than descriptors the call never returns a flag list:
    it panics, unless the decode step of an entry that is present fails
    first and its error is returned. *)
Lemma unpack_loop_short_never_done cs : forall i results res,
  i <= length results -> length results < i + length cs ->
  (unpack_loop i cs results).1 <> UnpackDone res.
Proof.
  induction cs as [|c rest IH]; intros i results res Hi Hlen; simpl in *; [lia|].
  destruct (results !! i) as [r|] eqn:Hr; [|discriminate].
  apply lookup_lt_Some in Hr as Hlt.
  destruct (Status r).
  - destruct (UnpackFunc c (ReturnData r)); [discriminate|].
    destruct (unpack_loop (S i) rest results) as [[res'|err|] tr] eqn:Hrec;
      cbn [fst unpack_cons]; try discriminate.
    exfalso. apply (IH (S i) results res'); [lia|lia|now rewrite Hrec].
  - destruct (unpack_loop (S i) rest results) as [[res'|err|] tr] eqn:Hrec;
      cbn [fst unpack_cons]; try discriminate.
    exfalso. apply (IH (S i) results res'); [lia|lia|now rewrite Hrec].
Qed.

Lemma FlexibleCall_short_response_no_flags abi rs opts mc l callData resp results res :
  calls mc <> [] ->
  encoded (calls mc) = Some l ->
  Pack_tryAggregate abi rs l = Ok callData ->
  CallContract (client mc) {| To := Some (contractAddress mc); Data := callData |}
    (blockNumber_of opts) = Ok resp ->
  Unpack_tryAggregate abi resp = Ok results ->
  length results < length (calls mc) ->
  ret (FlexibleCall abi rs opts mc) <> Returned (Some res, None).
Proof.
  intros Hne Henc Hpack Hcall Hunpack Hlen.
  destruct (FlexibleCall_round_trip _ _ _ _ _ _ _ _ Hne Henc Hpack Hcall Hunpack)
    as (calls1 & tr2 & _ & _ & _ & ->).
  pose proof (unpack_loop_short_never_done (calls mc) 0 results res
                ltac:(lia) ltac:(lia)) as H.
  destruct (unpack_loop 0 (calls mc) results) as [[res'|err|] tr3];
    cbn [fst] in H; cbn [ret]; congruence.
Qed.

(** The two returns that do reset the call list: the end of the function and
    the decode failure of a descriptor. *)
Lemma FlexibleCall_clears_after_round_trip abi rs opts mc l callData resp results :
  calls mc <> [] ->
  encoded (calls mc) = Some l ->
  Pack_tryAggregate abi rs l = Ok callData ->
  CallContract (client mc) {| To := Some (contractAddress mc); Data := callData |}
    (blockNumber_of opts) = Ok resp ->
  Unpack_tryAggregate abi resp = Ok results ->
  ret (FlexibleCall abi rs opts mc) <> Panicked ->
  calls (after (FlexibleCall abi rs opts mc)) = [].
Proof.
  intros Hne Henc Hpack Hcall Hunpack.
  destruct (FlexibleCall_round_trip _ _ _ _ _ _ _ _ Hne Henc Hpack Hcall Hunpack)
    as (calls1 & tr2 & _ & _ & _ & ->).
  destruct (unpack_loop 0 (calls mc) results) as [[res|err|] tr3];
    cbn [ret after calls set_calls]; congruence.
Qed.

(** The early returns keep the queue: an encode failure leaves as many
    descriptors as there were. *)
Lemma FlexibleCall_encode_failure_keeps_queue abi rs opts mc :
  encoded (calls mc) = None ->
  length (calls (after (FlexibleCall abi rs opts mc))) = length (calls mc).
Proof.
  intros Henc.
  destruct (pack_loop_first_error (calls mc) 0 Henc)
    as (cs' & tr & j & c' & err' & Hpl & _ & _ & _ & _ & Hlen).
  unfold FlexibleCall.
  destruct (calls mc) as [|c0 rest] eqn:Hcs; [discriminate Henc|].
  cbn [length Nat.eqb]. rewrite Hpl. cbn [after set_calls calls]. exact Hlen.
Qed.

(** C1, at four queues of one descriptor.  A [FlexibleCall] that stops at
    the encode pass, at the aggregate encode, at the dispatch or at the
    aggregate decode returns its error with the descriptor still queued;
    after the failed dispatch, executing again with nothing enqueued calls
    the client once more. *)
Theorem FlexibleCall_early_return_keeps_queue :
  let good := Scenario.goodCall 1%N "a" in
  let bad := Scenario.unencodableCall 1%N "a" in
  let r_encode :=
    FlexibleCall (Scenario.stubAbi [Scenario.yes]) false None
      (Scenario.queue Scenario.echoClient [bad]) in
  let r_pack :=
    FlexibleCall Scenario.noPackAbi false None
      (Scenario.queue Scenario.echoClient [good]) in
  let r_call :=
    FlexibleCall (Scenario.stubAbi [Scenario.yes]) false None
      (Scenario.queue Scenario.downClient [good]) in
  let r_unpack :=
    FlexibleCall Scenario.noUnpackAbi false None
      (Scenario.queue Scenario.echoClient [good]) in
  (ret r_encode = Returned (None, Some (CapabilityError "abi: bad argument")) /\
   length (calls (after r_encode)) = 1) /\
  (ret r_pack = Returned (None, Some (Wrapf "error packing aggregated call data: %w" []
                                        (CapabilityError "abi: cannot pack"))) /\
   length (calls (after r_pack)) = 1) /\
  (ret r_call = Returned (None, Some (Wrapf "error calling multicall contract: %w" []
                                        (CapabilityError "connection refused"))) /\
   length (calls (after r_call)) = 1 /\
   length (transport_calls
             (trace (FlexibleCall (Scenario.stubAbi [Scenario.yes]) false None
                       (after r_call)))) = 1 /\
   ret (FlexibleCall (Scenario.stubAbi [Scenario.yes]) false None (after r_call))
     <> Returned (Some [], None)) /\
  (ret r_unpack = Returned (None, Some (Wrapf "error unpacking aggregated response data: %w" []
                                          (CapabilityError "abi: cannot unmarshal"))) /\
   length (calls (after r_unpack)) = 1).
Proof.
  cbv zeta. repeat split; try reflexivity. vm_compute. discriminate.
Qed.

End MultiCallerProperties.

(** * Properties of the balance batcher *)

Section BalanceBatcherProperties.
Import BalanceBatcher BalanceBatcherSpec.
Local Open Scope Z_scope.

(** ** The chunking loop *)

Lemma int_wrap_small z : int_min <= z <= int_max -> int_wrap z = z.
Proof.
  unfold int_wrap, int_min, int_max. intros H. rewrite Z.mod_small; lia.
Qed.

Lemma chunk_count_done count size i :
  0 < size -> count <= i -> chunk_count count size i = 0%nat.
Proof.
  intros Hs Hi. unfold chunk_count.
  assert ((count - i + size - 1) / size < 1)
    by (apply Z.div_lt_upper_bound; lia).
  lia.
Qed.

Lemma chunk_count_step count size i :
  0 < size -> i < count ->
  chunk_count count size i = S (chunk_count count size (i + size)).
Proof.
  intros Hs Hi. unfold chunk_count.
  replace (count - i + size - 1) with (count - (i + size) + size - 1 + 1 * size) by lia.
  rewrite Z.div_add by lia.
  assert (0 <= (count - (i + size) + size - 1) / size)
    by (apply Z.div_pos; lia).
  lia.
Qed.

(** With a positive chunk size the loop leaves after at most [count - i]
    further iterations and has spawned the chunks of the closed form. *)
Lemma chunk_loop_chunks fuel : forall count size i,
  0 < size <= int_max -> 0 <= count -> 2 * count <= int_max ->
  0 <= i <= int_max -> (i = 0 \/ size <= i) ->
  Z.max 0 (count - i) < Z.of_nat fuel ->
  chunk_loop fuel count size i = Some (chunks (chunk_count count size i) count size i).
Proof.
  induction fuel as [|fuel IH]; intros count size i Hs Hc Hc2 Hi Hmul Hfuel.
  - lia.
  - cbn [chunk_loop]. destruct (i <? count) eqn:Hlt.
    + apply Z.ltb_lt in Hlt.
      assert (Hw : int_wrap (i + size) = i + size).
      { apply int_wrap_small. unfold int_min, int_max in *. lia. }
      rewrite Hw, IH by (unfold int_max in *; lia).
      rewrite (chunk_count_step count size i) by lia.
      cbn [chunks]. do 3 f_equal.
      destruct (i + size >? count) eqn:Hgt.
      * apply Z.gtb_lt in Hgt. lia.
      * rewrite Z.gtb_ltb in Hgt. apply Z.ltb_ge in Hgt. lia.
    + apply Z.ltb_ge in Hlt. now rewrite chunk_count_done by lia.
Qed.

Lemma chunks_length n : forall count size i, length (chunks n count size i) = n.
Proof. induction n; intros; simpl; auto. Qed.

Lemma chunks_lookup n : forall count size i k,
  (k < n)%nat ->
  chunks n count size i !! k =
    Some (i + Z.of_nat k * size, Z.min (i + (Z.of_nat k + 1) * size) count).
Proof.
  induction n as [|n IH]; intros count size i k Hk; [lia|].
  destruct k as [|k]; cbn [chunks lookup list_lookup].
  - do 2 f_equal; f_equal; lia.
  - rewrite IH by lia. do 2 f_equal; [|f_equal]; lia.
Qed.

Lemma chunks_elem n count size i lo hi :
  In (lo, hi) (chunks n count size i) ->
  exists k, (k < n)%nat /\ lo = i + Z.of_nat k * size /\
            hi = Z.min (i + (Z.of_nat k + 1) * size) count.
Proof.
  intros Hin. apply list_elem_of_In, list_elem_of_lookup in Hin as [k Hk].
  assert (Hlt : (k < n)%nat).
  { apply lookup_lt_Some in Hk. now rewrite chunks_length in Hk. }
  rewrite chunks_lookup in Hk by exact Hlt. injection Hk as <- <-. eauto.
Qed.

(** ** One chunk unit *)

Lemma slice_Some {A} (s : list A) lo hi sub :
  slice s lo hi = Some sub ->
  0 <= lo <= hi /\ hi <= Z.of_nat (length s) /\
  sub = take (Z.to_nat (hi - lo)) (drop (Z.to_nat lo) s) /\
  length sub = Z.to_nat (hi - lo).
Proof.
  unfold slice. intros H.
  destruct (0 <=? lo) eqn:H1; [|discriminate].
  destruct (lo <=? hi) eqn:H2; [|discriminate].
  destruct (hi <=? Z.of_nat (length s)) eqn:H3; [|discriminate].
  apply Z.leb_le in H1, H2, H3. injection H as <-.
  repeat split; try lia.
  rewrite length_take, length_drop. lia.
Qed.

Lemma slice_in_range {A} (s : list A) lo hi :
  0 <= lo <= hi -> hi <= Z.of_nat (length s) ->
  slice s lo hi = Some (take (Z.to_nat (hi - lo)) (drop (Z.to_nat lo) s)).
Proof.
  intros [H1 H2] H3. unfold slice.
  apply Z.leb_le in H1, H2, H3. now rewrite H1, H2, H3.
Qed.

Lemma slice_lookup {A} (s : list A) lo hi sub (j : nat) :
  slice s lo hi = Some sub -> (j < length sub)%nat ->
  sub !! j = s !! (Z.to_nat lo + j)%nat.
Proof.
  intros H Hj. destruct (slice_Some _ _ _ _ H) as (_ & _ & -> & Hlen).
  rewrite Hlen in Hj. rewrite lookup_take_lt by lia. apply lookup_drop.
Qed.

Lemma store_loop_length sub i todo : forall j bal,
  length (store_loop sub i j todo bal).2 = length bal.
Proof.
  induction todo as [|v rest IH]; intros j bal; simpl; auto.
  destruct v as [x|].
  - destruct (_ && _); simpl; auto. rewrite IH. apply length_insert.
  - destruct (sub !! j); reflexivity.
Qed.

(** What a unit returns depends on the shared array through its length only. *)
Lemma store_loop_fst_ext sub i todo : forall j bal1 bal2,
  length bal1 = length bal2 ->
  (store_loop sub i j todo bal1).1 = (store_loop sub i j todo bal2).1.
Proof.
  induction todo as [|v rest IH]; intros j bal1 bal2 Hlen; simpl; auto.
  destruct v as [x|].
  - rewrite Hlen. destruct (_ && _); simpl; auto.
    apply IH. now rewrite !length_insert.
  - destruct (sub !! j); reflexivity.
Qed.

Lemma store_loop_no_panic sub i todo : forall j bal,
  (j + length todo <= length sub)%nat ->
  0 <= i -> i + Z.of_nat j + Z.of_nat (length todo) <= Z.of_nat (length bal) ->
  Z.of_nat (length bal) <= int_max ->
  (store_loop sub i j todo bal).1 <> Panicked.
Proof.
  induction todo as [|v rest IH]; intros j bal Hsub Hi Hbal Hmax; simpl in *;
    [discriminate|].
  destruct v as [x|].
  - rewrite int_wrap_small by (unfold int_min, int_max in *; lia).
    destruct (0 <=? i + Z.of_nat j) eqn:H1.
    2:{ apply Z.leb_gt in H1. lia. }
    destruct (i + Z.of_nat j <? Z.of_nat (length bal)) eqn:H2.
    2:{ apply Z.ltb_ge in H2. lia. }
    simpl. apply IH; rewrite ?length_insert; lia.
  - destruct (sub !! j) eqn:Hj; [discriminate|].
    apply lookup_ge_None in Hj. lia.
Qed.

(** A store loop that returns [nil] met no nil balance and has written every
    balance of [todo] at its place, leaving the other cells alone. *)
Lemma store_loop_success sub i todo : forall j bal bal',
  store_loop sub i j todo bal = (Returned None, bal') ->
  0 <= i -> i + Z.of_nat j + Z.of_nat (length todo) <= int_max ->
  (forall v, In v todo -> v <> None) /\
  (forall p, (Z.to_nat i + j <= p < Z.to_nat i + j + length todo)%nat ->
     bal' !! p = todo !! (p - (Z.to_nat i + j))%nat) /\
  (forall p, ~ (Z.to_nat i + j <= p < Z.to_nat i + j + length todo)%nat ->
     bal' !! p = bal !! p).
Proof.
  induction todo as [|v rest IH]; intros j bal bal' H Hi Hmax; simpl in *.
  - injection H as <-. repeat split; intros; try tauto; lia.
  - destruct v as [x|]; [|destruct (sub !! j); discriminate].
    rewrite int_wrap_small in H by (unfold int_min, int_max in *; lia).
    destruct (0 <=? i + Z.of_nat j) eqn:H1; [|discriminate].
    destruct (i + Z.of_nat j <? Z.of_nat (length bal)) eqn:H2; [|discriminate].
    apply Z.ltb_lt in H2. simpl in H.
    destruct (IH _ _ _ H Hi ltac:(lia)) as (Hnn & Hin & Hout).
    replace (Z.to_nat (i + Z.of_nat j)) with (Z.to_nat i + j)%nat in * by lia.
    repeat split.
    + intros v [<-|Hv]; [discriminate|now apply Hnn].
    + intros p Hp.
      destruct (decide (p = (Z.to_nat i + j)%nat)) as [->|Hne].
      * rewrite Hout by lia. rewrite Nat.sub_diag.
        now rewrite list_lookup_insert_eq by lia.
      * rewrite Hin by lia.
        replace (p - (Z.to_nat i + j))%nat with (S (p - (Z.to_nat i + S j)))%nat by lia.
        reflexivity.
    + intros p Hp. rewrite Hout by lia. apply list_lookup_insert_ne. lia.
Qed.

(** The first nil balance stops the loop with the error that names the
    address at its position. *)
Lemma store_loop_nil sub i todo : forall j bal m a,
  todo !! m = Some None ->
  (forall k, (k < m)%nat -> todo !! k <> Some None) ->
  sub !! (j + m)%nat = Some a ->
  0 <= i -> i + Z.of_nat j + Z.of_nat (length todo) <= Z.of_nat (length bal) ->
  Z.of_nat (length bal) <= int_max ->
  (store_loop sub i j todo bal).1 =
    Returned (Some (Errorf "received nil balance for address %s" [ArgAddr a])).
Proof.
  induction todo as [|v rest IH]; intros j bal m a Hm Hfirst Ha Hi Hbal Hmax;
    [discriminate|].
  destruct m as [|m]; simpl in Hm.
  - injection Hm as ->. simpl. rewrite Nat.add_0_r in Ha. now rewrite Ha.
  - destruct v as [x|].
    2:{ exfalso. apply (Hfirst 0%nat); [lia|reflexivity]. }
    simpl in *.
    rewrite int_wrap_small by (unfold int_min, int_max in *; lia).
    destruct (0 <=? i + Z.of_nat j) eqn:H1.
    2:{ apply Z.leb_gt in H1. lia. }
    destruct (i + Z.of_nat j <? Z.of_nat (length bal)) eqn:H2.
    2:{ apply Z.ltb_ge in H2. lia. }
    simpl. apply (IH (S j) _ m a); rewrite ?length_insert; try lia; auto.
    + intros k Hk. apply (Hfirst (S k)). lia.
    + now replace (S j + m)%nat with (j + S m)%nat by lia.
Qed.

Section Units.

Variable b : BalanceBatcher.
Variable addresses : list Address.
Variable opts : option CallOpts.

Hypothesis count_fits : Z.of_nat (length addresses) <= int_max.

Lemma chunk_unit_length u bal :
  length (chunk_unit b addresses opts u bal).2 = length bal.
Proof.
  destruct u as [lo hi]. unfold chunk_unit.
  destruct (slice addresses lo hi) as [sub|]; [|reflexivity].
  destruct (Pack_balances _ _ _); [|reflexivity].
  destruct (CallContract _ _ _); [|reflexivity].
  destruct (Unpack_balances _ _) as [bs|]; [|reflexivity].
  destruct (negb _); [reflexivity|]. apply store_loop_length.
Qed.

Lemma chunk_unit_fst_ext u bal1 bal2 :
  length bal1 = length bal2 ->
  (chunk_unit b addresses opts u bal1).1 = (chunk_unit b addresses opts u bal2).1.
Proof.
  intros Hlen. destruct u as [lo hi]. unfold chunk_unit.
  destruct (slice addresses lo hi) as [sub|]; [|reflexivity].
  destruct (Pack_balances _ _ _); [|reflexivity].
  destruct (CallContract _ _ _); [|reflexivity].
  destruct (Unpack_balances _ _) as [bs|]; [|reflexivity].
  destruct (negb _); [reflexivity|]. now apply store_loop_fst_ext.
Qed.

(** A unit whose bounds lie inside the address list cannot panic. *)
Lemma chunk_unit_no_panic lo hi bal :
  0 <= lo <= hi -> hi <= Z.of_nat (length addresses) ->
  length bal = length addresses ->
  (chunk_unit b addresses opts (lo, hi) bal).1 <> Panicked.
Proof.
  intros Hlo Hhi Hbal. unfold chunk_unit.
  rewrite slice_in_range by lia.
  set (sub := take _ _).
  assert (Hsub : length sub = Z.to_nat (hi - lo)).
  { unfold sub. rewrite length_take, length_drop. lia. }
  destruct (Pack_balances _ _ _); [|discriminate].
  destruct (CallContract _ _ _); [|discriminate].
  destruct (Unpack_balances _ _) as [bs|]; [|discriminate].
  destruct (Nat.eqb (length bs) (length sub)) eqn:Hlen; [|discriminate].
  apply Nat.eqb_eq in Hlen. cbn [negb].
  apply store_loop_no_panic; lia.
Qed.

Lemma chunk_unit_returns lo hi bal :
  0 <= lo <= hi -> hi <= Z.of_nat (length addresses) ->
  length bal = length addresses ->
  (chunk_unit b addresses opts (lo, hi) bal).1 =
    Returned (unit_error b addresses opts (lo, hi)).
Proof.
  intros Hlo Hhi Hbal. unfold unit_error.
  rewrite (chunk_unit_fst_ext (lo, hi) (replicate (length addresses) None) bal)
    by (now rewrite length_replicate).
  pose proof (chunk_unit_no_panic lo hi bal Hlo Hhi Hbal) as Hnp.
  destruct ((chunk_unit b addresses opts (lo, hi) bal).1); congruence.
Qed.

(** A unit that returns [nil] has sliced, queried and decoded its chunk, got
    as many balances as addresses, none of them nil, and stored them at the
    cells [lo .. hi-1]; every other cell is as before. *)
Lemma chunk_unit_success lo hi bal bal' :
  chunk_unit b addresses opts (lo, hi) bal = (Returned None, bal') ->
  exists sub bs,
    slice addresses lo hi = Some sub /\
    decoded b opts sub = Some bs /\
    length bs = length sub /\
    (forall v, In v bs -> v <> None) /\
    (forall p : nat, lo <= Z.of_nat p < hi ->
       bal' !! p = bs !! (p - Z.to_nat lo)%nat) /\
    (forall p : nat, ~ (lo <= Z.of_nat p < hi) -> bal' !! p = bal !! p).
Proof.
  unfold chunk_unit. intros H.
  destruct (slice addresses lo hi) as [sub|] eqn:Hs; [|discriminate].
  destruct (slice_Some _ _ _ _ Hs) as (Hlo & Hhi & _ & Hsub).
  destruct (Pack_balances _ _ _) as [callData|] eqn:HP; [|discriminate].
  destruct (CallContract _ _ _) as [response|] eqn:HC; [|discriminate].
  destruct (Unpack_balances _ _) as [bs|] eqn:HU; [|discriminate].
  destruct (Nat.eqb (length bs) (length sub)) eqn:Hlen; [|discriminate].
  apply Nat.eqb_eq in Hlen. cbn [negb] in H.
  destruct (store_loop_success _ _ _ _ _ _ H) as (Hnn & Hin & Hout); [lia|lia|].
  exists sub, bs. repeat split; auto.
  - unfold decoded. now rewrite HP, HC, HU.
  - intros p Hp. rewrite Hin by lia. f_equal. lia.
  - intros p Hp. apply Hout. lia.
Qed.

(** ** The group of units *)

Lemma first_error_cons u order :
  first_error b addresses opts (u :: order) =
    match unit_error b addresses opts u with
    | Some e => Some e
    | None => first_error b addresses opts order
    end.
Proof.
  unfold first_error. cbn [omap list_omap].
  destruct (unit_error b addresses opts u); reflexivity.
Qed.

(** The group returns the error it held or else the first error in
    finishing order, and no unit panics. *)
Lemma run_units_fst order : forall bal firstErr,
  in_bounds addresses order -> length bal = length addresses ->
  (run_units b addresses opts order bal firstErr).1 =
    Returned (match firstErr with
              | Some _ => firstErr
              | None => first_error b addresses opts order
              end).
Proof.
  induction order as [|[lo hi] rest IH]; intros bal firstErr Hb Hlen.
  - simpl. now destruct firstErr.
  - cbn [run_units].
    destruct (Hb lo hi (or_introl eq_refl)) as [Hlo Hhi].
    pose proof (chunk_unit_returns lo hi bal Hlo Hhi Hlen) as Hret.
    pose proof (chunk_unit_length (lo, hi) bal) as Hlen'.
    destruct (chunk_unit b addresses opts (lo, hi) bal) as [o bal'].
    cbn [fst snd] in *. subst o.
    rewrite IH; [|intros lo' hi' Hin; apply Hb; now right|congruence].
    rewrite first_error_cons.
    destruct firstErr; [reflexivity|].
    destruct (unit_error b addresses opts (lo, hi)); reflexivity.
Qed.

Lemma first_error_None order u :
  first_error b addresses opts order = None -> In u order ->
  unit_error b addresses opts u = None.
Proof.
  induction order as [|u' rest IH]; intros H Hin; [destruct Hin|].
  rewrite first_error_cons in H.
  destruct (unit_error b addresses opts u') eqn:Hu; [discriminate|].
  destruct Hin as [->|Hin]; auto.
Qed.

Lemma first_error_Some order u e :
  In u order -> unit_error b addresses opts u = Some e ->
  exists e1, first_error b addresses opts order = Some e1.
Proof.
  induction order as [|u' rest IH]; intros Hin Hu; [destruct Hin|].
  rewrite first_error_cons.
  destruct (unit_error b addresses opts u') eqn:Hu'; [eauto|].
  destruct Hin as [->|Hin]; [congruence|auto].
Qed.

(** When every unit returns [nil], a cell no unit covers keeps its value and
    a cell covered by the unit [(lo, hi)] alone holds what that unit
    decoded for it. *)
Lemma run_units_outside order : forall bal (p : nat),
  in_bounds addresses order -> length bal = length addresses ->
  first_error b addresses opts order = None ->
  (forall lo hi, In (lo, hi) order -> ~ (lo <= Z.of_nat p < hi)) ->
  (run_units b addresses opts order bal None).2 !! p = bal !! p.
Proof.
  induction order as [|[lo hi] rest IH]; intros bal p Hb Hlen Hfe Hout;
    [reflexivity|].
  cbn [run_units].
  destruct (Hb lo hi (or_introl eq_refl)) as [Hlo Hhi].
  pose proof (chunk_unit_returns lo hi bal Hlo Hhi Hlen) as Hret.
  pose proof (chunk_unit_length (lo, hi) bal) as Hlen'.
  rewrite first_error_cons in Hfe.
  destruct (unit_error b addresses opts (lo, hi)) eqn:Hu; [discriminate|].
  destruct (chunk_unit b addresses opts (lo, hi) bal) as [o bal'] eqn:Hcu.
  cbn [fst snd] in *. subst o.
  destruct (chunk_unit_success _ _ _ _ Hcu) as (sub & bs & _ & _ & _ & _ & _ & Hkeep).
  rewrite IH; auto.
  - apply Hkeep, Hout. now left.
  - intros lo' hi' Hin; apply Hb; now right.
  - congruence.
  - intros lo' hi' Hin; apply Hout; now right.
Qed.

Lemma run_units_inside order : forall bal (p : nat) lo hi,
  in_bounds addresses order -> length bal = length addresses ->
  first_error b addresses opts order = None ->
  In (lo, hi) order -> lo <= Z.of_nat p < hi ->
  (forall lo' hi', In (lo', hi') order -> lo' <= Z.of_nat p < hi' ->
     (lo', hi') = (lo, hi)) ->
  exists sub bs,
    slice addresses lo hi = Some sub /\
    decoded b opts sub = Some bs /\
    length bs = length sub /\
    (forall v, In v bs -> v <> None) /\
    (run_units b addresses opts order bal None).2 !! p = bs !! (p - Z.to_nat lo)%nat.
Proof.
  induction order as [|[lo0 hi0] rest IH]; intros bal p lo hi Hb Hlen Hfe Hin Hp Huniq;
    [destruct Hin|].
  cbn [run_units].
  destruct (Hb lo0 hi0 (or_introl eq_refl)) as [Hlo Hhi].
  pose proof (chunk_unit_returns lo0 hi0 bal Hlo Hhi Hlen) as Hret.
  pose proof (chunk_unit_length (lo0, hi0) bal) as Hlen'.
  rewrite first_error_cons in Hfe.
  destruct (unit_error b addresses opts (lo0, hi0)) eqn:Hu; [discriminate|].
  destruct (chunk_unit b addresses opts (lo0, hi0) bal) as [o bal'] eqn:Hcu.
  cbn [fst snd] in *. subst o.
  assert (Hb' : in_bounds addresses rest) by (intros lo' hi' Hin'; apply Hb; now right).
  assert (Hdec : In (lo, hi) rest \/ ~ In (lo, hi) rest).
  { rewrite <- list_elem_of_In. destruct (decide (elem_of (lo, hi) rest)); auto. }
  destruct Hdec as [Hrest|Hrest].
  - apply IH; auto; [congruence|].
    intros lo' hi' Hin' Hp'. apply Huniq; [now right|exact Hp'].
  - destruct Hin as [[= -> ->]|Hin]; [|contradiction].
    destruct (chunk_unit_success _ _ _ _ Hcu) as (sub & bs & Hs & Hd & Hl & Hnn & Hw & _).
    exists sub, bs. repeat split; auto.
    rewrite run_units_outside; auto; [congruence|].
    intros lo' hi' Hin' Hp'. apply Hrest.
    rewrite <- (Huniq lo' hi'); [exact Hin'|now right|exact Hp'].
Qed.

Lemma run_units_length order : forall bal firstErr,
  length (run_units b addresses opts order bal firstErr).2 = length bal.
Proof.
  induction order as [|u rest IH]; intros bal firstErr; [reflexivity|].
  cbn [run_units].
  pose proof (chunk_unit_length u bal) as Hlen.
  destruct (chunk_unit b addresses opts u bal) as [[e|] bal']; cbn [snd] in *.
  - now rewrite IH.
  - exact Hlen.
Qed.

End Units.

(** ** Chunks and positions *)

Lemma chunks_in_bounds count size lo hi :
  0 < size -> 0 <= count ->
  In (lo, hi) (chunks (chunk_count count size 0) count size 0) ->
  0 <= lo < hi /\ hi <= count.
Proof.
  intros Hs Hc Hin.
  apply chunks_elem in Hin as (k & Hk & -> & ->).
  unfold chunk_count in Hk.
  pose proof (Z.mul_div_le (count - 0 + size - 1) size Hs) as Hq.
  assert (0 <= (count - 0 + size - 1) / size) by (apply Z.div_pos; lia).
  assert (Z.of_nat k + 1 <= (count - 0 + size - 1) / size) by lia.
  assert (size * (Z.of_nat k + 1) <= size * ((count - 0 + size - 1) / size))
    by (apply Z.mul_le_mono_nonneg_l; lia).
  nia.
Qed.

Lemma chunk_of_position count size p :
  0 < size -> 0 <= p < count ->
  In (p / size * size, Z.min (p / size * size + size) count)
     (chunks (chunk_count count size 0) count size 0) /\
  p / size * size <= p < Z.min (p / size * size + size) count.
Proof.
  intros Hs Hp.
  pose proof (Z.mul_div_le p size Hs) as Hle.
  pose proof (Z.mul_succ_div_gt p size Hs) as Hgt.
  assert (Hq0 : 0 <= p / size) by (apply Z.div_pos; lia).
  split; [|lia].
  assert (Hk : (Z.to_nat (p / size) < chunk_count count size 0)%nat).
  { unfold chunk_count.
    replace (count - 0 + size - 1) with (count - 1 + 1 * size) by lia.
    rewrite Z.div_add by lia.
    assert (p / size <= (count - 1) / size) by (apply Z.div_le_mono; lia).
    lia. }
  apply list_elem_of_In, list_elem_of_lookup. exists (Z.to_nat (p / size)).
  rewrite chunks_lookup by exact Hk.
  rewrite Z2Nat.id by lia. do 2 f_equal; try f_equal; lia.
Qed.

Lemma chunk_unique count size p lo hi :
  0 < size -> 0 <= p ->
  In (lo, hi) (chunks (chunk_count count size 0) count size 0) ->
  lo <= p < hi ->
  (lo, hi) = (p / size * size, Z.min (p / size * size + size) count).
Proof.
  intros Hs Hp Hin Hr.
  apply chunks_elem in Hin as (k & _ & -> & ->).
  assert (Hk : Z.of_nat k = p / size).
  { apply (Z.div_unique p size (Z.of_nat k) (p - size * Z.of_nat k)); lia. }
  rewrite <- Hk. f_equal; try f_equal; lia.
Qed.

(** ** The bulk lookup *)

(** With a positive chunk size and a non-zero limit the call returns, and
    what it returns is decided by the first error in finishing order. *)
Lemma GetEthBalances_returns sched b addresses opts fuel :
  (forall l, Permutation (sched l) l) ->
  0 < BalanceBatchSize b <= int_max ->
  ThreadLimit b <> 0 ->
  2 * Z.of_nat (length addresses) <= int_max ->
  (length addresses < fuel)%nat ->
  let count := Z.of_nat (length addresses) in
  let order := sched (chunks (chunk_count count (BalanceBatchSize b) 0) count
                        (BalanceBatchSize b) 0) in
  in_bounds addresses order /\
  GetEthBalances fuel sched b addresses opts =
    Some (Returned
            match first_error b addresses opts order with
            | Some err => (None, Some (Wrapf "error getting balances: %w" [] err))
            | None =>
                (Some (run_units b addresses opts order
                         (replicate (length addresses) None) None).2, None)
            end).
Proof.
  intros Hperm Hsize Hlimit Hfits Hfuel count order.
  assert (Hcount : Z.of_nat (length addresses) <= int_max)
    by (unfold int_max in *; lia).
  assert (Hb : in_bounds addresses order).
  { intros lo hi Hin. unfold order in Hin.
    apply (Permutation_in _ (Hperm _)) in Hin.
    apply chunks_in_bounds in Hin; [|lia|lia]. fold count. lia. }
  split; [exact Hb|].
  unfold GetEthBalances. fold count.
  rewrite chunk_loop_chunks by (unfold int_max in *; lia).
  destruct (ThreadLimit b =? 0) eqn:Hl; [apply Z.eqb_eq in Hl; contradiction|].
  cbn [andb]. fold order.
  pose proof (run_units_fst b addresses opts Hcount order
                (replicate (length addresses) None) None Hb
                (length_replicate _ _)) as Hfst.
  destruct (run_units b addresses opts order (replicate (length addresses) None) None)
    as [o res]. cbn [fst snd] in *. subst o.
  destruct (first_error b addresses opts order); reflexivity.
Qed.

Lemma first_error_all_None b addresses opts order :
  (forall u, In u order -> unit_error b addresses opts u = None) ->
  first_error b addresses opts order = None.
Proof.
  induction order as [|u rest IH]; intros H; [reflexivity|].
  rewrite first_error_cons, (H u (or_introl eq_refl)).
  apply IH. intros u' Hin. apply H. now right.
Qed.

(** C2.  With a positive chunk size and a positive limit, whatever the order
    in which the chunk units finish, [GetEthBalances] returns, and it
    returns a nil error exactly when no chunk unit returns an error.  With a
    nil error it returns an array, never nil; the array has one cell per
    address, cell [p] holding the non-nil balance that the chunk of [p] (the
    slice of the address list from [p / size * size] on, [size] long or cut
    at the end) decoded at the place where that chunk holds address [p]. *)
Theorem GetEthBalances_order_preserved sched b addresses opts fuel :
  (forall l, Permutation (sched l) l) ->
  0 < BalanceBatchSize b <= int_max ->
  0 < ThreadLimit b ->
  2 * Z.of_nat (length addresses) <= int_max ->
  (length addresses < fuel)%nat ->
  exists r,
    GetEthBalances fuel sched b addresses opts = Some (Returned r) /\
    (r.2 = None <->
     forall u,
       In u (chunks (chunk_count (Z.of_nat (length addresses)) (BalanceBatchSize b) 0)
               (Z.of_nat (length addresses)) (BalanceBatchSize b) 0) ->
       unit_error b addresses opts u = None) /\
    (forall res, r.1 = Some res -> r.2 = None) /\
    (r.2 = None ->
     exists res,
       r.1 = Some res /\
       length res = length addresses /\
       forall (p : nat) a, addresses !! p = Some a ->
         let lo := Z.of_nat p / BalanceBatchSize b * BalanceBatchSize b in
         let hi := Z.min (lo + BalanceBatchSize b) (Z.of_nat (length addresses)) in
         exists sub bs v,
           slice addresses lo hi = Some sub /\
           decoded b opts sub = Some bs /\
           length bs = length sub /\
           sub !! (p - Z.to_nat lo)%nat = Some a /\
           bs !! (p - Z.to_nat lo)%nat = Some (Some v) /\
           res !! p = Some (Some v)).
Proof.
  intros Hperm Hsize Hlimit Hfits Hfuel.
  destruct (GetEthBalances_returns sched b addresses opts fuel Hperm Hsize
              ltac:(lia) Hfits Hfuel) as [Hb ->].
  set (count := Z.of_nat (length addresses)) in *.
  set (size := BalanceBatchSize b) in *.
  set (units := chunks (chunk_count count size 0) count size 0) in *.
  assert (Hcount : Z.of_nat (length addresses) <= int_max)
    by (unfold int_max in *; lia).
  eexists. split; [reflexivity|].
  destruct (first_error b addresses opts (sched units)) eqn:Hfe; cbn [fst snd].
  { split; [|split; discriminate].
    split; [discriminate|]. intros Hall. exfalso.
    rewrite first_error_all_None in Hfe; [discriminate|].
    intros u Hin. apply Hall. apply (Permutation_in _ (Hperm _)). exact Hin. }
  split.
  { split; [|reflexivity]. intros _ u Hin.
    apply (first_error_None b addresses opts (sched units) u Hfe).
    apply (Permutation_in _ (Permutation_sym (Hperm _))). exact Hin. }
  split; [reflexivity|].
  intros _. eexists. split; [reflexivity|].
  split; [now rewrite run_units_length, length_replicate|].
  intros p a Ha. cbv zeta.
  assert (Hp : 0 <= Z.of_nat p < count).
  { apply lookup_lt_Some in Ha. unfold count. lia. }
  destruct (chunk_of_position count size (Z.of_nat p) ltac:(lia) Hp) as [Hin Hcov].
  set (lo := Z.of_nat p / size * size) in *.
  set (hi := Z.min (lo + size) count) in *.
  destruct (run_units_inside b addresses opts Hcount (sched units)
              (replicate (length addresses) None) p lo hi)
    as (sub & bs & Hs & Hd & Hl & Hnn & Hres); auto.
  { apply length_replicate. }
  { apply (Permutation_in _ (Permutation_sym (Hperm _))). exact Hin. }
  { intros lo' hi' Hin' Hp'.
    apply (Permutation_in _ (Hperm _)) in Hin'.
    apply (chunk_unique count size (Z.of_nat p) lo' hi'); auto; lia. }
  destruct (slice_Some _ _ _ _ Hs) as (Hlo & Hhi & _ & Hsub).
  assert (Hj : (p - Z.to_nat lo < length sub)%nat) by lia.
  destruct (lookup_lt_is_Some_2 bs (p - Z.to_nat lo)%nat ltac:(lia)) as [v Hv].
  destruct v as [v|].
  2:{ exfalso. apply (Hnn None); [|reflexivity].
      apply list_elem_of_In, list_elem_of_lookup. eauto. }
  exists sub, bs, v. repeat split; auto.
  - rewrite (slice_lookup _ _ _ _ _ Hs Hj), <- Ha. f_equal. lia.
  - now rewrite Hres.
Qed.

Lemma GetEthBalances_order_preserved_witness :
  exists res,
    GetEthBalances 6 BalanceScenario.reversed
      (BalanceScenario.batcher BalanceScenario.ledgerAbi Scenario.echoClient 2 2)
      BalanceScenario.five None = Some (Returned (Some res, None)) /\
    length res = length BalanceScenario.five /\
    forall (p : nat) a, BalanceScenario.five !! p = Some a ->
      let lo := Z.of_nat p / 2 * 2 in
      let hi := Z.min (lo + 2) (Z.of_nat (length BalanceScenario.five)) in
      exists sub bs v,
        slice BalanceScenario.five lo hi = Some sub /\
        decoded (BalanceScenario.batcher BalanceScenario.ledgerAbi Scenario.echoClient 2 2)
          None sub = Some bs /\
        length bs = length sub /\
        sub !! (p - Z.to_nat lo)%nat = Some a /\
        bs !! (p - Z.to_nat lo)%nat = Some (Some v) /\
        res !! p = Some (Some v).
Proof.
  destruct (GetEthBalances_order_preserved BalanceScenario.reversed
              (BalanceScenario.batcher BalanceScenario.ledgerAbi Scenario.echoClient 2 2)
              BalanceScenario.five None 6)
    as ([r1 r2] & Hret & Hnil & _ & Harray).
  - intros l. apply Permutation_sym, Permutation_rev.
  - cbn. unfold int_max. lia.
  - cbn. lia.
  - cbn. unfold int_max. lia.
  - cbn. lia.
  - assert (Hr2 : r2 = None).
    { apply Hnil. intros u Hin. vm_compute in Hin.
      destruct Hin as [<-|[<-|[<-|[]]]]; vm_compute; reflexivity. }
    destruct (Harray Hr2) as (res & Hr1 & Hlen & Hcells).
    cbn [fst snd] in *. subst r1 r2.
    exists res. split; [exact Hret|]. split; [exact Hlen|exact Hcells].
Defined.

(** The scenario of five addresses, chunk size 2 and limit 2: the array is
    the same whether the units finish in spawn order or in reverse. *)
Example GetEthBalances_five_addresses :
  GetEthBalances 6 BalanceScenario.reversed
    (BalanceScenario.batcher BalanceScenario.ledgerAbi Scenario.echoClient 2 2)
    BalanceScenario.five None
  = Some (Returned (Some [Some 110; Some 111; Some 112; Some 113; Some 114], None)) /\
  GetEthBalances 6 BalanceScenario.in_order
    (BalanceScenario.batcher BalanceScenario.ledgerAbi Scenario.echoClient 2 2)
    BalanceScenario.five None
  = Some (Returned (Some [Some 110; Some 111; Some 112; Some 113; Some 114], None)).
Proof. split; vm_compute; reflexivity. Qed.

(** C5.  With a positive chunk size and a positive limit, if some chunk
    unit returns an error, whatever its kind, [GetEthBalances] returns no
    array and one error: the first error in the order in which the units
    finish, wrapped by the final message. *)
Theorem GetEthBalances_first_error sched b addresses opts fuel u e :
  (forall l, Permutation (sched l) l) ->
  0 < BalanceBatchSize b <= int_max ->
  0 < ThreadLimit b ->
  2 * Z.of_nat (length addresses) <= int_max ->
  (length addresses < fuel)%nat ->
  In u (chunks (chunk_count (Z.of_nat (length addresses)) (BalanceBatchSize b) 0)
          (Z.of_nat (length addresses)) (BalanceBatchSize b) 0) ->
  unit_error b addresses opts u = Some e ->
  exists e1,
    first_error b addresses opts
      (sched (chunks (chunk_count (Z.of_nat (length addresses)) (BalanceBatchSize b) 0)
                (Z.of_nat (length addresses)) (BalanceBatchSize b) 0)) = Some e1 /\
    GetEthBalances fuel sched b addresses opts =
      Some (Returned (None, Some (Wrapf "error getting balances: %w" [] e1))).
Proof.
  intros Hperm Hsize Hlimit Hfits Hfuel Hin Hu.
  destruct (GetEthBalances_returns sched b addresses opts fuel Hperm Hsize
              ltac:(lia) Hfits Hfuel) as [_ ->].
  apply (Permutation_in _ (Permutation_sym (Hperm _))) in Hin.
  destruct (first_error_Some b addresses opts _ u e Hin Hu) as [e1 He1].
  exists e1. rewrite He1. split; reflexivity.
Qed.

Lemma GetEthBalances_first_error_witness :
  exists e1,
    first_error (BalanceScenario.batcher BalanceScenario.holeAbi BalanceScenario.flakyClient 2 2)
      BalanceScenario.five None
      (BalanceScenario.reversed
         (chunks (chunk_count 5 2 0) 5 2 0)) = Some e1 /\
    GetEthBalances 6 BalanceScenario.reversed
      (BalanceScenario.batcher BalanceScenario.holeAbi BalanceScenario.flakyClient 2 2)
      BalanceScenario.five None =
      Some (Returned (None, Some (Wrapf "error getting balances: %w" [] e1))).
Proof.
  apply (GetEthBalances_first_error BalanceScenario.reversed
           (BalanceScenario.batcher BalanceScenario.holeAbi BalanceScenario.flakyClient 2 2)
           BalanceScenario.five None 6 (2, 4)
           (Wrapf "error calling balances: %w" [] (CapabilityError "timeout"))).
  - intros l. apply Permutation_sym, Permutation_rev.
  - cbn. unfold int_max. lia.
  - cbn. lia.
  - cbn. unfold int_max. lia.
  - cbn. lia.
  - vm_compute. right. left. reflexivity.
  - vm_compute. reflexivity.
Defined.

(** Two failing units, two finishing orders: the error reported is that of
    the unit that finished first. *)
Example GetEthBalances_two_failures :
  GetEthBalances 6 BalanceScenario.in_order
    (BalanceScenario.batcher BalanceScenario.holeAbi BalanceScenario.flakyClient 2 2)
    BalanceScenario.five None
  = Some (Returned (None,
      Some (Wrapf "error getting balances: %w" []
              (Wrapf "error calling balances: %w" [] (CapabilityError "timeout"))))) /\
  GetEthBalances 6 BalanceScenario.reversed
    (BalanceScenario.batcher BalanceScenario.holeAbi BalanceScenario.flakyClient 2 2)
    BalanceScenario.five None
  = Some (Returned (None,
      Some (Wrapf "error getting balances: %w" []
              (Errorf "received nil balance for address %s" [ArgAddr 14%N])))).
Proof. split; vm_compute; reflexivity. Qed.

(** ** Validation of a chunk *)

Lemma first_nil (bs : list (option Z)) :
  In None bs ->
  exists j : nat, bs !! j = Some None /\ forall k : nat, (k < j)%nat -> bs !! k <> Some None.
Proof.
  induction bs as [|v rest IH]; intros Hin; [destruct Hin|].
  destruct v as [x|].
  - destruct Hin as [Hin|Hin]; [discriminate|].
    destruct (IH Hin) as (j & Hj & Hfirst).
    exists (S j). split; [exact Hj|].
    intros [|k] Hk; [discriminate|]. apply Hfirst. lia.
  - exists 0%nat. split; [reflexivity|]. intros k Hk. lia.
Qed.

(** C8.  Once a chunk has been sliced, encoded, dispatched and decoded, a
    decoded list whose length is not the chunk's address count, or that
    holds a nil value, makes the unit return an error that is none of the
    encode, dispatch and decode errors.  On a length mismatch it is the
    mismatch error with the two lengths; on equal lengths it is the
    nil-balance error, and it names the address of the first nil position,
    which is the address at that offset of the chunk in the address list. *)
Theorem chunk_unit_integrity b addresses opts i max balances sub callData response bs :
  Z.of_nat (length addresses) <= int_max ->
  length balances = length addresses ->
  slice addresses i max = Some sub ->
  Pack_balances (abi b) sub [0%N] = Ok callData ->
  CallContract (client b) {| To := Some (contractAddress b); Data := callData |}
    (blockNumber_of opts) = Ok response ->
  Unpack_balances (abi b) response = Ok bs ->
  length bs <> length sub \/ In None bs ->
  exists e,
    (chunk_unit b addresses opts (i, max) balances).1 = Returned (Some e) /\
    is_encode_error e = false /\
    is_dispatch_error e = false /\
    is_decode_error e = false /\
    (length bs <> length sub ->
       e = Errorf "received %d balances which mismatches query batch size %d"
             [ArgInt (Z.of_nat (length bs)); ArgInt (Z.of_nat (length sub))]) /\
    (length bs = length sub ->
       exists (j : nat) a,
         bs !! j = Some None /\
         (forall k : nat, (k < j)%nat -> bs !! k <> Some None) /\
         sub !! j = Some a /\
         addresses !! (Z.to_nat i + j)%nat = Some a /\
         e = Errorf "received nil balance for address %s" [ArgAddr a]).
Proof.
  intros Hfits Hbal Hs HP HC HU Hbad.
  destruct (slice_Some _ _ _ _ Hs) as (Hlo & Hhi & _ & Hsub).
  unfold chunk_unit. rewrite Hs, HP, HC, HU.
  destruct (Nat.eqb (length bs) (length sub)) eqn:Hlen; cbn [negb].
  - apply Nat.eqb_eq in Hlen.
    destruct Hbad as [Hne|Hnil]; [contradiction|].
    destruct (first_nil bs Hnil) as (j & Hj & Hfirst).
    assert (Hjlt : (j < length sub)%nat).
    { apply lookup_lt_Some in Hj. lia. }
    destruct (lookup_lt_is_Some_2 sub j Hjlt) as [a Ha].
    exists (Errorf "received nil balance for address %s" [ArgAddr a]).
    split.
    { apply (store_loop_nil sub i bs 0%nat balances j a); auto; lia. }
    repeat split; try reflexivity; [contradiction|].
    intros _. exists j, a. repeat split; auto.
    rewrite <- Ha. symmetry. exact (slice_lookup _ _ _ _ _ Hs Hjlt).
  - apply Nat.eqb_neq in Hlen.
    eexists. split; [reflexivity|].
    repeat split; try reflexivity. contradiction.
Qed.

Lemma chunk_unit_integrity_witness :
  exists e,
    (chunk_unit (BalanceScenario.batcher BalanceScenario.holeAbi Scenario.echoClient 2 2)
       BalanceScenario.five None (4, 5) (replicate 5 None)).1 = Returned (Some e) /\
    is_encode_error e = false /\
    is_dispatch_error e = false /\
    is_decode_error e = false /\
    (length [@None Z] <> length [14%N] ->
       e = Errorf "received %d balances which mismatches query batch size %d"
             [ArgInt (Z.of_nat (length [@None Z])); ArgInt (Z.of_nat (length [14%N]))]) /\
    (length [@None Z] = length [14%N] ->
       exists (j : nat) a,
         [@None Z] !! j = Some None /\
         (forall k : nat, (k < j)%nat -> [@None Z] !! k <> Some None) /\
         [14%N] !! j = Some a /\
         BalanceScenario.five !! (Z.to_nat 4 + j)%nat = Some a /\
         e = Errorf "received nil balance for address %s" [ArgAddr a]).
Proof.
  apply (chunk_unit_integrity
           (BalanceScenario.batcher BalanceScenario.holeAbi Scenario.echoClient 2 2)
           BalanceScenario.five None 4 5 (replicate 5 None)
           [14%N] [Byte.x0e] [Byte.x0e] [None]).
  - cbn. unfold int_max. lia.
  - reflexivity.
  - reflexivity.
  - reflexivity.
  - reflexivity.
  - reflexivity.
  - right. left. reflexivity.
Defined.

(** The two integrity errors on the scenario's last chunk. *)
Example chunk_unit_integrity_errors :
  (chunk_unit (BalanceScenario.batcher BalanceScenario.holeAbi Scenario.echoClient 2 2)
     BalanceScenario.five None (4, 5) (replicate 5 None)).1
  = Returned (Some (Errorf "received nil balance for address %s" [ArgAddr 14%N])) /\
  (chunk_unit (BalanceScenario.batcher BalanceScenario.longAbi Scenario.echoClient 2 2)
     BalanceScenario.five None (4, 5) (replicate 5 None)).1
  = Returned (Some (Errorf "received %d balances which mismatches query batch size %d"
                      [ArgInt 2; ArgInt 1])).
Proof. split; vm_compute; reflexivity. Qed.

(** ** Chunk size zero *)

(** With chunk size zero the index stays at 0 below a positive list length:
    no number of iterations is enough. *)
Lemma chunk_loop_zero fuel count : 0 < count -> chunk_loop fuel count 0 0 = None.
Proof.
  intros Hc. induction fuel as [|fuel IH]; [reflexivity|].
  cbn [chunk_loop]. destruct (0 <? count) eqn:Hlt.
  - change (int_wrap (0 + 0)) with 0. now rewrite IH.
  - apply Z.ltb_ge in Hlt. lia.
Qed.

End BalanceBatcherProperties.

(** * The balance batcher step by step *)

Section BalanceStepsProperties.
Import BalanceBatcher BalanceBatcherSpec BalanceSteps BalanceStepsNotions.
Local Open Scope Z_scope.

Lemma int_wrap_range z : int_min <= int_wrap z <= int_max.
Proof.
  unfold int_wrap, int_min, int_max.
  pose proof (Z.mod_pos_bound (z + 2 ^ 63) (2 ^ 64) ltac:(lia)). lia.
Qed.

Lemma In_delete {A} (x : A) k l : In x (delete k l) -> In x l.
Proof.
  revert k. induction l as [|y l IH]; intros [|k] Hin; cbn in *; auto.
  destruct Hin as [->|Hin]; [now left|right; eauto].
Qed.

Lemma in_bounds_delete addresses k act :
  in_bounds addresses act -> in_bounds addresses (delete k act).
Proof. intros Hb lo hi Hin. apply Hb. eapply In_delete; eauto. Qed.

(** ** Positive chunk size *)

Section Positive.

Variable b : BalanceBatcher.
Variable addresses : list Address.
Variable opts : option CallOpts.

Hypothesis size_pos : 0 < BalanceBatchSize b <= int_max.
Hypothesis list_fits : 2 * Z.of_nat (length addresses) <= int_max.

Let count := Z.of_nat (length addresses).
Let size := BalanceBatchSize b.

Lemma sound_start : sound b addresses (start addresses).
Proof.
  unfold sound, start. cbn [cells active pc].
  split; [apply length_replicate|].
  split; [intros x y []|].
  split; [unfold int_max; lia|now left].
Qed.

(** The caller's move in the loop body: the index grows by the chunk size
    and the unit started is the chunk from [i], cut at the end. *)
Lemma step_spawn s i :
  sound b addresses s -> pc s = AtLoop i -> i < count ->
  slot_free (ThreadLimit b) (active s) = true ->
  step b addresses opts Caller s =
    Some (Running {| pc := AtLoop (i + size);
                     active := active s ++ [(i, Z.min (i + size) count)];
                     cells := cells s; held := held s |}).
Proof.
  intros (_ & _ & Hpc) Hi Hlt Hslot. rewrite Hi in Hpc.
  unfold step. rewrite Hi. fold count size.
  destruct (i <? count) eqn:H1; [|apply Z.ltb_ge in H1; lia].
  rewrite Hslot.
  rewrite int_wrap_small by (unfold int_min, int_max, count, size in *; lia).
  do 4 f_equal.
  destruct (i + size >? count) eqn:Hgt.
  - apply Z.gtb_lt in Hgt. now rewrite Z.min_r by lia.
  - rewrite Z.gtb_ltb in Hgt. apply Z.ltb_ge in Hgt. now rewrite Z.min_l by lia.
Qed.

(** A move keeps the state sound, never ends in a panic and uses up at
    least one of the moves that are left. *)
Lemma step_sound m s c :
  sound b addresses s ->
  step b addresses opts m s = Some c ->
  c <> Crashed /\
  (forall s', c = Running s' -> sound b addresses s') /\
  (moves_left count size c < moves_left count size (Running s))%nat.
Proof.
  intros Hs Hstep. pose proof Hs as (Hlen & Hb & Hpc).
  destruct m as [|k].
  - destruct (pc s) as [i|] eqn:Hi.
    + destruct (Z_lt_le_dec i count) as [Hlt|Hge].
      * destruct (slot_free (ThreadLimit b) (active s)) eqn:Hslot.
        2:{ unfold step in Hstep. rewrite Hi in Hstep. fold count in Hstep.
            apply Z.ltb_lt in Hlt. rewrite Hlt, Hslot in Hstep. discriminate. }
        rewrite (step_spawn s i Hs Hi Hlt Hslot) in Hstep.
        injection Hstep as <-. split; [discriminate|]. split.
        -- intros s' [= <-]. unfold sound. cbn [cells active pc].
           split; [exact Hlen|]. split.
           ++ intros lo hi Hin. apply in_app_or in Hin as [Hin|[[= <- <-]|[]]].
              ** now apply Hb.
              ** fold count. unfold size. lia.
           ++ unfold int_max, count, size in *. lia.
        -- cbn [moves_left pc active]. rewrite Hi.
           rewrite (chunk_count_step count size i) by (unfold size; lia).
           rewrite length_app. cbn [length]. lia.
      * unfold step in Hstep. rewrite Hi in Hstep. fold count in Hstep.
        destruct (i <? count) eqn:H1; [apply Z.ltb_lt in H1; lia|].
        injection Hstep as <-. split; [discriminate|]. split.
        -- intros s' [= <-]. unfold sound. cbn [cells active pc]. auto.
        -- cbn [moves_left pc active]. rewrite Hi.
           rewrite chunk_count_done by (unfold size; lia). lia.
    + unfold step in Hstep. rewrite Hi in Hstep.
      destruct (active s) eqn:Ha; [|discriminate].
      injection Hstep as <-. split; [discriminate|]. split; [discriminate|].
      cbn [moves_left]. rewrite Hi, Ha. cbn. lia.
  - unfold step in Hstep.
    destruct (active s !! k) as [[lo hi]|] eqn:Hk; [|discriminate].
    assert (Hin : In (lo, hi) (active s)).
    { apply list_elem_of_In, list_elem_of_lookup. eauto. }
    destruct (Hb lo hi Hin) as [Hlo Hhi].
    assert (Hfits : Z.of_nat (length addresses) <= int_max)
      by (unfold int_max in *; lia).
    pose proof (chunk_unit_no_panic b addresses opts Hfits lo hi (cells s)
                  Hlo Hhi Hlen) as Hnp.
    pose proof (chunk_unit_length b addresses opts (lo, hi) (cells s)) as Hl.
    destruct (chunk_unit b addresses opts (lo, hi) (cells s)) as [[e|] cells'];
      cbn [fst snd] in *; [|congruence].
    injection Hstep as <-. split; [discriminate|]. split.
    + intros s' [= <-]. unfold sound. cbn [cells active pc].
      split; [congruence|]. split; [apply in_bounds_delete, Hb|exact Hpc].
    + cbn [moves_left pc active].
      assert (Hd : length (delete k (active s)) = (length (active s) - 1)%nat).
      { apply length_delete. eauto. }
      apply lookup_lt_Some in Hk.
      destruct (pc s); lia.
Qed.

Lemma run_sound script : forall s c,
  sound b addresses s ->
  run b addresses opts script (Running s) = Some c ->
  c <> Crashed /\
  (forall s', c = Running s' -> sound b addresses s') /\
  (length script + moves_left count size c <= moves_left count size (Running s))%nat.
Proof.
  induction script as [|m rest IH]; intros s c Hs Hrun.
  - injection Hrun as <-. split; [discriminate|]. split.
    + now intros s' [= <-].
    + cbn [length]. lia.
  - cbn [run] in Hrun.
    destruct (step b addresses opts m s) as [c1|] eqn:Hstep; [|discriminate].
    destruct (step_sound m s c1 Hs Hstep) as (Hnc & Hs1 & Hm).
    destruct c1 as [s1|r|]; [|destruct rest; [|discriminate]|congruence].
    + destruct (IH s1 c (Hs1 s1 eq_refl) Hrun) as (Hc & Hs' & Hm').
      split; [exact Hc|]. split; [exact Hs'|]. cbn [length]. lia.
    + injection Hrun as <-. split; [discriminate|]. split; [discriminate|].
      cbn [length]. cbn [moves_left] in *. lia.
Qed.

End Positive.

(** With a limit that is not zero a run is never stuck before it returns:
    the caller can move, or some active unit can. *)
Lemma progress b addresses opts s :
  ThreadLimit b <> 0 -> can_move b addresses opts s.
Proof.
  intros Hlimit.
  assert (Hunit : active s <> [] -> can_move b addresses opts s).
  { intros Hne. destruct (active s) as [|u act] eqn:Ha; [congruence|].
    exists (Unit 0). unfold step. rewrite Ha. cbn [lookup list_lookup].
    destruct (chunk_unit b addresses opts u (cells s)) as [[e|] cells']; eauto. }
  destruct (pc s) as [i|] eqn:Hi.
  - destruct (i <? Z.of_nat (length addresses)) eqn:Hlt.
    + destruct (slot_free (ThreadLimit b) (active s)) eqn:Hslot.
      * exists Caller. unfold step. rewrite Hi, Hlt, Hslot. eauto.
      * apply Hunit. intros Ha. rewrite Ha in Hslot. unfold slot_free in Hslot.
        apply orb_false_iff in Hslot as [H1 H2].
        apply Z.ltb_ge in H1, H2. cbn in H2. lia.
    + exists Caller. unfold step. rewrite Hi, Hlt. eauto.
  - destruct (active s) as [|u act] eqn:Ha.
    + exists Caller. unfold step. rewrite Hi, Ha. eauto.
    + apply Hunit. congruence.
Qed.

(** From a sound state some run goes on to the return of the call. *)
Lemma run_completes b addresses opts n :
  0 < BalanceBatchSize b <= int_max ->
  2 * Z.of_nat (length addresses) <= int_max ->
  ThreadLimit b <> 0 ->
  forall s,
    sound b addresses s ->
    (moves_left (Z.of_nat (length addresses)) (BalanceBatchSize b) (Running s) <= n)%nat ->
    exists script r,
      run b addresses opts script (Running s) = Some (Finished r).
Proof.
  intros Hsize Hfits Hlimit.
  induction n as [|n IH]; intros s Hs Hn.
  - cbn [moves_left] in Hn. destruct (pc s); lia.
  - destruct (progress b addresses opts s Hlimit) as (m & c & Hstep).
    destruct (step_sound b addresses opts Hsize Hfits m s c Hs Hstep)
      as (Hnc & Hs' & Hm).
    destruct c as [s'|r|]; [| |congruence].
    + destruct (IH s' (Hs' s' eq_refl) ltac:(lia)) as (script & r & Hrun).
      exists (m :: script), r. cbn [run]. now rewrite Hstep.
    + exists [m], r. cbn [run]. now rewrite Hstep.
Qed.

(** ** The runs and the units in finishing order *)

Lemma run_units_snoc b addresses opts u done : forall bal firstErr e bal',
  run_units b addresses opts done bal firstErr = (Returned e, bal') ->
  run_units b addresses opts (done ++ [u]) bal firstErr =
    match chunk_unit b addresses opts u bal' with
    | (Panicked, bal'') => (Panicked, bal'')
    | (Returned e', bal'') =>
        (Returned match e with Some _ => e | None => e' end, bal'')
    end.
Proof.
  induction done as [|v rest IH]; intros bal firstErr e bal' H.
  - cbn [run_units] in H. injection H as <- <-. cbn [app run_units].
    now destruct (chunk_unit b addresses opts u bal) as [[e'|] bal''].
  - cbn [app run_units] in *.
    destruct (chunk_unit b addresses opts v bal) as [[e0|] bal0]; [|discriminate].
    now apply IH.
Qed.

(** A move keeps the state in step with the finished units; the move that
    returns, returns what they leave. *)
Lemma step_traced b addresses opts m s c :
  0 < BalanceBatchSize b <= int_max ->
  2 * Z.of_nat (length addresses) <= int_max ->
  sound b addresses s ->
  traced b addresses opts s ->
  step b addresses opts m s = Some c ->
  (forall s', c = Running s' -> traced b addresses opts s') /\
  (forall r, c = Finished r ->
     exists order,
       Permutation order
         (chunks (chunk_count (Z.of_nat (length addresses)) (BalanceBatchSize b) 0)
            (Z.of_nat (length addresses)) (BalanceBatchSize b) 0) /\
       exists e bal,
         run_units b addresses opts order (replicate (length addresses) None) None =
           (Returned e, bal) /\
         r = match e with
             | Some err => (None, Some (Wrapf "error getting balances: %w" [] err))
             | None => (Some bal, None)
             end).
Proof.
  intros Hsize Hfits Hs (done & Hperm & Hdone) Hstep.
  destruct m as [|k].
  - destruct (pc s) as [i|] eqn:Hi.
    + destruct (i <? Z.of_nat (length addresses)) eqn:Hlt.
      * apply Z.ltb_lt in Hlt.
        destruct (slot_free (ThreadLimit b) (active s)) eqn:Hslot.
        -- rewrite (step_spawn b addresses opts Hsize Hfits s i Hs Hi Hlt Hslot) in Hstep.
           injection Hstep as <-. split; [|discriminate].
           intros s' [= <-]. exists done. cbn [active pc cells held remaining].
           split; [|exact Hdone].
           cbn [remaining] in Hperm.
           rewrite chunk_count_step in Hperm by lia. cbn [chunks] in Hperm.
           now rewrite <- app_assoc.
        -- unfold step in Hstep. rewrite Hi in Hstep.
           destruct (i <? Z.of_nat (length addresses)) eqn:H1;
             [|apply Z.ltb_ge in H1; lia].
           rewrite Hslot in Hstep. discriminate.
      * unfold step in Hstep. rewrite Hi, Hlt in Hstep. apply Z.ltb_ge in Hlt.
        injection Hstep as <-. split; [|discriminate].
        intros s' [= <-]. exists done. cbn [active pc cells held remaining].
        split; [|exact Hdone].
        cbn [remaining] in Hperm.
        now rewrite chunk_count_done in Hperm by lia.
    + unfold step in Hstep. rewrite Hi in Hstep.
      destruct (active s) as [|u act] eqn:Ha; [|discriminate].
      injection Hstep as <-. split; [discriminate|].
      intros r [= <-]. exists done. split.
      * cbn [remaining] in Hperm.
        now rewrite !app_nil_r in Hperm.
      * exists (held s), (cells s). split; [exact Hdone|].
        now destruct (held s).
  - unfold step in Hstep.
    destruct (active s !! k) as [u|] eqn:Hk; [|discriminate].
    pose proof (run_units_snoc b addresses opts u done _ _ _ _ Hdone) as Hsnoc.
    destruct (chunk_unit b addresses opts u (cells s)) as [[e|] cells'];
      injection Hstep as <-; split; try discriminate.
    intros s' [= <-]. exists (done ++ [u]). cbn [active pc cells held].
    split; [|exact Hsnoc].
    rewrite <- app_assoc. cbn [app].
    etransitivity; [|exact Hperm].
    apply Permutation_app_head.
    change (Permutation ((u :: delete k (active s)) ++ remaining
                           (Z.of_nat (length addresses)) (BalanceBatchSize b) (pc s))
              (active s ++ remaining
                           (Z.of_nat (length addresses)) (BalanceBatchSize b) (pc s))).
    apply Permutation_app_tail. symmetry. now apply delete_Permutation.
Qed.

Lemma run_traced b addresses opts script : forall s r,
  0 < BalanceBatchSize b <= int_max ->
  2 * Z.of_nat (length addresses) <= int_max ->
  sound b addresses s ->
  traced b addresses opts s ->
  run b addresses opts script (Running s) = Some (Finished r) ->
  exists order,
    Permutation order
      (chunks (chunk_count (Z.of_nat (length addresses)) (BalanceBatchSize b) 0)
         (Z.of_nat (length addresses)) (BalanceBatchSize b) 0) /\
    exists e bal,
      run_units b addresses opts order (replicate (length addresses) None) None =
        (Returned e, bal) /\
      r = match e with
          | Some err => (None, Some (Wrapf "error getting balances: %w" [] err))
          | None => (Some bal, None)
          end.
Proof.
  induction script as [|m rest IH]; intros s r Hsize Hfits Hs Ht Hrun;
    [discriminate|].
  cbn [run] in Hrun.
  destruct (step b addresses opts m s) as [c1|] eqn:Hstep; [|discriminate].
  destruct (step_sound b addresses opts Hsize Hfits m s c1 Hs Hstep) as (_ & Hs1 & _).
  destruct (step_traced b addresses opts m s c1 Hsize Hfits Hs Ht Hstep) as (Ht1 & Hr).
  destruct c1 as [s1|r1|].
  - exact (IH s1 r Hsize Hfits (Hs1 s1 eq_refl) (Ht1 s1 eq_refl) Hrun).
  - destruct rest; [|discriminate]. injection Hrun as <-. now apply Hr.
  - destruct rest; discriminate.
Qed.

(** ** Chunk size zero *)

Lemma run_zero b addresses opts script : forall s c,
  BalanceBatchSize b = 0 ->
  0 < Z.of_nat (length addresses) <= int_max ->
  length (cells s) = length addresses ->
  in_bounds addresses (active s) ->
  pc s = AtLoop 0 ->
  run b addresses opts script (Running s) = Some c ->
  exists s', c = Running s' /\ pc s' = AtLoop 0.
Proof.
  induction script as [|m rest IH]; intros s c Hsize Hcount Hlen Hb Hpc Hrun.
  - injection Hrun as <-. eauto.
  - cbn [run] in Hrun.
    destruct (step b addresses opts m s) as [c1|] eqn:Hstep; [|discriminate].
    assert (H1 : exists s1, c1 = Running s1 /\ length (cells s1) = length addresses /\
                   in_bounds addresses (active s1) /\ pc s1 = AtLoop 0).
    { unfold step in Hstep. destruct m as [|k].
      - rewrite Hpc, Hsize in Hstep. change (int_wrap (0 + 0)) with 0 in Hstep.
        destruct (0 <? Z.of_nat (length addresses)) eqn:Hlt;
          [|apply Z.ltb_ge in Hlt; lia].
        destruct (0 >? Z.of_nat (length addresses)) eqn:Hgt;
          [apply Z.gtb_lt in Hgt; lia|].
        destruct (slot_free _ _); [|discriminate].
        injection Hstep as <-. eexists. split; [reflexivity|].
        cbn [cells active pc]. split; [exact Hlen|]. split; [|reflexivity].
        intros lo hi Hin. apply in_app_or in Hin as [Hin|[[= <- <-]|[]]].
        + now apply Hb.
        + lia.
      - destruct (active s !! k) as [[lo hi]|] eqn:Hk; [|discriminate].
        assert (Hin : In (lo, hi) (active s)).
        { apply list_elem_of_In, list_elem_of_lookup. eauto. }
        destruct (Hb lo hi Hin) as [Hlo Hhi].
        pose proof (chunk_unit_no_panic b addresses opts ltac:(lia) lo hi (cells s)
                      Hlo Hhi Hlen) as Hnp.
        pose proof (chunk_unit_length b addresses opts (lo, hi) (cells s)) as Hl.
        destruct (chunk_unit b addresses opts (lo, hi) (cells s)) as [[e|] cells'];
          cbn [fst snd] in *; [|congruence].
        injection Hstep as <-. eexists. split; [reflexivity|].
        cbn [cells active pc]. split; [congruence|].
        split; [apply in_bounds_delete, Hb|exact Hpc]. }
    destruct H1 as (s1 & -> & Hlen1 & Hb1 & Hpc1).
    eapply IH; eauto.
Qed.

(** ** Negative chunk size *)

Section Negative.

Variable b : BalanceBatcher.
Variable addresses : list Address.
Variable opts : option CallOpts.

Hypothesis size_neg : int_min <= BalanceBatchSize b < 0.
Hypothesis some_address : addresses <> [].

Let count := Z.of_nat (length addresses).
Let size := BalanceBatchSize b.

Lemma count_pos : 0 < count.
Proof.
  unfold count. destruct addresses; [congruence|]. cbn [length]. lia.
Qed.

(** Every unit the loop can start slices out of range. *)
Lemma spawned_panics i :
  int_min <= i <= int_max -> i < count ->
  panics b addresses opts
    (i, if int_wrap (i + size) >? count then count else int_wrap (i + size)).
Proof.
  intros Hi Hlt cells0. unfold chunk_unit, slice.
  destruct (0 <=? i) eqn:H0; [|reflexivity].
  apply Z.leb_le in H0.
  rewrite int_wrap_small by (unfold int_min, int_max, size in *; lia).
  destruct (i + size >? count) eqn:Hgt.
  { apply Z.gtb_lt in Hgt. unfold size in *. lia. }
  destruct (i <=? i + size) eqn:H1; [|reflexivity].
  apply Z.leb_le in H1. unfold size in *. lia.
Qed.

Lemma doomed_start : doomed b addresses opts (start addresses).
Proof.
  unfold doomed, start. cbn [active pc].
  split; [intros u []|]. split; [unfold int_min, int_max; lia|reflexivity].
Qed.

(** A move of a doomed state never is the return of the call, and the move
    of a unit is the end of the program. *)
Lemma step_doomed m s c :
  doomed b addresses opts s ->
  step b addresses opts m s = Some c ->
  (forall r, c <> Finished r) /\
  (forall s', c = Running s' -> doomed b addresses opts s') /\
  (forall k, m = Unit k -> c = Crashed).
Proof.
  intros (Hact & Hpc) Hstep. pose proof count_pos as Hcount.
  unfold step in Hstep. fold count size in Hstep.
  destruct m as [|k].
  - split; [|split; [|discriminate]].
    + destruct (pc s) as [i|].
      * destruct (i <? count); [destruct (slot_free _ _)|];
          injection Hstep as <- || discriminate Hstep; discriminate.
      * destruct (active s); [tauto|discriminate].
    + destruct (pc s) as [i|].
      * destruct Hpc as [Hi Hzero].
        destruct (i <? count) eqn:Hlt.
        -- apply Z.ltb_lt in Hlt.
           destruct (slot_free _ _); [|discriminate].
           injection Hstep as <-. intros s' [= <-].
           unfold doomed. cbn [active pc]. split.
           ++ intros u Hin. apply in_app_or in Hin as [Hin|[<-|[]]].
              ** now apply Hact.
              ** now apply spawned_panics.
           ++ split; [apply int_wrap_range|].
              intros Hnil. destruct (active s); discriminate.
        -- apply Z.ltb_ge in Hlt. injection Hstep as <-. intros s' [= <-].
           unfold doomed. cbn [active pc]. split; [exact Hact|].
           intros Hnil. specialize (Hzero Hnil). lia.
      * destruct (active s); [tauto|discriminate].
  - destruct (active s !! k) as [u|] eqn:Hk; [|discriminate].
    assert (Hin : In u (active s)).
    { apply list_elem_of_In, list_elem_of_lookup. eauto. }
    rewrite (Hact u Hin (cells s)) in Hstep. injection Hstep as <-.
    split; [discriminate|]. split; [discriminate|reflexivity].
Qed.

Lemma run_doomed script : forall s c,
  doomed b addresses opts s ->
  run b addresses opts script (Running s) = Some c ->
  (forall r, c <> Finished r) /\
  (forall s', c = Running s' -> doomed b addresses opts s').
Proof.
  induction script as [|m rest IH]; intros s c Hs Hrun.
  - injection Hrun as <-. split; [discriminate|]. now intros s' [= <-].
  - cbn [run] in Hrun.
    destruct (step b addresses opts m s) as [c1|] eqn:Hstep; [|discriminate].
    destruct (step_doomed m s c1 Hs Hstep) as (Hnf & Hs1 & _).
    destruct c1 as [s1|r|].
    + exact (IH s1 c (Hs1 s1 eq_refl) Hrun).
    + destruct (Hnf r eq_refl).
    + destruct rest; [|discriminate]. injection Hrun as <-.
      split; discriminate.
Qed.

(** The first move of the caller starts the unit with bounds [0 : size]. *)
Lemma step_first_negative :
  ThreadLimit b <> 0 ->
  step b addresses opts Caller (start addresses) =
    Some (Running {| pc := AtLoop size; active := [(0, size)];
                     cells := replicate (length addresses) None; held := None |}).
Proof.
  intros Hlimit. pose proof count_pos as Hcount.
  unfold step, start. cbn [pc active cells held]. fold count size.
  destruct (0 <? count) eqn:Hlt; [|apply Z.ltb_ge in Hlt; lia].
  change (0 + size) with size.
  rewrite (int_wrap_small size) by (unfold int_min, int_max, size in *; lia).
  destruct (size >? count) eqn:Hgt; [apply Z.gtb_lt in Hgt; unfold size in *; lia|].
  assert (Hslot : slot_free (ThreadLimit b) [] = true).
  { unfold slot_free. cbn [length]. change (Z.of_nat 0) with 0.
    destruct (ThreadLimit b <? 0) eqn:H1; [reflexivity|].
    destruct (0 <? ThreadLimit b) eqn:H2; [reflexivity|].
    apply Z.ltb_ge in H1, H2. lia. }
  now rewrite Hslot.
Qed.

End Negative.

(** ** Termination of the chunking loop *)

(** C10, as the code has it.  Take any interleaving of the caller and the
    units.
    - With a positive chunk size and a limit that is not zero the loop
      terminates: no run has more than two moves per chunk and two more,
      none ends in a panic, none is stuck before the call returns, and some
      run does reach the return.  While the caller is in the loop at an
      index below the list length, its move, once a slot is free, starts
      the chunk from that index and adds the chunk size to the index; at an
      index that has reached the list length its move leaves the loop.
    - With limit zero and a non-empty list nothing can move: the caller
      waits in the first [wg.Go] for ever.
    - With chunk size zero, a limit that is not zero and a non-empty list
      the caller never leaves the loop: in every run it stays at index 0,
      and the run can always go on.
    - With a negative chunk size, a limit that is not zero and a non-empty
      list the first move starts the unit with bounds [0 : size], whose
      slice expression panics. *)
Theorem GetEthBalances_loop_termination b addresses opts :
  2 * Z.of_nat (length addresses) <= int_max ->
  int_min <= BalanceBatchSize b <= int_max ->
  (0 < BalanceBatchSize b -> ThreadLimit b <> 0 ->
     (exists script r,
        run b addresses opts script (Running (start addresses)) = Some (Finished r)) /\
     forall script c,
       run b addresses opts script (Running (start addresses)) = Some c ->
       (length script <=
          2 * chunk_count (Z.of_nat (length addresses)) (BalanceBatchSize b) 0 + 2)%nat /\
       c <> Crashed /\
       forall s, c = Running s ->
         can_move b addresses opts s /\
         forall i, pc s = AtLoop i ->
           (i < Z.of_nat (length addresses) ->
            slot_free (ThreadLimit b) (active s) = true ->
            i < i + BalanceBatchSize b /\
            step b addresses opts Caller s =
              Some (Running
                      {| pc := AtLoop (i + BalanceBatchSize b);
                         active := active s ++
                           [(i, Z.min (i + BalanceBatchSize b)
                                  (Z.of_nat (length addresses)))];
                         cells := cells s; held := held s |})) /\
           (Z.of_nat (length addresses) <= i ->
            step b addresses opts Caller s =
              Some (Running {| pc := AtWait; active := active s;
                               cells := cells s; held := held s |}))) /\
  (ThreadLimit b = 0 -> addresses <> [] ->
     forall m, step b addresses opts m (start addresses) = None) /\
  (BalanceBatchSize b = 0 -> ThreadLimit b <> 0 -> addresses <> [] ->
     forall script c,
       run b addresses opts script (Running (start addresses)) = Some c ->
       left_loop c = false /\
       exists s, c = Running s /\ pc s = AtLoop 0 /\ can_move b addresses opts s) /\
  (BalanceBatchSize b < 0 -> ThreadLimit b <> 0 -> addresses <> [] ->
     step b addresses opts Caller (start addresses) =
       Some (Running {| pc := AtLoop (BalanceBatchSize b);
                        active := [(0, BalanceBatchSize b)];
                        cells := replicate (length addresses) None;
                        held := None |}) /\
     panics b addresses opts (0, BalanceBatchSize b)).
Proof.
  intros Hfits Hint.
  assert (Hne : addresses <> [] -> 0 < Z.of_nat (length addresses)).
  { destruct addresses; [congruence|]. cbn [length]. lia. }
  split; [|split; [|split]].
  - intros Hpos Hlimit.
    assert (Hsize : 0 < BalanceBatchSize b <= int_max) by lia.
    pose proof (sound_start b addresses) as Hs0.
    split.
    { apply (run_completes b addresses opts
               (moves_left (Z.of_nat (length addresses)) (BalanceBatchSize b)
                  (Running (start addresses)))); auto. }
    intros script c Hrun.
    assert (Hrs : c <> Crashed /\
              (forall s', c = Running s' -> sound b addresses s') /\
              (length script +
               moves_left (Z.of_nat (length addresses)) (BalanceBatchSize b) c <=
               moves_left (Z.of_nat (length addresses)) (BalanceBatchSize b)
                 (Running (start addresses)))%nat).
    { eapply run_sound; eauto. }
    destruct Hrs as (Hnc & Hs & Hm).
    split.
    { cbn [moves_left start pc active length] in Hm. lia. }
    split; [exact Hnc|].
    intros s ->. split; [now apply progress|].
    intros i Hi. split.
    + intros Hlt Hslot. split; [lia|].
      apply step_spawn; auto.
    + intros Hge. unfold step. rewrite Hi.
      destruct (i <? Z.of_nat (length addresses)) eqn:H1;
        [apply Z.ltb_lt in H1; lia|reflexivity].
  - intros Hlimit Hnil m. specialize (Hne Hnil).
    unfold step, start. cbn [pc active]. destruct m as [|k]; [|reflexivity].
    destruct (0 <? Z.of_nat (length addresses)) eqn:H1;
      [|apply Z.ltb_ge in H1; lia].
    now rewrite Hlimit.
  - intros Hzero Hlimit Hnil script c Hrun. specialize (Hne Hnil).
    destruct (run_zero b addresses opts script (start addresses) c Hzero
                ltac:(unfold int_max in *; lia) (length_replicate _ _)
                ltac:(intros lo hi []) eq_refl Hrun) as (s & -> & Hpc).
    split; [cbn; now rewrite Hpc|].
    exists s. split; [reflexivity|]. split; [exact Hpc|now apply progress].
  - intros Hneg Hlimit Hnil. specialize (Hne Hnil). split.
    + apply step_first_negative; auto; lia.
    + assert (Hp : panics b addresses opts
                     (0, if int_wrap (0 + BalanceBatchSize b) >?
                            Z.of_nat (length addresses)
                         then Z.of_nat (length addresses)
                         else int_wrap (0 + BalanceBatchSize b))).
      { apply spawned_panics; auto; unfold int_min, int_max in *; lia. }
      change (0 + BalanceBatchSize b) with (BalanceBatchSize b) in Hp.
      rewrite (int_wrap_small (BalanceBatchSize b)) in Hp by exact Hint.
      destruct (BalanceBatchSize b >? Z.of_nat (length addresses)) eqn:Hgt;
        [apply Z.gtb_lt in Hgt; lia|exact Hp].
Qed.

Lemma GetEthBalances_loop_termination_witness :
  ((exists script r,
      run (BalanceScenario.batcher BalanceScenario.ledgerAbi Scenario.echoClient 2 2)
        BalanceScenario.five None script (Running (start BalanceScenario.five)) =
        Some (Finished r)) /\
   forall script c,
     run (BalanceScenario.batcher BalanceScenario.ledgerAbi Scenario.echoClient 2 2)
       BalanceScenario.five None script (Running (start BalanceScenario.five)) = Some c ->
     (length script <= 8)%nat /\ c <> Crashed) /\
  (forall m,
     step (BalanceScenario.batcher BalanceScenario.ledgerAbi Scenario.echoClient 2 0)
       BalanceScenario.five None m (start BalanceScenario.five) = None) /\
  (forall script c,
     run (BalanceScenario.batcher BalanceScenario.ledgerAbi Scenario.echoClient 0 2)
       BalanceScenario.five None script (Running (start BalanceScenario.five)) = Some c ->
     left_loop c = false) /\
  (step (BalanceScenario.batcher BalanceScenario.ledgerAbi Scenario.echoClient (-1) 2)
     BalanceScenario.five None Caller (start BalanceScenario.five) =
     Some (Running {| pc := AtLoop (-1); active := [(0, -1)];
                      cells := replicate 5 None; held := None |}) /\
   panics (BalanceScenario.batcher BalanceScenario.ledgerAbi Scenario.echoClient (-1) 2)
     BalanceScenario.five None (0, -1)).
Proof.
  assert (Hfits : 2 * Z.of_nat (length BalanceScenario.five) <= int_max)
    by (cbn; unfold int_max; lia).
  split; [|split; [|split]].
  - destruct (GetEthBalances_loop_termination
                (BalanceScenario.batcher BalanceScenario.ledgerAbi Scenario.echoClient 2 2)
                BalanceScenario.five None Hfits) as (H & _ & _ & _).
    + cbn. unfold int_min, int_max. lia.
    + destruct H as [Hex Hall]; [cbn; lia|cbn; lia|].
      split; [exact Hex|]. intros script c Hrun.
      destruct (Hall script c Hrun) as (Hlen & Hnc & _).
      split; [exact Hlen|exact Hnc].
  - destruct (GetEthBalances_loop_termination
                (BalanceScenario.batcher BalanceScenario.ledgerAbi Scenario.echoClient 2 0)
                BalanceScenario.five None Hfits) as (_ & H & _ & _).
    + cbn. unfold int_min, int_max. lia.
    + apply H; [reflexivity|discriminate].
  - destruct (GetEthBalances_loop_termination
                (BalanceScenario.batcher BalanceScenario.ledgerAbi Scenario.echoClient 0 2)
                BalanceScenario.five None Hfits) as (_ & _ & H & _).
    + cbn. unfold int_min, int_max. lia.
    + intros script c Hrun.
      destruct (H eq_refl ltac:(cbn; lia) ltac:(discriminate) script c Hrun) as [Hl _].
      exact Hl.
  - destruct (GetEthBalances_loop_termination
                (BalanceScenario.batcher BalanceScenario.ledgerAbi Scenario.echoClient (-1) 2)
                BalanceScenario.five None Hfits) as (_ & _ & _ & H).
    + cbn. unfold int_min, int_max. lia.
    + apply H; [cbn; lia|cbn; lia|discriminate].
Defined.

(** C10 as stated fails in two ways.  A negative chunk size does not keep
    the caller in the loop: with one address and chunk size [-2^62] the
    index runs 0, [-2^62], [-2^63], wraps around to [2^62], and when the
    caller makes its moves before any unit does, the fourth one leaves the
    loop with three units started.  And a positive chunk size does not make
    the loop terminate when the thread limit is zero: with five addresses
    and chunk size 2 no move at all is possible, the caller waits in the
    first [wg.Go]. *)
Lemma GetEthBalances_loop_refuted :
  chunk_loop 4 1 (- 2 ^ 62) 0 =
    Some [(0, - 2 ^ 62); (- 2 ^ 62, - 2 ^ 63); (- 2 ^ 63, 1)] /\
  ~ (forall fuel, chunk_loop fuel 1 (- 2 ^ 62) 0 = None) /\
  (let c := Running {| pc := AtWait;
                       active := [(0, - 2 ^ 62); (- 2 ^ 62, - 2 ^ 63); (- 2 ^ 63, 1)];
                       cells := [None]; held := None |} in
   run (BalanceScenario.batcher BalanceScenario.ledgerAbi Scenario.echoClient (- 2 ^ 62) 3)
     [10%N] None [Caller; Caller; Caller; Caller] (Running (start [10%N])) = Some c /\
   left_loop c = true) /\
  (forall m script,
     run (BalanceScenario.batcher BalanceScenario.ledgerAbi Scenario.echoClient 2 0)
       BalanceScenario.five None (m :: script) (Running (start BalanceScenario.five)) =
       None).
Proof.
  assert (H : chunk_loop 4 1 (- 2 ^ 62) 0 =
                Some [(0, - 2 ^ 62); (- 2 ^ 62, - 2 ^ 63); (- 2 ^ 63, 1)])
    by (vm_compute; reflexivity).
  split; [exact H|]. split; [|split].
  - intros Hall. rewrite (Hall 4%nat) in H. discriminate.
  - split; vm_compute; reflexivity.
  - intros m script. cbn [run]. destruct m as [|k]; vm_compute; reflexivity.
Qed.

End BalanceStepsProperties.

(** * Further properties of the multicaller *)

Section MultiCallerPaths.
Import MultiCaller MultiCallerSpec MultiCallerNotions.

(** ** The loops *)

(** The encode pass stops at the first encode step that fails: the steps
    that ran are those of the positions up to it. *)
Lemma pack_loop_stops cs : forall i,
  encoded cs = None ->
  exists cs' j c err,
    pack_loop i cs = (cs', map EvPack (seq i (S j)), Some err) /\
    cs !! j = Some c /\ PackFunc c tt = Err err /\
    (forall k c', k < j -> cs !! k = Some c' -> exists d, PackFunc c' tt = Ok d) /\
    length cs' = length cs /\
    Forall2 same_descriptor cs cs'.
Proof.
  induction cs as [|c rest IH]; intros i H; simpl in *; [discriminate|].
  destruct (PackFunc c tt) as [d|e] eqn:Hp.
  - destruct (encoded rest) eqn:He; [discriminate|].
    destruct (IH (S i) eq_refl) as (cs' & j & c0 & err & -> & Hj & Hf & Hb & Hl & HF).
    exists (set_CallData c d :: cs'), (S j), c0, err.
    repeat split; simpl; auto.
    + intros [|k] c' Hk Hc'; simpl in Hc'.
      * injection Hc' as <-. eauto.
      * apply (Hb k c'); [lia|exact Hc'].
    + constructor; [repeat split|exact HF].
  - exists (c :: rest), 0, c, e.
    repeat split; simpl; auto.
    + intros k c' Hk. lia.
    + clear. induction (c :: rest); constructor; [repeat split|assumption].
Qed.

Lemma encoded_lookup cs : forall l k c,
  encoded cs = Some l -> cs !! k = Some c -> exists d, PackFunc c tt = Ok d.
Proof.
  induction cs as [|c0 rest IH]; intros l k c H Hk; [discriminate|].
  simpl in H.
  destruct (PackFunc c0 tt) as [d|] eqn:Hp; [|discriminate].
  destruct (encoded rest) as [l'|] eqn:He; [|discriminate].
  destruct k as [|k]; simpl in Hk.
  - injection Hk as <-. eauto.
  - eapply IH; eauto.
Qed.

Lemma unpack_loop_only_unpacks cs : forall i results,
  forallb is_unpack (unpack_loop i cs results).2 = true.
Proof.
  induction cs as [|c rest IH]; intros i results; simpl; auto.
  destruct (results !! i) as [r|]; simpl; auto.
  specialize (IH (S i) results).
  destruct (Status r).
  - destruct (UnpackFunc c (ReturnData r)); simpl; auto.
    destruct (unpack_loop (S i) rest results); simpl in *. exact IH.
  - destruct (unpack_loop (S i) rest results); simpl in *. exact IH.
Qed.

Lemma unpack_loop_done_length cs : forall i results res,
  (unpack_loop i cs results).1 = UnpackDone res -> length res = length cs.
Proof.
  induction cs as [|c rest IH]; intros i results res H; simpl in *.
  - now injection H as <-.
  - destruct (results !! i) as [r|]; [|discriminate].
    destruct (Status r).
    + destruct (UnpackFunc c (ReturnData r)); [discriminate|].
      specialize (IH (S i) results).
      destruct (unpack_loop (S i) rest results) as [[res'|err|] tr];
        simpl in *; try discriminate.
      injection H as <-. simpl. now rewrite (IH res').
    + specialize (IH (S i) results).
      destruct (unpack_loop (S i) rest results) as [[res'|err|] tr];
        simpl in *; try discriminate.
      injection H as <-. simpl. now rewrite (IH res').
Qed.

(** ** The paths through [FlexibleCall] *)

Lemma FlexibleCall_path_encode abi rs opts mc :
  encoded (calls mc) = None ->
  exists calls1 j c err,
    calls mc !! j = Some c /\ PackFunc c tt = Err err /\
    (forall k c', k < j -> calls mc !! k = Some c' -> exists d, PackFunc c' tt = Ok d) /\
    Forall2 same_descriptor (calls mc) calls1 /\
    FlexibleCall abi rs opts mc =
      {| ret := Returned (None, Some err); after := set_calls mc calls1;
         trace := map EvPack (seq 0 (S j)) |}.
Proof.
  intros Henc.
  destruct (pack_loop_stops (calls mc) 0 Henc)
    as (calls1 & j & c & err & Hpl & Hj & Hf & Hb & _ & HF).
  exists calls1, j, c, err. repeat split; auto.
  unfold FlexibleCall.
  destruct (calls mc) as [|c0 rest] eqn:Hcs; [discriminate|].
  cbn [length Nat.eqb]. now rewrite Hpl.
Qed.

Lemma FlexibleCall_path_pack abi rs opts mc l err :
  calls mc <> [] ->
  encoded (calls mc) = Some l ->
  Pack_tryAggregate abi rs l = Err err ->
  exists calls1,
    Forall2 same_descriptor (calls mc) calls1 /\
    FlexibleCall abi rs opts mc =
      {| ret := Returned (None, Some (Wrapf "error packing aggregated call data: %w" [] err));
         after := set_calls mc calls1;
         trace := map EvPack (seq 0 (length (calls mc))) |}.
Proof.
  intros Hne Henc Hpack.
  destruct (pack_loop_encoded (calls mc) 0 l Henc) as (calls1 & Hpl & Hmap & HF).
  exists calls1. split; [exact HF|].
  unfold FlexibleCall.
  destruct (calls mc) as [|c0 rest] eqn:Hcs; [congruence|].
  cbn [length Nat.eqb]. rewrite Hpl. now rewrite Hmap, Hpack.
Qed.

Lemma FlexibleCall_path_dispatch abi rs opts mc l callData err :
  calls mc <> [] ->
  encoded (calls mc) = Some l ->
  Pack_tryAggregate abi rs l = Ok callData ->
  CallContract (client mc) {| To := Some (contractAddress mc); Data := callData |}
    (blockNumber_of opts) = Err err ->
  exists calls1,
    Forall2 same_descriptor (calls mc) calls1 /\
    FlexibleCall abi rs opts mc =
      {| ret := Returned (None, Some (Wrapf "error calling multicall contract: %w" [] err));
         after := set_calls mc calls1;
         trace := map EvPack (seq 0 (length (calls mc))) ++
                  [EvCallContract {| To := Some (contractAddress mc); Data := callData |}
                     (blockNumber_of opts)] |}.
Proof.
  intros Hne Henc Hpack Hcall.
  destruct (pack_loop_encoded (calls mc) 0 l Henc) as (calls1 & Hpl & Hmap & HF).
  exists calls1. split; [exact HF|].
  unfold FlexibleCall.
  destruct (calls mc) as [|c0 rest] eqn:Hcs; [congruence|].
  cbn [length Nat.eqb]. rewrite Hpl. cbn [set_calls calls client contractAddress].
  now rewrite Hmap, Hpack, Hcall.
Qed.

Lemma FlexibleCall_path_unpack abi rs opts mc l callData resp err :
  calls mc <> [] ->
  encoded (calls mc) = Some l ->
  Pack_tryAggregate abi rs l = Ok callData ->
  CallContract (client mc) {| To := Some (contractAddress mc); Data := callData |}
    (blockNumber_of opts) = Ok resp ->
  Unpack_tryAggregate abi resp = Err err ->
  exists calls1,
    Forall2 same_descriptor (calls mc) calls1 /\
    FlexibleCall abi rs opts mc =
      {| ret := Returned (None, Some (Wrapf "error unpacking aggregated response data: %w" [] err));
         after := set_calls mc calls1;
         trace := map EvPack (seq 0 (length (calls mc))) ++
                  [EvCallContract {| To := Some (contractAddress mc); Data := callData |}
                     (blockNumber_of opts)] |}.
Proof.
  intros Hne Henc Hpack Hcall Hunpack.
  destruct (pack_loop_encoded (calls mc) 0 l Henc) as (calls1 & Hpl & Hmap & HF).
  exists calls1. split; [exact HF|].
  unfold FlexibleCall.
  destruct (calls mc) as [|c0 rest] eqn:Hcs; [congruence|].
  cbn [length Nat.eqb]. rewrite Hpl. cbn [set_calls calls client contractAddress].
  now rewrite Hmap, Hpack, Hcall, Hunpack.
Qed.

Lemma FlexibleCall_path_loop abi rs opts mc l callData resp results :
  calls mc <> [] ->
  encoded (calls mc) = Some l ->
  Pack_tryAggregate abi rs l = Ok callData ->
  CallContract (client mc) {| To := Some (contractAddress mc); Data := callData |}
    (blockNumber_of opts) = Ok resp ->
  Unpack_tryAggregate abi resp = Ok results ->
  exists calls1,
    Forall2 same_descriptor (calls mc) calls1 /\
    FlexibleCall abi rs opts mc =
      let tr2 := map EvPack (seq 0 (length (calls mc))) ++
                 [EvCallContract {| To := Some (contractAddress mc); Data := callData |}
                    (blockNumber_of opts)] in
      match unpack_loop 0 (calls mc) results with
      | (UnpackOutOfRange, tr3) =>
          {| ret := Panicked; after := set_calls mc calls1; trace := tr2 ++ tr3 |}
      | (UnpackFailed err, tr3) =>
          {| ret := Returned (None, Some err); after := set_calls mc [];
             trace := tr2 ++ tr3 |}
      | (UnpackDone res, tr3) =>
          {| ret := Returned (Some res, None); after := set_calls mc [];
             trace := tr2 ++ tr3 |}
      end.
Proof.
  intros Hne Henc Hpack Hcall Hunpack.
  destruct (pack_loop_encoded (calls mc) 0 l Henc) as (calls1 & Hpl & Hmap & HF).
  exists calls1. split; [exact HF|].
  unfold FlexibleCall.
  destruct (calls mc) as [|c0 rest] eqn:Hcs; [congruence|].
  cbn [length Nat.eqb]. rewrite Hpl. cbn [set_calls calls client contractAddress].
  rewrite Hmap, Hpack, Hcall, Hunpack.
  rewrite (unpack_loop_same_descriptor _ _ HF). cbv zeta.
  destruct (unpack_loop 0 (c0 :: rest) results) as [[res|err|] tr3]; reflexivity.
Qed.

(** Case analysis along the paths of [FlexibleCall]: the empty queue, the
    four early returns and the per-descriptor loop. *)
Ltac flexible_paths abi rs opts mc :=
  let Hne := fresh "Hne" in
  let l := fresh "l" in
  let Henc := fresh "Henc" in
  let callData := fresh "callData" in
  let resp := fresh "resp" in
  let results := fresh "results" in
  let err := fresh "err" in
  let calls1 := fresh "calls1" in
  let HF := fresh "HF" in
  let Hpack := fresh "Hpack" in
  let Hcall := fresh "Hcall" in
  let Hunpack := fresh "Hunpack" in
  let Hrun := fresh "Hrun" in
  let j := fresh "j" in
  let c := fresh "c" in
  assert (Hne : calls mc = [] \/ calls mc <> [])
    by (destruct (calls mc); [left; reflexivity|right; discriminate]);
  destruct Hne as [Hne|Hne];
  [ assert (Hrun : FlexibleCall abi rs opts mc =
                     {| ret := Returned (Some [], None); after := mc; trace := [] |})
      by (unfold FlexibleCall; rewrite Hne; reflexivity)
  | destruct (encoded (calls mc)) as [l|] eqn:Henc;
    [ destruct (Pack_tryAggregate abi rs l) as [callData|err] eqn:Hpack;
      [ destruct (CallContract (client mc)
                    {| To := Some (contractAddress mc); Data := callData |}
                    (blockNumber_of opts)) as [resp|err] eqn:Hcall;
        [ destruct (Unpack_tryAggregate abi resp) as [results|err] eqn:Hunpack;
          [ destruct (FlexibleCall_path_loop abi rs opts mc l callData resp results
                        Hne Henc Hpack Hcall Hunpack) as (calls1 & HF & Hrun)
          | destruct (FlexibleCall_path_unpack abi rs opts mc l callData resp err
                        Hne Henc Hpack Hcall Hunpack) as (calls1 & HF & Hrun) ]
        | destruct (FlexibleCall_path_dispatch abi rs opts mc l callData err
                      Hne Henc Hpack Hcall) as (calls1 & HF & Hrun) ]
      | destruct (FlexibleCall_path_pack abi rs opts mc l err Hne Henc Hpack)
          as (calls1 & HF & Hrun) ]
    | destruct (FlexibleCall_path_encode abi rs opts mc Henc)
        as (calls1 & j & c & err & _ & _ & _ & HF & Hrun) ] ];
  rewrite Hrun in *; clear Hrun.

(** ** What every execution returns *)

(** X1.  Whenever [FlexibleCall] returns, exactly one of the flag list and
    the error is nil. *)
Theorem FlexibleCall_result_xor_error abi requireSuccess opts mc r e :
  ret (FlexibleCall abi requireSuccess opts mc) = Returned (r, e) ->
  (r = None /\ e <> None) \/ (r <> None /\ e = None).
Proof.
  flexible_paths abi requireSuccess opts mc; cbv zeta;
    try (cbn [ret]; intros [= <- <-]; (left + right); split; congruence).
  destruct (unpack_loop 0 (calls mc) results) as [[res|err|] tr3]; cbn [ret];
    intros [= <- <-] || discriminate;
    (left + right); split; congruence.
Qed.

Lemma FlexibleCall_result_xor_error_witness :
  (Some [true; false; true] = None /\ @None error <> None) \/
  (Some [true; false; true] <> None /\ @None error = None).
Proof.
  apply (FlexibleCall_result_xor_error
           (Scenario.stubAbi [Scenario.yes; Scenario.no; Scenario.yes])
           false None Scenario.three (Some [true; false; true]) None).
  reflexivity.
Defined.

(** X2.  Whenever [FlexibleCall] returns a flag list, the list has one flag
    per descriptor that was queued and the queue is empty afterwards. *)
Theorem FlexibleCall_flags_per_descriptor abi requireSuccess opts mc res e :
  ret (FlexibleCall abi requireSuccess opts mc) = Returned (Some res, e) ->
  length res = length (calls mc) /\
  calls (after (FlexibleCall abi requireSuccess opts mc)) = [].
Proof.
  flexible_paths abi requireSuccess opts mc; cbv zeta;
    try (cbn [ret]; discriminate).
  - cbn [ret after]. intros [= <- <-]. now rewrite Hne.
  - pose proof (unpack_loop_done_length (calls mc) 0 results) as Hlen.
    destruct (unpack_loop 0 (calls mc) results) as [[res'|err|] tr3];
      cbn [ret after calls set_calls fst] in *; try discriminate.
    intros [= <- <-]. split; [now apply Hlen|reflexivity].
Qed.

Lemma FlexibleCall_flags_per_descriptor_witness :
  length [true; false; true] = length (calls Scenario.three) /\
  calls (after (FlexibleCall (Scenario.stubAbi [Scenario.yes; Scenario.no; Scenario.yes])
                  false None Scenario.three)) = [].
Proof.
  apply (FlexibleCall_flags_per_descriptor
           (Scenario.stubAbi [Scenario.yes; Scenario.no; Scenario.yes])
           false None Scenario.three [true; false; true] None).
  reflexivity.
Defined.

Lemma unpack_loop_unpacked_length cs : forall i results,
  length (unpacked (unpack_loop i cs results).2) <= length cs.
Proof.
  induction cs as [|c rest IH]; intros i results; simpl; auto.
  destruct (results !! i) as [r|]; simpl; [|lia].
  specialize (IH (S i) results).
  destruct (Status r).
  - destruct (UnpackFunc c (ReturnData r)); simpl; [lia|].
    destruct (unpack_loop (S i) rest results); simpl in *. lia.
  - destruct (unpack_loop (S i) rest results); simpl in *. lia.
Qed.

Ltac trace_counts :=
  cbn [trace];
  rewrite ?transport_calls_app, ?unpacked_app, ?transport_calls_packs,
    ?unpacked_packs, ?length_app;
  cbn [transport_calls unpacked List.filter is_transport omap list_omap
       app length].

(** X3.  No execution calls the client more than once, and the number of
    decode steps that run is at most the queue length times the number of
    client calls: without a dispatch no decode step runs. *)
Theorem FlexibleCall_single_dispatch abi requireSuccess opts mc :
  length (transport_calls (trace (FlexibleCall abi requireSuccess opts mc))) <= 1 /\
  length (unpacked (trace (FlexibleCall abi requireSuccess opts mc))) <=
    length (calls mc) *
    length (transport_calls (trace (FlexibleCall abi requireSuccess opts mc))).
Proof.
  flexible_paths abi requireSuccess opts mc; cbv zeta; try (trace_counts; lia).
  pose proof (unpack_loop_no_transport (calls mc) 0 results) as Ht.
  pose proof (unpack_loop_unpacked_length (calls mc) 0 results) as Hu.
  destruct (unpack_loop 0 (calls mc) results) as [[res|err|] tr3];
    cbn [fst snd] in *; trace_counts; rewrite Ht; cbn [length]; lia.
Qed.

(** ** The early returns *)

(** X4.  When the aggregate encode fails, [FlexibleCall] returns its error
    under the packing message; every encode step has run, the client has
    not been called and no decode step has run. *)
Theorem FlexibleCall_aggregate_pack_failure abi requireSuccess opts mc l err :
  calls mc <> [] ->
  encoded (calls mc) = Some l ->
  Pack_tryAggregate abi requireSuccess l = Err err ->
  ret (FlexibleCall abi requireSuccess opts mc) =
    Returned (None, Some (Wrapf "error packing aggregated call data: %w" [] err)) /\
  trace (FlexibleCall abi requireSuccess opts mc) =
    map EvPack (seq 0 (length (calls mc))).
Proof.
  intros Hne Henc Hpack.
  destruct (FlexibleCall_path_pack abi requireSuccess opts mc l err Hne Henc Hpack)
    as (calls1 & _ & ->).
  split; reflexivity.
Qed.

Lemma FlexibleCall_aggregate_pack_failure_witness :
  ret (FlexibleCall Scenario.noPackAbi true None Scenario.three) =
    Returned (None, Some (Wrapf "error packing aggregated call data: %w" []
                            (CapabilityError "abi: cannot pack"))) /\
  trace (FlexibleCall Scenario.noPackAbi true None Scenario.three) =
    map EvPack (seq 0 (length (calls Scenario.three))).
Proof.
  apply (FlexibleCall_aggregate_pack_failure Scenario.noPackAbi true None Scenario.three
           [(1%N, [Byte.x01]); (2%N, [Byte.x01]); (3%N, [Byte.x01])]
           (CapabilityError "abi: cannot pack")).
  - discriminate.
  - reflexivity.
  - reflexivity.
Defined.

(** X5.  When the client fails, [FlexibleCall] returns its error under the
    calling message; the client has been called once, with the aggregate
    bytes, the multicall contract as target and the caller's block number,
    and no decode step has run. *)
Theorem FlexibleCall_dispatch_failure abi requireSuccess opts mc l callData err :
  calls mc <> [] ->
  encoded (calls mc) = Some l ->
  Pack_tryAggregate abi requireSuccess l = Ok callData ->
  CallContract (client mc) {| To := Some (contractAddress mc); Data := callData |}
    (blockNumber_of opts) = Err err ->
  ret (FlexibleCall abi requireSuccess opts mc) =
    Returned (None, Some (Wrapf "error calling multicall contract: %w" [] err)) /\
  transport_calls (trace (FlexibleCall abi requireSuccess opts mc)) =
    [EvCallContract {| To := Some (contractAddress mc); Data := callData |}
       (blockNumber_of opts)] /\
  unpacked (trace (FlexibleCall abi requireSuccess opts mc)) = [].
Proof.
  intros Hne Henc Hpack Hcall.
  destruct (FlexibleCall_path_dispatch abi requireSuccess opts mc l callData err
              Hne Henc Hpack Hcall) as (calls1 & _ & ->).
  repeat split; trace_counts; reflexivity.
Qed.

Lemma FlexibleCall_dispatch_failure_witness :
  let mc := Scenario.queue Scenario.downClient [Scenario.goodCall 1%N "a"] in
  ret (FlexibleCall (Scenario.stubAbi []) false None mc) =
    Returned (None, Some (Wrapf "error calling multicall contract: %w" []
                            (CapabilityError "connection refused"))) /\
  transport_calls (trace (FlexibleCall (Scenario.stubAbi []) false None mc)) =
    [EvCallContract {| To := Some 9%N; Data := [Byte.x01] |} None] /\
  unpacked (trace (FlexibleCall (Scenario.stubAbi []) false None mc)) = [].
Proof.
  intros mc.
  apply (FlexibleCall_dispatch_failure (Scenario.stubAbi []) false None mc
           [(1%N, [Byte.x01])] [Byte.x01] (CapabilityError "connection refused")).
  - discriminate.
  - reflexivity.
  - reflexivity.
  - reflexivity.
Defined.

(** X6.  When the aggregate response cannot be decoded, [FlexibleCall]
    returns the codec's error under the unpacking message; the client has
    been called once and no decode step has run. *)
Theorem FlexibleCall_aggregate_unpack_failure abi requireSuccess opts mc l callData resp err :
  calls mc <> [] ->
  encoded (calls mc) = Some l ->
  Pack_tryAggregate abi requireSuccess l = Ok callData ->
  CallContract (client mc) {| To := Some (contractAddress mc); Data := callData |}
    (blockNumber_of opts) = Ok resp ->
  Unpack_tryAggregate abi resp = Err err ->
  ret (FlexibleCall abi requireSuccess opts mc) =
    Returned (None, Some (Wrapf "error unpacking aggregated response data: %w" [] err)) /\
  length (transport_calls (trace (FlexibleCall abi requireSuccess opts mc))) = 1 /\
  unpacked (trace (FlexibleCall abi requireSuccess opts mc)) = [].
Proof.
  intros Hne Henc Hpack Hcall Hunpack.
  destruct (FlexibleCall_path_unpack abi requireSuccess opts mc l callData resp err
              Hne Henc Hpack Hcall Hunpack) as (calls1 & _ & ->).
  repeat split; trace_counts; reflexivity.
Qed.

Lemma FlexibleCall_aggregate_unpack_failure_witness :
  ret (FlexibleCall Scenario.noUnpackAbi false None Scenario.three) =
    Returned (None, Some (Wrapf "error unpacking aggregated response data: %w" []
                            (CapabilityError "abi: cannot unmarshal"))) /\
  length (transport_calls (trace (FlexibleCall Scenario.noUnpackAbi false None
                                    Scenario.three))) = 1 /\
  unpacked (trace (FlexibleCall Scenario.noUnpackAbi false None Scenario.three)) = [].
Proof.
  apply (FlexibleCall_aggregate_unpack_failure Scenario.noUnpackAbi false None
           Scenario.three
           [(1%N, [Byte.x01]); (2%N, [Byte.x01]); (3%N, [Byte.x01])]
           [Byte.x01; Byte.x01; Byte.x01] [Byte.x01; Byte.x01; Byte.x01]
           (CapabilityError "abi: cannot unmarshal")).
  - discriminate.
  - reflexivity.
  - reflexivity.
  - reflexivity.
  - reflexivity.
Defined.

(** ** Executions in sequence *)

(** X7.  After an execution that returned a flag list, executing again with
    nothing enqueued is a no-op, whatever the flag and the options: it
    returns the empty list and touches neither the client nor the queue. *)
Theorem FlexibleCall_twice abi requireSuccess opts mc res e requireSuccess' opts' :
  ret (FlexibleCall abi requireSuccess opts mc) = Returned (Some res, e) ->
  FlexibleCall abi requireSuccess' opts' (after (FlexibleCall abi requireSuccess opts mc)) =
    {| ret := Returned (Some [], None);
       after := after (FlexibleCall abi requireSuccess opts mc);
       trace := [] |}.
Proof.
  flexible_paths abi requireSuccess opts mc; cbv zeta;
    try (cbn [ret]; discriminate).
  - intros _. cbn [after]. unfold FlexibleCall. rewrite Hne. reflexivity.
  - destruct (unpack_loop 0 (calls mc) results) as [[res'|err|] tr3];
      cbn [ret after]; try discriminate.
    intros _. reflexivity.
Qed.

Lemma FlexibleCall_twice_witness :
  let abi := Scenario.stubAbi [Scenario.yes; Scenario.no; Scenario.yes] in
  FlexibleCall abi true None (after (FlexibleCall abi false None Scenario.three)) =
    {| ret := Returned (Some [], None);
       after := after (FlexibleCall abi false None Scenario.three);
       trace := [] |}.
Proof.
  intros abi.
  apply (FlexibleCall_twice abi false None Scenario.three [true; false; true] None true None).
  reflexivity.
Defined.

(** ** The order of effects *)

(** X8.  When the encode pass, the aggregate encode, the dispatch and the
    aggregate decode go through, the effects come in this order: the encode
    step of every descriptor, once each and in queue order; then the one
    client call, to the multicall contract, with the aggregate bytes and the
    caller's block number; then decode steps only.  The pairs handed to the
    aggregate encoder carry the targets in queue order. *)
Theorem FlexibleCall_trace_order abi requireSuccess opts mc l callData resp results :
  calls mc <> [] ->
  encoded (calls mc) = Some l ->
  Pack_tryAggregate abi requireSuccess l = Ok callData ->
  CallContract (client mc) {| To := Some (contractAddress mc); Data := callData |}
    (blockNumber_of opts) = Ok resp ->
  Unpack_tryAggregate abi resp = Ok results ->
  map fst l = map Target (calls mc) /\
  exists tr3,
    trace (FlexibleCall abi requireSuccess opts mc) =
      map EvPack (seq 0 (length (calls mc))) ++
      EvCallContract {| To := Some (contractAddress mc); Data := callData |}
        (blockNumber_of opts) :: tr3 /\
    forallb is_unpack tr3 = true.
Proof.
  intros Hne Henc Hpack Hcall Hunpack. split.
  - clear -Henc. revert l Henc.
    induction (calls mc) as [|c rest IH]; intros l Henc; simpl in Henc.
    + now injection Henc as <-.
    + destruct (PackFunc c tt); [|discriminate].
      destruct (encoded rest) as [l'|]; [|discriminate].
      injection Henc as <-. simpl. now rewrite (IH l').
  - destruct (FlexibleCall_path_loop abi requireSuccess opts mc l callData resp results
                Hne Henc Hpack Hcall Hunpack) as (calls1 & _ & ->).
    pose proof (unpack_loop_only_unpacks (calls mc) 0 results) as Hu.
    cbv zeta.
    destruct (unpack_loop 0 (calls mc) results) as [[res|err|] tr3];
      cbn [snd trace] in *; exists tr3; (split; [|exact Hu]);
      now rewrite <- app_assoc.
Qed.

Lemma FlexibleCall_trace_order_witness :
  let abi := Scenario.stubAbi [Scenario.yes; Scenario.no; Scenario.yes] in
  map fst [(1%N, [Byte.x01]); (2%N, [Byte.x01]); (3%N, [Byte.x01])] =
    map Target (calls Scenario.three) /\
  exists tr3,
    trace (FlexibleCall abi false None Scenario.three) =
      map EvPack (seq 0 (length (calls Scenario.three))) ++
      EvCallContract {| To := Some (contractAddress Scenario.three);
                        Data := [Byte.x01; Byte.x01; Byte.x01] |}
        (blockNumber_of None) :: tr3 /\
    forallb is_unpack tr3 = true.
Proof.
  intros abi.
  apply (FlexibleCall_trace_order abi false None Scenario.three
           [(1%N, [Byte.x01]); (2%N, [Byte.x01]); (3%N, [Byte.x01])]
           [Byte.x01; Byte.x01; Byte.x01] [Byte.x01; Byte.x01; Byte.x01]
           [Scenario.yes; Scenario.no; Scenario.yes]).
  - discriminate.
  - reflexivity.
  - reflexivity.
  - reflexivity.
  - reflexivity.
Defined.

(** X9.  When the encode step of position [j] is the first to fail, the
    encode steps of the positions up to [j] are all that happened: no later
    encode step, no client call and no decode step runs. *)
Theorem FlexibleCall_encode_stops abi requireSuccess opts mc j c err :
  calls mc !! j = Some c ->
  PackFunc c tt = Err err ->
  (forall k c', k < j -> calls mc !! k = Some c' -> exists d, PackFunc c' tt = Ok d) ->
  trace (FlexibleCall abi requireSuccess opts mc) = map EvPack (seq 0 (S j)).
Proof.
  intros Hc Hp Hbefore.
  pose proof (encoded_None _ _ _ _ Hc Hp) as Henc.
  destruct (FlexibleCall_path_encode abi requireSuccess opts mc Henc)
    as (calls1 & j' & c' & err' & Hc' & Hp' & Hbefore' & _ & ->).
  cbn [trace].
  destruct (Nat.lt_trichotomy j j') as [Hlt|[->|Hgt]]; [|reflexivity|].
  - destruct (Hbefore' j c Hlt Hc) as [d Hd]. congruence.
  - destruct (Hbefore j' c' Hgt Hc') as [d Hd]. congruence.
Qed.

Lemma FlexibleCall_encode_stops_witness :
  trace (FlexibleCall (Scenario.stubAbi []) true None
           (Scenario.queue Scenario.echoClient
              [Scenario.goodCall 1%N "a"; Scenario.unencodableCall 2%N "b";
               Scenario.goodCall 3%N "c"])) = map EvPack (seq 0 2).
Proof.
  apply (FlexibleCall_encode_stops (Scenario.stubAbi []) true None
           (Scenario.queue Scenario.echoClient
              [Scenario.goodCall 1%N "a"; Scenario.unencodableCall 2%N "b";
               Scenario.goodCall 3%N "c"])
           1 (Scenario.unencodableCall 2%N "b") (CapabilityError "abi: bad argument")).
  - reflexivity.
  - reflexivity.
  - intros [|k] c' Hk Hc'; [|lia].
    simpl in Hc'. injection Hc' as <-. eexists. reflexivity.
Defined.

(** X10.  When the decode step of position [i] is the first to fail, the
    decode steps that have run are exactly those of the successful entries
    up to position [i], in queue order: the outputs of the earlier
    successful descriptors have been written although no result is
    returned. *)
Theorem FlexibleCall_decodes_before_failure
    abi requireSuccess opts mc l callData resp results i c r e :
  encoded (calls mc) = Some l ->
  Pack_tryAggregate abi requireSuccess l = Ok callData ->
  CallContract (client mc) {| To := Some (contractAddress mc); Data := callData |}
    (blockNumber_of opts) = Ok resp ->
  Unpack_tryAggregate abi resp = Ok results ->
  calls mc !! i = Some c ->
  results !! i = Some r ->
  Status r = true ->
  UnpackFunc c (ReturnData r) = Some e ->
  (forall k c' r', k < i -> calls mc !! k = Some c' -> results !! k = Some r' ->
     Status r' = true -> UnpackFunc c' (ReturnData r') = None) ->
  unpacked (trace (FlexibleCall abi requireSuccess opts mc)) =
    List.filter (flag_at results) (seq 0 (S i)).
Proof.
  intros Henc Hpack Hcall Hunpack Hc Hr Hs He Hbefore.
  assert (Hne : calls mc <> []) by (intros E; rewrite E in Hc; discriminate).
  destruct (FlexibleCall_path_loop abi requireSuccess opts mc l callData resp results
              Hne Henc Hpack Hcall Hunpack) as (calls1 & _ & ->).
  destruct (unpack_loop_failed (calls mc) 0 i results c r e) as [H1 H2]; auto.
  { intros k c' Hk Hc'.
    destruct (lookup_lt_is_Some_2 results k) as [r' Hr'].
    { apply lookup_lt_Some in Hr. lia. }
    exists r'. split; [exact Hr'|]. intros Hs'. exact (Hbefore k c' r' Hk Hc' Hr' Hs'). }
  cbv zeta.
  destruct (unpack_loop 0 (calls mc) results) as [x tr3]; cbn [fst snd] in *.
  subst x. trace_counts. exact H2.
Qed.

Lemma FlexibleCall_decodes_before_failure_witness :
  let mc := Scenario.queue Scenario.echoClient
              [Scenario.goodCall 1%N "a"; Scenario.goodCall 2%N "b";
               Scenario.undecodableCall 3%N "c"; Scenario.goodCall 4%N "d"] in
  let results := [Scenario.yes; Scenario.no; Scenario.yes; Scenario.yes] in
  unpacked (trace (FlexibleCall (Scenario.stubAbi results) false None mc)) =
    List.filter (flag_at results) (seq 0 3).
Proof.
  intros mc results.
  apply (FlexibleCall_decodes_before_failure (Scenario.stubAbi results) false None mc
           [(1%N, [Byte.x01]); (2%N, [Byte.x01]); (3%N, [Byte.x02]); (4%N, [Byte.x01])]
           [Byte.x01; Byte.x01; Byte.x02; Byte.x01]
           [Byte.x01; Byte.x01; Byte.x02; Byte.x01]
           results 2 (Scenario.undecodableCall 3%N "c") Scenario.yes
           (CapabilityError "abi: bad output")); try reflexivity.
  intros [|[|k]] c' r' Hk Hc' Hr' Hs'; try lia;
    simpl in Hc'; injection Hc' as <-; reflexivity.
Defined.

(** ** Enqueueing *)

(** X11.  When the queue's encode steps go through and the packing of a
    call added last by [AddCall] fails, [FlexibleCall] returns the packing
    error under a message that names the method and the contract of that
    call; every encode step has run and nothing else has. *)
Theorem AddCall_pack_error_reported abi requireSuccess opts mc l a pack unpack m err :
  encoded (calls mc) = Some l ->
  pack tt = Err err ->
  ret (FlexibleCall abi requireSuccess opts (AddCall a pack unpack m mc)) =
    Returned (None,
      Some (Wrapf "error packing data for call [%s] on contract %s: %w"
              [ArgStr m; ArgAddr a] err)) /\
  trace (FlexibleCall abi requireSuccess opts (AddCall a pack unpack m mc)) =
    map EvPack (seq 0 (S (length (calls mc)))).
Proof.
  intros Henc Hp.
  set (mc' := AddCall a pack unpack m mc).
  assert (Hlast : exists c, calls mc' = calls mc ++ [c] /\
            PackFunc c tt =
              Err (Wrapf "error packing data for call [%s] on contract %s: %w"
                     [ArgStr m; ArgAddr a] err)).
  { eexists. split; [reflexivity|]. cbn [PackFunc]. now rewrite Hp. }
  destruct Hlast as (c & Hcalls & Hpc).
  assert (Hc : calls mc' !! length (calls mc) = Some c).
  { rewrite Hcalls. rewrite lookup_app_r by lia. now rewrite Nat.sub_diag. }
  pose proof (encoded_None _ _ _ _ Hc Hpc) as Henc'.
  destruct (FlexibleCall_path_encode abi requireSuccess opts mc' Henc')
    as (calls1 & j & c' & err' & Hc' & Hp' & Hbefore & _ & ->).
  cbn [ret trace].
  assert (Hj : j = length (calls mc)).
  { destruct (Nat.lt_trichotomy j (length (calls mc))) as [Hlt|[->|Hgt]];
      [|reflexivity|].
    - rewrite Hcalls, lookup_app_l in Hc' by exact Hlt.
      destruct (encoded_lookup _ _ _ _ Henc Hc') as [d Hd]. congruence.
    - destruct (Hbefore _ c Hgt Hc) as [d Hd]. congruence. }
  subst j. split; [|reflexivity].
  rewrite Hc in Hc'. injection Hc' as <-. congruence.
Qed.

Lemma AddCall_pack_error_reported_witness :
  let mc := AddCall 5%N (fun _ => Err (CapabilityError "abi: bad argument"))
              (fun _ => None) "balanceOf" Scenario.three in
  ret (FlexibleCall (Scenario.stubAbi []) false None mc) =
    Returned (None,
      Some (Wrapf "error packing data for call [%s] on contract %s: %w"
              [ArgStr "balanceOf"; ArgAddr 5%N] (CapabilityError "abi: bad argument"))) /\
  trace (FlexibleCall (Scenario.stubAbi []) false None mc) =
    map EvPack (seq 0 (S (length (calls Scenario.three)))).
Proof.
  intros mc.
  apply (AddCall_pack_error_reported (Scenario.stubAbi []) false None Scenario.three
           [(1%N, [Byte.x01]); (2%N, [Byte.x01]); (3%N, [Byte.x01])]
           5%N (fun _ => Err (CapabilityError "abi: bad argument")) (fun _ => None)
           "balanceOf" (CapabilityError "abi: bad argument")).
  - reflexivity.
  - reflexivity.
Defined.

(** X12.  A sequence of [AddCall]s keeps what was queued and appends one
    descriptor per call, in call order, each with the target, the method
    and the decode closure it was given; the client and the multicall
    address stay the same. *)
Theorem enqueue_all_order reqs : forall mc,
  map Target (calls (enqueue_all reqs mc)) = map Target (calls mc) ++ map req_target reqs /\
  map Method (calls (enqueue_all reqs mc)) = map Method (calls mc) ++ map req_method reqs /\
  map UnpackFunc (calls (enqueue_all reqs mc)) =
    map UnpackFunc (calls mc) ++ map req_unpack reqs /\
  client (enqueue_all reqs mc) = client mc /\
  contractAddress (enqueue_all reqs mc) = contractAddress mc.
Proof.
  induction reqs as [|r reqs IH]; intros mc.
  - cbn [enqueue_all fold_left map]. rewrite !app_nil_r. repeat split.
  - cbn [enqueue_all fold_left]. fold (enqueue_all reqs (enqueue mc r)).
    destruct (IH (enqueue mc r)) as (Ht & Hm & Hu & Hc & Ha).
    rewrite Ht, Hm, Hu, Hc, Ha.
    unfold enqueue, AddCall. cbn [calls set_calls client contractAddress].
    rewrite !map_app. cbn [map Target Method UnpackFunc].
    rewrite <- !app_assoc. repeat split.
Qed.

End MultiCallerPaths.

(** * Further properties of the balance batcher *)

Section BalanceBatcherMore.
Import BalanceBatcher BalanceBatcherSpec BalanceBatcherNotions.
Local Open Scope Z_scope.

(** ** Edge cases of the chunking *)

(** X13.  For an empty address list [GetEthBalances] returns the empty
    array and no error, whatever the chunk size and the thread limit are:
    the loop body never runs, so no unit is spawned. *)
Theorem GetEthBalances_no_addresses sched b opts fuel :
  (forall l, Permutation (sched l) l) ->
  (0 < fuel)%nat ->
  GetEthBalances fuel sched b [] opts = Some (Returned (Some [], None)).
Proof.
  intros Hperm Hfuel. destruct fuel as [|fuel]; [lia|].
  unfold GetEthBalances.
  change (chunk_loop (S fuel) (Z.of_nat (length (@nil Address))) (BalanceBatchSize b) 0)
    with (@Some (list unit_bounds) []).
  cbn [length Nat.eqb negb]. rewrite andb_false_r.
  rewrite (Permutation_nil (Permutation_sym (Hperm []))).
  reflexivity.
Qed.

Lemma GetEthBalances_no_addresses_witness :
  GetEthBalances 1 BalanceScenario.reversed
    (BalanceScenario.batcher BalanceScenario.ledgerAbi Scenario.downClient 0 0)
    [] None = Some (Returned (Some [], None)).
Proof.
  apply (GetEthBalances_no_addresses BalanceScenario.reversed
           (BalanceScenario.batcher BalanceScenario.ledgerAbi Scenario.downClient 0 0)
           None 1).
  - intros l. apply Permutation_sym, Permutation_rev.
  - lia.
Defined.

(** X14.  When the whole list fits one batch, the loop spawns a single unit
    and that unit queries the whole list; this holds up to the largest
    chunk size an [int] can hold. *)
Theorem chunk_loop_single_batch (addresses : list Address) size fuel :
  0 < Z.of_nat (length addresses) <= size ->
  size <= int_max ->
  (2 <= fuel)%nat ->
  chunk_loop fuel (Z.of_nat (length addresses)) size 0 =
    Some [(0, Z.of_nat (length addresses))] /\
  slice addresses 0 (Z.of_nat (length addresses)) = Some addresses.
Proof.
  intros Hn Hmax Hfuel. split.
  - destruct fuel as [|[|fuel]]; try lia.
    cbn [chunk_loop]. change (0 + size) with size.
    rewrite int_wrap_small by (unfold int_min, int_max in *; lia).
    destruct (0 <? Z.of_nat (length addresses)) eqn:H0.
    2:{ apply Z.ltb_ge in H0. lia. }
    destruct (size <? Z.of_nat (length addresses)) eqn:H1.
    { apply Z.ltb_lt in H1. lia. }
    do 3 f_equal.
    destruct (size >? Z.of_nat (length addresses)) eqn:H2; [reflexivity|].
    rewrite Z.gtb_ltb in H2. apply Z.ltb_ge in H2. lia.
  - rewrite slice_in_range by lia.
    rewrite Z.sub_0_r, Nat2Z.id. cbn [Z.to_nat drop].
    now rewrite firstn_all.
Qed.

Lemma chunk_loop_single_batch_witness :
  chunk_loop 2 (Z.of_nat (length BalanceScenario.five)) int_max 0 =
    Some [(0, Z.of_nat (length BalanceScenario.five))] /\
  slice BalanceScenario.five 0 (Z.of_nat (length BalanceScenario.five)) =
    Some BalanceScenario.five.
Proof.
  apply (chunk_loop_single_batch BalanceScenario.five int_max 2).
  - cbn. unfold int_max. lia.
  - lia.
  - lia.
Defined.

Lemma chunk_count_zero count size i :
  0 < size -> chunk_count count size i = 0%nat -> count <= i.
Proof.
  intros Hs H0. destruct (Z_lt_le_dec i count) as [Hlt|Hle]; [|exact Hle].
  rewrite (chunk_count_step count size i Hs Hlt) in H0. discriminate.
Qed.

Lemma chunks_slices (addresses : list Address) size n : forall i,
  0 < size -> 0 <= i ->
  n = chunk_count (Z.of_nat (length addresses)) size i ->
  exists subs,
    slices addresses (chunks n (Z.of_nat (length addresses)) size i) = Some subs /\
    concat subs = drop (Z.to_nat i) addresses /\
    Forall (fun sub => 0 < Z.of_nat (length sub) <= size) subs.
Proof.
  set (count := Z.of_nat (length addresses)).
  induction n as [|n IH]; intros i Hs Hi Hn.
  - exists []. symmetry in Hn. apply chunk_count_zero in Hn; [|exact Hs].
    repeat split; [|constructor].
    cbn [concat]. symmetry. apply drop_ge. unfold count in Hn. lia.
  - assert (Hlt : i < count).
    { destruct (Z_lt_le_dec i count) as [Hlt|Hle]; [exact Hlt|].
      rewrite chunk_count_done in Hn by lia. discriminate. }
    rewrite (chunk_count_step count size i Hs Hlt) in Hn. injection Hn as Hn.
    destruct (IH (i + size) Hs ltac:(lia) Hn) as (subs & Hsl & Hcat & Hall).
    cbn [chunks slices]. rewrite Hsl.
    rewrite slice_in_range by (fold count; lia).
    eexists. split; [reflexivity|].
    assert (Hdrop : length (drop (Z.to_nat i) addresses) = Z.to_nat (count - i)).
    { rewrite length_drop. unfold count. lia. }
    split.
    + cbn [concat]. rewrite Hcat.
      destruct (Z_le_gt_dec (i + size) count) as [Hle|Hgt].
      * rewrite Z.min_l by lia.
        replace (Z.to_nat (i + size)) with (Z.to_nat i + Z.to_nat size)%nat by lia.
        rewrite <- drop_drop.
        replace (Z.to_nat (i + size - i)) with (Z.to_nat size) by lia.
        apply take_drop.
      * rewrite Z.min_r by lia.
        rewrite (drop_ge addresses (Z.to_nat (i + size))) by (unfold count in *; lia).
        rewrite app_nil_r. apply take_ge. lia.
    + constructor; [|exact Hall].
      rewrite length_take, Hdrop. lia.
Qed.

(** X15.  With a positive chunk size the loop spawns [ceil(N / size)] units,
    every slice expression is in range, every chunk holds between one and
    [size] addresses, and the chunks in spawn order, put end to end, are
    the address list: no address is dropped, repeated or moved. *)
Theorem chunk_loop_partition (addresses : list Address) size fuel :
  0 < size <= int_max ->
  2 * Z.of_nat (length addresses) <= int_max ->
  (length addresses < fuel)%nat ->
  exists units subs,
    chunk_loop fuel (Z.of_nat (length addresses)) size 0 = Some units /\
    length units = Z.to_nat ((Z.of_nat (length addresses) + size - 1) / size) /\
    slices addresses units = Some subs /\
    concat subs = addresses /\
    Forall (fun sub => 0 < Z.of_nat (length sub) <= size) subs.
Proof.
  intros Hs Hfits Hfuel.
  destruct (chunks_slices addresses size
              (chunk_count (Z.of_nat (length addresses)) size 0) 0
              ltac:(lia) ltac:(lia) eq_refl) as (subs & Hsl & Hcat & Hall).
  eexists. exists subs. split.
  { apply chunk_loop_chunks; unfold int_max in *; lia. }
  split.
  { rewrite chunks_length. unfold chunk_count. do 2 f_equal. lia. }
  repeat split; auto.
Qed.

Lemma chunk_loop_partition_witness :
  exists units subs,
    chunk_loop 6 (Z.of_nat (length BalanceScenario.five)) 2 0 = Some units /\
    length units = Z.to_nat ((Z.of_nat (length BalanceScenario.five) + 2 - 1) / 2) /\
    slices BalanceScenario.five units = Some subs /\
    concat subs = BalanceScenario.five /\
    Forall (fun sub => 0 < Z.of_nat (length sub) <= 2) subs.
Proof.
  apply (chunk_loop_partition BalanceScenario.five 2 6).
  - unfold int_max. lia.
  - cbn. unfold int_max. lia.
  - cbn. lia.
Defined.

(** The scenario of five addresses and chunk size 2: three units, the
    chunks [A,B], [C,D] and [E]. *)
Example chunk_loop_five_by_two :
  chunk_loop 6 5 2 0 = Some [(0, 2); (2, 4); (4, 5)] /\
  slices BalanceScenario.five [(0, 2); (2, 4); (4, 5)] =
    Some [[10%N; 11%N]; [12%N; 13%N]; [14%N]].
Proof. split; vm_compute; reflexivity. Qed.

(** ** What a unit leaves alone *)

Lemma store_loop_frame sub i todo : forall j bal (p : nat),
  0 <= i -> i + Z.of_nat j + Z.of_nat (length todo) <= int_max ->
  ~ (Z.to_nat i + j <= p < Z.to_nat i + j + length todo)%nat ->
  (store_loop sub i j todo bal).2 !! p = bal !! p.
Proof.
  induction todo as [|v rest IH]; intros j bal p Hi Hmax Hp; simpl in *; auto.
  destruct v as [x|]; [|destruct (sub !! j); reflexivity].
  rewrite int_wrap_small by (unfold int_min, int_max in *; lia).
  destruct (_ && _); [|reflexivity].
  rewrite IH by lia. apply list_lookup_insert_ne. lia.
Qed.

(** X16.  Whatever a chunk unit returns, it leaves the shared array at its
    length and changes no cell outside its own range [[i, max)]: units of
    different chunks never store to the same cell. *)
Theorem chunk_unit_frame b addresses opts i max balances (p : nat) :
  Z.of_nat (length addresses) <= int_max ->
  ~ (i <= Z.of_nat p < max) ->
  (chunk_unit b addresses opts (i, max) balances).2 !! p = balances !! p /\
  length (chunk_unit b addresses opts (i, max) balances).2 = length balances.
Proof.
  intros Hfits Hp. split; [|apply chunk_unit_length].
  unfold chunk_unit.
  destruct (slice addresses i max) as [sub|] eqn:Hs; [|reflexivity].
  destruct (slice_Some _ _ _ _ Hs) as (Hlo & Hhi & _ & Hsub).
  destruct (Pack_balances _ _ _); [|reflexivity].
  destruct (CallContract _ _ _); [|reflexivity].
  destruct (Unpack_balances _ _) as [bs|]; [|reflexivity].
  destruct (Nat.eqb (length bs) (length sub)) eqn:Hlen; [|reflexivity].
  apply Nat.eqb_eq in Hlen. cbn [negb].
  apply store_loop_frame; lia.
Qed.

Lemma chunk_unit_frame_witness :
  (chunk_unit (BalanceScenario.batcher BalanceScenario.ledgerAbi Scenario.echoClient 2 2)
     BalanceScenario.five None (2, 4) [Some 1; Some 2; Some 3; Some 4; Some 5]).2 !! 4%nat
  = [Some 1; Some 2; Some 3; Some 4; Some 5] !! 4%nat /\
  length (chunk_unit (BalanceScenario.batcher BalanceScenario.ledgerAbi Scenario.echoClient 2 2)
            BalanceScenario.five None (2, 4) [Some 1; Some 2; Some 3; Some 4; Some 5]).2
  = length [Some 1; Some 2; Some 3; Some 4; Some 5].
Proof.
  apply (chunk_unit_frame
           (BalanceScenario.batcher BalanceScenario.ledgerAbi Scenario.echoClient 2 2)
           BalanceScenario.five None 2 4 [Some 1; Some 2; Some 3; Some 4; Some 5] 4).
  - cbn. unfold int_max. lia.
  - lia.
Defined.

(** ** The array of a run without errors *)

Lemma first_error_In b addresses opts order e :
  first_error b addresses opts order = Some e ->
  exists u, In u order /\ unit_error b addresses opts u = Some e.
Proof.
  induction order as [|u rest IH]; intros H; [discriminate|].
  rewrite first_error_cons in H.
  destruct (unit_error b addresses opts u) as [e'|] eqn:Hu.
  - injection H as <-. exists u. split; [now left|exact Hu].
  - destruct (IH H) as (u' & Hin & Hu'). exists u'. split; [now right|exact Hu'].
Qed.

(** The cells of the array once every unit of a finishing order has
    returned [nil]. *)
Lemma run_units_cells sched b addresses opts :
  (forall l, Permutation (sched l) l) ->
  0 < BalanceBatchSize b ->
  Z.of_nat (length addresses) <= int_max ->
  let count := Z.of_nat (length addresses) in
  let size := BalanceBatchSize b in
  let order := sched (chunks (chunk_count count size 0) count size 0) in
  first_error b addresses opts order = None ->
  forall (p : nat) a, addresses !! p = Some a ->
    exists sub bs v,
      slice addresses (Z.of_nat p / size * size)
        (Z.min (Z.of_nat p / size * size + size) count) = Some sub /\
      decoded b opts sub = Some bs /\
      length bs = length sub /\
      sub !! (p - Z.to_nat (Z.of_nat p / size * size))%nat = Some a /\
      bs !! (p - Z.to_nat (Z.of_nat p / size * size))%nat = Some (Some v) /\
      (run_units b addresses opts order (replicate (length addresses) None) None).2 !! p
        = Some (Some v).
Proof.
  intros Hperm Hsize Hcount count size order Hfe p a Ha.
  assert (Hp : 0 <= Z.of_nat p < count).
  { apply lookup_lt_Some in Ha. unfold count. lia. }
  destruct (chunk_of_position count size (Z.of_nat p) ltac:(lia) Hp) as [Hin Hcov].
  set (lo := Z.of_nat p / size * size) in *.
  set (hi := Z.min (lo + size) count) in *.
  assert (Hb : in_bounds addresses order).
  { intros lo' hi' Hin'. unfold order in Hin'.
    apply (Permutation_in _ (Hperm _)) in Hin'.
    apply chunks_in_bounds in Hin'; [|lia|lia]. fold count. lia. }
  destruct (run_units_inside b addresses opts Hcount order
              (replicate (length addresses) None) p lo hi)
    as (sub & bs & Hs & Hd & Hl & Hnn & Hres); auto.
  { apply length_replicate. }
  { apply (Permutation_in _ (Permutation_sym (Hperm _))). exact Hin. }
  { intros lo' hi' Hin' Hp'.
    apply (Permutation_in _ (Hperm _)) in Hin'.
    apply (chunk_unique count size (Z.of_nat p) lo' hi'); auto; lia. }
  destruct (slice_Some _ _ _ _ Hs) as (Hlo & Hhi & _ & Hsub).
  assert (Hj : (p - Z.to_nat lo < length sub)%nat) by lia.
  destruct (lookup_lt_is_Some_2 bs (p - Z.to_nat lo)%nat ltac:(lia)) as [v Hv].
  destruct v as [v|].
  2:{ exfalso. apply (Hnn None); [|reflexivity].
      apply list_elem_of_In, list_elem_of_lookup. eauto. }
  exists sub, bs, v. repeat split; auto.
  - rewrite (slice_lookup _ _ _ _ _ Hs Hj), <- Ha. f_equal. lia.
  - now rewrite Hres.
Qed.

(** X17.  The array does not depend on the order in which the units finish:
    if [GetEthBalances] returns an array under one scheduler, it returns
    the same array, and no error, under any other. *)
Theorem GetEthBalances_order_independent sched1 sched2 b addresses opts fuel res e :
  (forall l, Permutation (sched1 l) l) ->
  (forall l, Permutation (sched2 l) l) ->
  0 < BalanceBatchSize b <= int_max ->
  ThreadLimit b <> 0 ->
  2 * Z.of_nat (length addresses) <= int_max ->
  (length addresses < fuel)%nat ->
  GetEthBalances fuel sched1 b addresses opts = Some (Returned (Some res, e)) ->
  GetEthBalances fuel sched2 b addresses opts = Some (Returned (Some res, None)).
Proof.
  intros Hperm1 Hperm2 Hsize Hlimit Hfits Hfuel.
  assert (Hcount : Z.of_nat (length addresses) <= int_max)
    by (unfold int_max in *; lia).
  destruct (GetEthBalances_returns sched1 b addresses opts fuel Hperm1 Hsize
              Hlimit Hfits Hfuel) as [_ ->].
  destruct (GetEthBalances_returns sched2 b addresses opts fuel Hperm2 Hsize
              Hlimit Hfits Hfuel) as [_ ->].
  set (units := chunks _ _ _ _).
  destruct (first_error b addresses opts (sched1 units)) eqn:Hfe1; [discriminate|].
  intros [= <- <-].
  assert (Hfe2 : first_error b addresses opts (sched2 units) = None).
  { apply first_error_all_None. intros u Hin.
    apply (first_error_None b addresses opts (sched1 units) u Hfe1).
    apply (Permutation_in _ (Permutation_sym (Hperm1 _))).
    apply (Permutation_in _ (Hperm2 _)). exact Hin. }
  rewrite Hfe2. do 4 f_equal. subst units.
  apply list_eq. intros p.
  destruct (addresses !! p) as [a|] eqn:Ha.
  - destruct (run_units_cells sched1 b addresses opts Hperm1 ltac:(lia) Hcount
                Hfe1 p a Ha) as (sub1 & bs1 & v1 & Hs1 & Hd1 & _ & _ & Hv1 & Hc1).
    destruct (run_units_cells sched2 b addresses opts Hperm2 ltac:(lia) Hcount
                Hfe2 p a Ha) as (sub2 & bs2 & v2 & Hs2 & Hd2 & _ & _ & Hv2 & Hc2).
    rewrite Hc1, Hc2. congruence.
  - apply lookup_ge_None in Ha.
    rewrite !lookup_ge_None_2; [reflexivity| |];
      now rewrite run_units_length, length_replicate.
Qed.

Lemma GetEthBalances_order_independent_witness :
  GetEthBalances 6 BalanceScenario.in_order
    (BalanceScenario.batcher BalanceScenario.ledgerAbi Scenario.echoClient 2 2)
    BalanceScenario.five None =
  Some (Returned (Some [Some 110; Some 111; Some 112; Some 113; Some 114], None)).
Proof.
  apply (GetEthBalances_order_independent BalanceScenario.reversed
           BalanceScenario.in_order
           (BalanceScenario.batcher BalanceScenario.ledgerAbi Scenario.echoClient 2 2)
           BalanceScenario.five None 6
           [Some 110; Some 111; Some 112; Some 113; Some 114] None).
  - intros l. apply Permutation_sym, Permutation_rev.
  - intros l. apply Permutation_refl.
  - cbn. unfold int_max. lia.
  - cbn. lia.
  - cbn. unfold int_max. lia.
  - cbn. lia.
  - vm_compute. reflexivity.
Defined.

(** X18.  [GetEthBalances] returns an array exactly when no chunk unit
    returns an error, whatever the order in which the units finish. *)
Theorem GetEthBalances_succeeds_iff sched b addresses opts fuel :
  (forall l, Permutation (sched l) l) ->
  0 < BalanceBatchSize b <= int_max ->
  ThreadLimit b <> 0 ->
  2 * Z.of_nat (length addresses) <= int_max ->
  (length addresses < fuel)%nat ->
  (exists res, GetEthBalances fuel sched b addresses opts =
                 Some (Returned (Some res, None))) <->
  (forall u,
     In u (chunks (chunk_count (Z.of_nat (length addresses)) (BalanceBatchSize b) 0)
             (Z.of_nat (length addresses)) (BalanceBatchSize b) 0) ->
     unit_error b addresses opts u = None).
Proof.
  intros Hperm Hsize Hlimit Hfits Hfuel.
  destruct (GetEthBalances_returns sched b addresses opts fuel Hperm Hsize
              Hlimit Hfits Hfuel) as [_ ->].
  set (units := chunks _ _ _ _). split.
  - intros [res Hres] u Hin.
    destruct (first_error b addresses opts (sched units)) eqn:Hfe; [discriminate|].
    apply (first_error_None b addresses opts (sched units) u Hfe).
    apply (Permutation_in _ (Permutation_sym (Hperm _))). exact Hin.
  - intros Hall.
    rewrite first_error_all_None; [eexists; reflexivity|].
    intros u Hin. apply Hall. apply (Permutation_in _ (Hperm _)). exact Hin.
Qed.

Lemma GetEthBalances_succeeds_iff_witness :
  (exists res,
     GetEthBalances 6 BalanceScenario.reversed
       (BalanceScenario.batcher BalanceScenario.ledgerAbi Scenario.echoClient 2 2)
       BalanceScenario.five None = Some (Returned (Some res, None))) <->
  (forall u,
     In u (chunks (chunk_count (Z.of_nat (length BalanceScenario.five)) 2 0)
             (Z.of_nat (length BalanceScenario.five)) 2 0) ->
     unit_error (BalanceScenario.batcher BalanceScenario.ledgerAbi Scenario.echoClient 2 2)
       BalanceScenario.five None u = None).
Proof.
  apply (GetEthBalances_succeeds_iff BalanceScenario.reversed
           (BalanceScenario.batcher BalanceScenario.ledgerAbi Scenario.echoClient 2 2)
           BalanceScenario.five None 6).
  - intros l. apply Permutation_sym, Permutation_rev.
  - cbn. unfold int_max. lia.
  - cbn. lia.
  - cbn. unfold int_max. lia.
  - cbn. lia.
Defined.

Lemma store_loop_ok sub i todo : forall j bal,
  (forall v, In v todo -> v <> None) ->
  0 <= i -> i + Z.of_nat j + Z.of_nat (length todo) <= Z.of_nat (length bal) ->
  Z.of_nat (length bal) <= int_max ->
  (store_loop sub i j todo bal).1 = Returned None.
Proof.
  induction todo as [|v rest IH]; intros j bal Hnn Hi Hbal Hmax; simpl in *; auto.
  destruct v as [x|]; [|exfalso; apply (Hnn None); auto].
  rewrite int_wrap_small by (unfold int_min, int_max in *; lia).
  destruct (0 <=? i + Z.of_nat j) eqn:H1.
  2:{ apply Z.leb_gt in H1. lia. }
  destruct (i + Z.of_nat j <? Z.of_nat (length bal)) eqn:H2.
  2:{ apply Z.ltb_ge in H2. lia. }
  simpl. apply IH; rewrite ?length_insert; auto; lia.
Qed.

Lemma unit_error_ok b addresses opts lo hi sub bs :
  Z.of_nat (length addresses) <= int_max ->
  slice addresses lo hi = Some sub ->
  decoded b opts sub = Some bs ->
  length bs = length sub ->
  (forall v, In v bs -> v <> None) ->
  unit_error b addresses opts (lo, hi) = None.
Proof.
  intros Hfits Hs Hd Hlen Hnn.
  destruct (slice_Some _ _ _ _ Hs) as (Hlo & Hhi & _ & Hsub).
  unfold unit_error, chunk_unit. rewrite Hs. unfold decoded in Hd.
  destruct (Pack_balances _ _ _); [|discriminate].
  destruct (CallContract _ _ _); [|discriminate].
  destruct (Unpack_balances _ _) as [bs'|]; [|discriminate].
  injection Hd as ->.
  rewrite Hlen, Nat.eqb_refl. cbn [negb].
  rewrite store_loop_ok; auto; rewrite ?length_replicate; lia.
Qed.

(** X19.  When the contract behind the client and the codec answers, for
    every chunk, the balance of every address of the chunk, [GetEthBalances]
    returns the balance of every address of the list, in list order,
    whatever the chunk size, the limit and the finishing order. *)
Theorem GetEthBalances_honest_ledger sched b addresses opts fuel (balance : Address -> Z) :
  (forall l, Permutation (sched l) l) ->
  0 < BalanceBatchSize b <= int_max ->
  ThreadLimit b <> 0 ->
  2 * Z.of_nat (length addresses) <= int_max ->
  (length addresses < fuel)%nat ->
  (forall sub, decoded b opts sub = Some (map (fun a => Some (balance a)) sub)) ->
  GetEthBalances fuel sched b addresses opts =
    Some (Returned (Some (map (fun a => Some (balance a)) addresses), None)).
Proof.
  intros Hperm Hsize Hlimit Hfits Hfuel Hhonest.
  assert (Hcount : Z.of_nat (length addresses) <= int_max)
    by (unfold int_max in *; lia).
  destruct (GetEthBalances_returns sched b addresses opts fuel Hperm Hsize
              Hlimit Hfits Hfuel) as [Hb ->].
  assert (Hfe : first_error b addresses opts
                  (sched (chunks (chunk_count (Z.of_nat (length addresses))
                                    (BalanceBatchSize b) 0)
                            (Z.of_nat (length addresses)) (BalanceBatchSize b) 0)) = None).
  { apply first_error_all_None. intros [lo hi] Hin.
    destruct (Hb lo hi Hin) as [Hlo Hhi].
    apply (unit_error_ok b addresses opts lo hi _ _ Hcount
             (slice_in_range addresses lo hi Hlo Hhi) (Hhonest _)).
    - now rewrite length_map.
    - intros v Hv. apply in_map_iff in Hv as (a & <- & _). discriminate. }
  rewrite Hfe. do 4 f_equal.
  apply list_eq. intros p.
  destruct (addresses !! p) as [a|] eqn:Ha.
  - destruct (run_units_cells sched b addresses opts Hperm ltac:(lia) Hcount
                Hfe p a Ha) as (sub & bs & v & _ & Hd & _ & Hsa & Hv & Hc).
    rewrite Hc. rewrite Hhonest in Hd. injection Hd as <-.
    rewrite list_lookup_fmap, Hsa in Hv. cbn in Hv. injection Hv as <-.
    now rewrite list_lookup_fmap, Ha.
  - rewrite list_lookup_fmap, Ha. cbn.
    apply lookup_ge_None in Ha. apply lookup_ge_None_2.
    now rewrite run_units_length, length_replicate.
Qed.

Lemma GetEthBalances_honest_ledger_witness :
  GetEthBalances 6 BalanceScenario.reversed
    (BalanceScenario.batcher BalanceScenario.ledgerAbi Scenario.echoClient 2 2)
    BalanceScenario.five None =
  Some (Returned
          (Some (map (fun a => Some (BalanceScenarioMore.ledger_balance a))
                   BalanceScenario.five), None)).
Proof.
  apply (GetEthBalances_honest_ledger BalanceScenario.reversed
           (BalanceScenario.batcher BalanceScenario.ledgerAbi Scenario.echoClient 2 2)
           BalanceScenario.five None 6 BalanceScenarioMore.ledger_balance).
  - intros l. apply Permutation_sym, Permutation_rev.
  - cbn. unfold int_max. lia.
  - cbn. lia.
  - cbn. unfold int_max. lia.
  - cbn. lia.
  - intros sub. unfold decoded. cbn. now rewrite map_map.
Defined.

(** ** The errors that come back *)

Lemma store_loop_error_kind sub i todo : forall j bal e,
  (store_loop sub i j todo bal).1 = Returned (Some e) ->
  is_nil_balance_error e = true.
Proof.
  induction todo as [|v rest IH]; intros j bal e H; simpl in *; [discriminate|].
  destruct v as [x|].
  - destruct (_ && _); [|discriminate]. eapply IH; eauto.
  - destruct (sub !! j); [|discriminate].
    simpl in H. injection H as <-. reflexivity.
Qed.

Lemma chunk_unit_error_kind b addresses opts u bal e :
  (chunk_unit b addresses opts u bal).1 = Returned (Some e) ->
  unit_error_kind e = true.
Proof.
  destruct u as [lo hi]. unfold chunk_unit.
  destruct (slice addresses lo hi) as [sub|]; [|discriminate].
  destruct (Pack_balances _ _ _); [|intros [= <-]; reflexivity].
  destruct (CallContract _ _ _); [|intros [= <-]; reflexivity].
  destruct (Unpack_balances _ _) as [bs|]; [|intros [= <-]; reflexivity].
  destruct (negb _); [intros [= <-]; reflexivity|].
  intros H. apply store_loop_error_kind in H.
  unfold unit_error_kind. rewrite H. now rewrite !orb_true_r.
Qed.

Lemma run_units_error_origin b addresses opts order : forall bal firstErr e,
  (run_units b addresses opts order bal firstErr).1 = Returned (Some e) ->
  firstErr = Some e \/
  exists u bal', In u order /\ (chunk_unit b addresses opts u bal').1 = Returned (Some e).
Proof.
  induction order as [|u rest IH]; intros bal firstErr e H.
  - simpl in H. injection H as ->. now left.
  - cbn [run_units] in H.
    destruct (chunk_unit b addresses opts u bal) as [[e0|] bal'] eqn:Hcu;
      [|discriminate].
    apply IH in H as [H|(u' & bal'' & Hin & Hu')].
    + destruct firstErr as [e1|]; [now left|].
      right. exists u, bal. split; [now left|]. rewrite Hcu. cbn. now rewrite H.
    + right. exists u', bal''. split; [now right|exact Hu'].
Qed.

(** X20.  Whenever [GetEthBalances] returns an error it returns no array,
    and the error is the final message around one of the five errors of a
    chunk unit: encode, dispatch, decode, length mismatch or nil balance.
    Nothing else is ever reported. *)
Theorem GetEthBalances_error_kinds sched b addresses opts fuel r err :
  GetEthBalances fuel sched b addresses opts = Some (Returned (r, Some err)) ->
  r = None /\
  exists e, err = Wrapf "error getting balances: %w" [] e /\ unit_error_kind e = true.
Proof.
  unfold GetEthBalances.
  destruct (chunk_loop fuel _ _ _) as [units|]; [|discriminate].
  destruct (_ && _); [discriminate|].
  destruct (run_units b addresses opts (sched units) _ None) as [[[e|]|] bal] eqn:Hrun;
    try discriminate.
  intros [= <- <-]. split; [reflexivity|]. exists e. split; [reflexivity|].
  assert (H : (run_units b addresses opts (sched units)
                 (replicate (length addresses) None) None).1 = Returned (Some e))
    by now rewrite Hrun.
  apply run_units_error_origin in H as [H|(u & bal' & _ & Hu)]; [discriminate|].
  eapply chunk_unit_error_kind; eauto.
Qed.

Lemma GetEthBalances_error_kinds_witness :
  @None (list (option Z)) = None /\
  exists e,
    Wrapf "error getting balances: %w" []
      (Errorf "received nil balance for address %s" [ArgAddr 14%N]) =
    Wrapf "error getting balances: %w" [] e /\
    unit_error_kind e = true.
Proof.
  apply (GetEthBalances_error_kinds BalanceScenario.reversed
           (BalanceScenario.batcher BalanceScenario.holeAbi BalanceScenario.flakyClient 2 2)
           BalanceScenario.five None 6 None
           (Wrapf "error getting balances: %w" []
              (Errorf "received nil balance for address %s" [ArgAddr 14%N]))).
  vm_compute. reflexivity.
Defined.

End BalanceBatcherMore.

(** ** Chunk sizes that are not positive *)

Section BalanceBatcherSizes.
Import BalanceBatcher BalanceBatcherSpec BalanceSteps BalanceStepsNotions.
Local Open Scope Z_scope.

(** X21.  With a negative chunk size and a non-empty list [GetEthBalances]
    never returns an array or an error, however the caller and the units
    interleave: no run reaches the return of the call; in every state of a
    run the move of any unit that has been started is a panic, which ends
    the program; and the caller, once in [wg.Wait], stays there.  With a
    limit that is not zero the caller starts a unit with its first move, so
    the run in which that unit moves next ends in its panic. *)
Theorem GetEthBalances_negative_size b addresses opts :
  int_min <= BalanceBatchSize b < 0 ->
  addresses <> [] ->
  (forall script c,
     run b addresses opts script (Running (start addresses)) = Some c ->
     (forall r, c <> Finished r) /\
     forall s, c = Running s ->
       (forall (k : nat) u,
          active s !! k = Some u ->
          step b addresses opts (Unit k) s = Some Crashed) /\
       (pc s = AtWait -> step b addresses opts Caller s = None)) /\
  (ThreadLimit b <> 0 ->
     run b addresses opts [Caller; Unit 0] (Running (start addresses)) = Some Crashed).
Proof.
  intros Hsize Hne. split.
  - intros script c Hrun.
    assert (Hd : (forall r, c <> Finished r) /\
                 (forall s', c = Running s' -> doomed b addresses opts s')).
    { eapply run_doomed; eauto. now apply doomed_start. }
    destruct Hd as [Hnf Hd]. split; [exact Hnf|].
    intros s ->. destruct (Hd s eq_refl) as [Hact Hpc]. split.
    + intros k u Hk. unfold step. rewrite Hk.
      assert (Hin : In u (active s)).
      { apply list_elem_of_In, list_elem_of_lookup. eauto. }
      now rewrite (Hact u Hin (cells s)).
    + intros Hw. unfold step. rewrite Hw in *.
      destruct (active s); [congruence|reflexivity].
  - intros Hlimit. cbn [run].
    rewrite step_first_negative by auto.
    unfold step. cbn [active cells lookup list_lookup].
    unfold chunk_unit, slice.
    destruct (0 <=? BalanceBatchSize b) eqn:Hle; [apply Z.leb_le in Hle; lia|].
    reflexivity.
Qed.

Lemma GetEthBalances_negative_size_witness :
  (forall script c,
     run (BalanceScenario.batcher BalanceScenario.ledgerAbi Scenario.echoClient (- 2 ^ 62) 2)
       [10%N] None script (Running (start [10%N])) = Some c ->
     forall r, c <> Finished r) /\
  run (BalanceScenario.batcher BalanceScenario.ledgerAbi Scenario.echoClient (- 2 ^ 62) 2)
    [10%N] None [Caller; Unit 0] (Running (start [10%N])) = Some Crashed.
Proof.
  destruct (GetEthBalances_negative_size
              (BalanceScenario.batcher BalanceScenario.ledgerAbi Scenario.echoClient
                 (- 2 ^ 62) 2)
              [10%N] None) as [Hall Hcrash].
  - cbn. unfold int_min. lia.
  - discriminate.
  - split.
    + intros script c Hrun. destruct (Hall script c Hrun) as [Hnf _]. exact Hnf.
    + apply Hcrash. cbn. lia.
Defined.

(** X22.  With chunk size zero and a non-empty list [GetEthBalances] never
    returns: the loop index stays at 0. *)
Theorem GetEthBalances_zero_size sched b addresses opts fuel :
  BalanceBatchSize b = 0 ->
  addresses <> [] ->
  GetEthBalances fuel sched b addresses opts = None.
Proof.
  intros Hsize Hne.
  assert (Hcount : 0 < Z.of_nat (length addresses)).
  { destruct addresses; [congruence|]. cbn [length]. lia. }
  unfold GetEthBalances. rewrite Hsize.
  now rewrite (chunk_loop_zero fuel _ Hcount).
Qed.

Lemma GetEthBalances_zero_size_witness :
  GetEthBalances 1000 BalanceScenario.in_order
    (BalanceScenario.batcher BalanceScenario.ledgerAbi Scenario.echoClient 0 2)
    BalanceScenario.five None = None.
Proof.
  apply (GetEthBalances_zero_size BalanceScenario.in_order
           (BalanceScenario.batcher BalanceScenario.ledgerAbi Scenario.echoClient 0 2)
           BalanceScenario.five None 1000).
  - reflexivity.
  - discriminate.
Defined.

End BalanceBatcherSizes.

(** ** The runs of the caller and the units *)

Section BalanceBatcherRuns.
Import BalanceBatcher BalanceBatcherSpec BalanceSteps BalanceStepsNotions.
Local Open Scope Z_scope.

(** X26.  With a positive chunk size and a limit that is not zero, whatever
    a run of the caller and the units returns, in whatever order they
    moved, is what [GetEthBalances] returns for some order in which the
    chunks finish: the scheduler that puts the chunks in the order in which
    the units of the run ended. *)
Theorem GetEthBalances_run_agrees b addresses opts fuel script r :
  0 < BalanceBatchSize b <= int_max ->
  ThreadLimit b <> 0 ->
  2 * Z.of_nat (length addresses) <= int_max ->
  (length addresses < fuel)%nat ->
  run b addresses opts script (Running (start addresses)) = Some (Finished r) ->
  exists sched,
    (forall l, Permutation (sched l) l) /\
    GetEthBalances fuel sched b addresses opts = Some (Returned r).
Proof.
  intros Hsize Hlimit Hfits Hfuel Hrun.
  set (count := Z.of_nat (length addresses)).
  set (units := chunks (chunk_count count (BalanceBatchSize b) 0) count
                  (BalanceBatchSize b) 0).
  assert (Hs : sound b addresses (start addresses)) by now apply sound_start.
  assert (Ht : traced b addresses opts (start addresses)).
  { exists []. cbn [app start active pc cells held remaining run_units].
    split; reflexivity. }
  destruct (run_traced b addresses opts script (start addresses) r Hsize Hfits Hs Ht Hrun)
    as (order & Hperm & e & bal & Horder & ->).
  fold count units in Hperm.
  exists (fun l => if decide (l = units) then order else l). split.
  - intros l. destruct (decide (l = units)) as [->|_]; [exact Hperm|reflexivity].
  - unfold GetEthBalances. fold count.
    rewrite chunk_loop_chunks by (unfold int_max in *; lia).
    fold units.
    destruct (decide (units = units)) as [_|Hne]; [|congruence].
    destruct (ThreadLimit b =? 0) eqn:H0; [apply Z.eqb_eq in H0; congruence|].
    cbn [andb]. rewrite Horder. now destruct e.
Qed.

Lemma GetEthBalances_run_agrees_witness :
  exists sched,
    (forall l, Permutation (sched l) l) /\
    GetEthBalances 6 sched
      (BalanceScenario.batcher BalanceScenario.holeAbi BalanceScenario.flakyClient 2 2)
      BalanceScenario.five None =
      Some (Returned
              (None,
               Some (Wrapf "error getting balances: %w" []
                       (Wrapf "error calling balances: %w" []
                          (CapabilityError "timeout"))))).
Proof.
  apply (GetEthBalances_run_agrees
           (BalanceScenario.batcher BalanceScenario.holeAbi BalanceScenario.flakyClient 2 2)
           BalanceScenario.five None 6
           [Caller; Caller; Unit 1; Unit 0; Caller; Caller; Unit 0; Caller]).
  - cbn. unfold int_max. lia.
  - cbn. lia.
  - cbn. unfold int_max. lia.
  - cbn. lia.
  - vm_compute. reflexivity.
Defined.

End BalanceBatcherRuns.

(** * The two revisions of the multicaller *)

Section Revisions.
Import MultiCallerSpec MultiCallerNotions RevisionNotions.

Lemma encodes_to_encoded cs2 cs1 :
  Forall2 encodes_to cs2 cs1 ->
  encoded cs2 =
    Some (map (fun c => (MultiCallerV1.Target c, MultiCallerV1.CallData c)) cs1).
Proof.
  induction 1 as [|c2 c1 cs2 cs1 (Ht & _ & _ & Hp) _ IH]; [reflexivity|].
  cbn [encoded map]. now rewrite Hp, IH, Ht.
Qed.

Lemma unpack_loop_versions cs2 cs1 :
  Forall2 encodes_to cs2 cs1 ->
  forall i results,
    MultiCallerV1.unpack_loop i cs1 results = MultiCaller.unpack_loop i cs2 results.
Proof.
  induction 1 as [|c2 c1 cs2 cs1 (Ht & Hm & Hu & _) _ IH]; intros i results;
    [reflexivity|].
  cbn [MultiCallerV1.unpack_loop MultiCaller.unpack_loop].
  now rewrite Ht, Hm, Hu, IH.
Qed.

Lemma without_packs_app tr1 tr2 :
  without_packs (tr1 ++ tr2) = without_packs tr1 ++ without_packs tr2.
Proof. unfold without_packs. apply List.filter_app. Qed.

Lemma without_packs_packs i n :
  without_packs (map MultiCaller.EvPack (seq i n)) = [].
Proof. revert i. induction n; intros i; simpl; auto. Qed.

Lemma without_packs_unpacks tr :
  forallb is_unpack tr = true -> without_packs tr = tr.
Proof.
  induction tr as [|e tr IH]; [reflexivity|].
  cbn [forallb]. intros [He Htr]%andb_true_iff.
  destruct e; try discriminate.
  unfold without_packs in *. cbn [List.filter]. now rewrite (IH Htr).
Qed.

(** X23.  The first revision has no fast path: executing an empty queue
    whose aggregate encode goes through still calls the client once, and
    what the client and the aggregate decode answer decides the result. *)
Theorem FlexibleCall_v1_empty_queue requireSuccess opts mc callData :
  MultiCallerV1.calls mc = [] ->
  MultiCaller.Pack_tryAggregate (MultiCallerV1.abi mc) requireSuccess [] = Ok callData ->
  MultiCaller.transport_calls
    (MultiCallerV1.trace (MultiCallerV1.FlexibleCall requireSuccess opts mc)) =
    [MultiCaller.EvCallContract
       {| To := Some (MultiCallerV1.contractAddress mc); Data := callData |}
       (blockNumber_of opts)] /\
  MultiCallerV1.ret (MultiCallerV1.FlexibleCall requireSuccess opts mc) =
    match CallContract (MultiCallerV1.client mc)
            {| To := Some (MultiCallerV1.contractAddress mc); Data := callData |}
            (blockNumber_of opts) with
    | Err err =>
        Returned (None, Some (Wrapf "error calling multicall contract: %w" [] err))
    | Ok resp =>
        match MultiCaller.Unpack_tryAggregate (MultiCallerV1.abi mc) resp with
        | Err err =>
            Returned (None,
              Some (Wrapf "error unpacking aggregated response data: %w" [] err))
        | Ok _ => Returned (Some [], None)
        end
    end.
Proof.
  intros Hcalls Hpack. unfold MultiCallerV1.FlexibleCall.
  rewrite Hcalls. cbn [map]. rewrite Hpack.
  destruct (CallContract _ _ _) as [resp|err]; [|split; reflexivity].
  destruct (MultiCaller.Unpack_tryAggregate _ _) as [results|err];
    split; reflexivity.
Qed.

Lemma FlexibleCall_v1_empty_queue_witness :
  let mc := MultiCallerV1.NewMultiCaller (Scenario.stubAbi []) Scenario.echoClient 9%N in
  MultiCaller.transport_calls
    (MultiCallerV1.trace (MultiCallerV1.FlexibleCall false None mc)) =
    [MultiCaller.EvCallContract {| To := Some 9%N; Data := [] |} None] /\
  MultiCallerV1.ret (MultiCallerV1.FlexibleCall false None mc) =
    Returned (Some [], None).
Proof.
  intros mc.
  apply (FlexibleCall_v1_empty_queue false None mc []).
  - reflexivity.
  - reflexivity.
Defined.

(** X24.  On a non-empty queue the two revisions agree.  When the first
    revision's queue stores, descriptor by descriptor, the bytes that the
    later revision's encode steps return, both executions return the same
    thing, call the client and run the decode steps alike (the later
    revision's trace without its encode events is the first revision's
    trace), and leave queues of the same length. *)
Theorem FlexibleCall_revisions_agree requireSuccess opts mc2 mc1 :
  same_queue mc2 mc1 ->
  MultiCaller.calls mc2 <> [] ->
  let r1 := MultiCallerV1.FlexibleCall requireSuccess opts mc1 in
  let r2 := MultiCaller.FlexibleCall (MultiCallerV1.abi mc1) requireSuccess opts mc2 in
  MultiCallerV1.ret r1 = MultiCaller.ret r2 /\
  MultiCallerV1.trace r1 = without_packs (MultiCaller.trace r2) /\
  length (MultiCallerV1.calls (MultiCallerV1.after r1)) =
    length (MultiCaller.calls (MultiCaller.after r2)).
Proof.
  intros (Hcl & Haddr & Hq) Hne r1 r2. subst r1 r2.
  pose proof (encodes_to_encoded _ _ Hq) as Henc.
  pose proof (Forall2_length _ _ _ Hq) as Hlen.
  unfold MultiCallerV1.FlexibleCall. rewrite Hcl, Haddr.
  set (l := map _ (MultiCallerV1.calls mc1)) in *.
  destruct (MultiCaller.Pack_tryAggregate (MultiCallerV1.abi mc1) requireSuccess l)
    as [callData|err] eqn:Hpack.
  2:{ destruct (FlexibleCall_path_pack _ requireSuccess opts mc2 l err Hne Henc Hpack)
        as (calls1 & HF & ->).
      cbn [MultiCaller.ret MultiCaller.trace MultiCaller.after MultiCaller.calls
           MultiCaller.set_calls MultiCallerV1.ret MultiCallerV1.trace
           MultiCallerV1.after].
      rewrite without_packs_packs, <- (Forall2_length _ _ _ HF). auto. }
  destruct (CallContract (MultiCaller.client mc2)
              {| To := Some (MultiCaller.contractAddress mc2); Data := callData |}
              (blockNumber_of opts)) as [resp|err] eqn:Hcall.
  2:{ destruct (FlexibleCall_path_dispatch _ requireSuccess opts mc2 l callData err
                  Hne Henc Hpack Hcall) as (calls1 & HF & ->).
      cbn [MultiCaller.ret MultiCaller.trace MultiCaller.after MultiCaller.calls
           MultiCaller.set_calls MultiCallerV1.ret MultiCallerV1.trace
           MultiCallerV1.after].
      rewrite without_packs_app, without_packs_packs, <- (Forall2_length _ _ _ HF).
      auto. }
  destruct (MultiCaller.Unpack_tryAggregate (MultiCallerV1.abi mc1) resp)
    as [results|err] eqn:Hunpack.
  2:{ destruct (FlexibleCall_path_unpack _ requireSuccess opts mc2 l callData resp err
                  Hne Henc Hpack Hcall Hunpack) as (calls1 & HF & ->).
      cbn [MultiCaller.ret MultiCaller.trace MultiCaller.after MultiCaller.calls
           MultiCaller.set_calls MultiCallerV1.ret MultiCallerV1.trace
           MultiCallerV1.after].
      rewrite without_packs_app, without_packs_packs, <- (Forall2_length _ _ _ HF).
      auto. }
  destruct (FlexibleCall_path_loop _ requireSuccess opts mc2 l callData resp results
              Hne Henc Hpack Hcall Hunpack) as (calls1 & HF & ->).
  rewrite (unpack_loop_versions _ _ Hq). cbv zeta.
  pose proof (unpack_loop_only_unpacks (MultiCaller.calls mc2) 0 results) as Hu.
  destruct (MultiCaller.unpack_loop 0 (MultiCaller.calls mc2) results)
    as [[res|err|] tr3];
    cbn [snd MultiCaller.ret MultiCaller.trace MultiCaller.after MultiCaller.calls
         MultiCaller.set_calls MultiCallerV1.ret MultiCallerV1.trace
         MultiCallerV1.after MultiCallerV1.calls MultiCallerV1.set_calls] in *;
    rewrite !without_packs_app, without_packs_packs, (without_packs_unpacks _ Hu);
    rewrite <- ?(Forall2_length _ _ _ HF); auto.
Qed.

Lemma FlexibleCall_revisions_agree_witness :
  let abi := Scenario.stubAbi [Scenario.yes; Scenario.no; Scenario.yes] in
  let r1 := MultiCallerV1.FlexibleCall false None (RevisionScenario.three abi) in
  let r2 := MultiCaller.FlexibleCall abi false None Scenario.three in
  MultiCallerV1.ret r1 = MultiCaller.ret r2 /\
  MultiCallerV1.trace r1 = without_packs (MultiCaller.trace r2) /\
  length (MultiCallerV1.calls (MultiCallerV1.after r1)) =
    length (MultiCaller.calls (MultiCaller.after r2)).
Proof.
  intros abi.
  apply (FlexibleCall_revisions_agree false None Scenario.three (RevisionScenario.three abi)).
  - repeat split; try reflexivity. repeat constructor.
  - discriminate.
Defined.

(** X25.  Adding the same call to matching queues of the two revisions:
    when the packing goes through the queues still match and the first
    revision reports no error; when it fails the first revision returns the
    error at once, under a message that names the method, and leaves its
    queue as it was. *)
Theorem AddCall_revisions mc2 mc1 a pack unpack m :
  same_queue mc2 mc1 ->
  match pack tt with
  | Ok _ =>
      same_queue (MultiCaller.AddCall a pack unpack m mc2)
        (MultiCallerV1.AddCall a pack unpack m mc1).1 /\
      (MultiCallerV1.AddCall a pack unpack m mc1).2 = None
  | Err err =>
      MultiCallerV1.AddCall a pack unpack m mc1 =
        (mc1, Some (Wrapf "error adding call [%s]: %w" [ArgStr m] err))
  end.
Proof.
  intros (Hcl & Haddr & Hq).
  unfold MultiCallerV1.AddCall, MultiCaller.AddCall.
  destruct (pack tt) as [d|err] eqn:Hp; [|reflexivity].
  split; [|reflexivity].
  repeat split; cbn; auto.
  apply Forall2_app; [exact Hq|].
  constructor; [|constructor].
  repeat split.
Qed.

Lemma AddCall_revisions_witness :
  same_queue
    (MultiCaller.AddCall 4%N (fun _ => Ok [Byte.x07]) (fun _ => None) "d" Scenario.three)
    (MultiCallerV1.AddCall 4%N (fun _ => Ok [Byte.x07]) (fun _ => None) "d"
       (RevisionScenario.three Scenario.noPackAbi)).1 /\
  (MultiCallerV1.AddCall 4%N (fun _ => Ok [Byte.x07]) (fun _ => None) "d"
     (RevisionScenario.three Scenario.noPackAbi)).2 = None.
Proof.
  apply (AddCall_revisions Scenario.three (RevisionScenario.three Scenario.noPackAbi)
           4%N (fun _ => Ok [Byte.x07]) (fun _ => None) "d").
  repeat split; try reflexivity. repeat constructor.
Defined.

End Revisions.
